(** * SmartBookmarkApp: the dashboard's local state reconciler

    A shallow embedding of [src/app/dashboard/page.tsx]: the React state of
    the [Dashboard] component, its event handlers split at every [await],
    the updater functions handed to [setBookmarks], and a small event loop
    (pending requests, replies, timers and change notifications) that runs
    them in every order the browser may.

    The record store behind the Supabase client is external; its model
    follows the queries the component writes, the table of the README and
    the specification.  The event loop runs one view of one signed-in
    user; other tabs appear as notifications.  What the component renders,
    its [onAuthStateChange] listener and logout (which only navigate away)
    and the two [Home] pages are modelled beside the loop. *)

From stdpp Require Import base option strings list gmap sorting.

Set Warnings "-clear-no-such-hyp".

Open Scope string_scope.
Open Scope list_scope.

(** ** Data model *)

(** A row of the [bookmarks] table (README, "Table: bookmarks"). *)
Module Bookmark.
Record t := mk {
  id : string;
  user_id : string;
  title : string;
  url : string;
  created_at : Z
}.

#[export] Instance eq_dec : EqDecision t.
Proof. solve_decision. Defined.
End Bookmark.

(** [User] of supabase-js, with the two fields the component reads. *)
Module User.
Record t := mk { id : string; email : string }.

#[export] Instance eq_dec : EqDecision t.
Proof. solve_decision. Defined.
End User.

Module Session.
Record t := mk { user : User.t }.
End Session.

(** The [{ data, error }] pair every store call resolves to. *)
Module Postgrest.
Record Error := mkError { message : string }.
Record response := mk {
  data : option (list Bookmark.t);
  error : option Error
}.
End Postgrest.

(** A [postgres_changes] event with its payload: [payload.new] for INSERT,
    [payload.old] for DELETE. *)
Inductive Change :=
  | INSERT (new : Bookmark.t)
  | DELETE (old : Bookmark.t).

(** JavaScript truthiness of the values the guards test. *)
Definition truthy (s : string) : bool := bool_decide (s ≠ "").

Definition truthy_opt (o : option string) : bool :=
  match o with
  | Some s => truthy s
  | None => false
  end.

(** [Array.prototype.some]. *)
Definition some {A} (P : A → Prop) `{!∀ x, Decision (P x)} (l : list A) : bool :=
  bool_decide (Exists P l).

(** ** Component state: the [useState] cells of [Dashboard] *)

Record Dashboard := mkDashboard {
  user : option User.t;
  loading : bool;
  title : string;
  url : string;
  submitting : bool;
  bookmarks : list Bookmark.t;
  deleting : option string;
  fetchingBookmarks : bool;
  error : option string
}.

Definition initial : Dashboard :=
  {| user := None; loading := true; title := ""; url := "";
     submitting := false; bookmarks := []; deleting := None;
     fetchingBookmarks := false; error := None |}.

(** ** What a handler asks of its environment *)

(** The three queries the component builds on [supabase.from('bookmarks')]. *)
Inductive Query :=
  | Select (eq_user_id : string)
      (* .select('*').eq('user_id', userId).order('created_at', {ascending: false}) *)
  | Insert (user_id title url : string)
      (* .insert({ user_id: user.id, title, url }).select() *)
  | Delete (eq_id eq_user_id : string).
      (* .delete().eq('id', id).eq('user_id', user.id) *)

#[export] Instance Query_eq_dec : EqDecision Query.
Proof. solve_decision. Defined.

(** The two callbacks given to [setTimeout(..., 500)], with what their
    closures captured. *)
Inductive Timer :=
  | InsertFallback (data : option (list Bookmark.t))
  | DeleteFallback (id : string).

Inductive Effect :=
  | Await (q : Query)          (* the handler is suspended on this call *)
  | SetTimeout (t : Timer)     (* setTimeout(callback, 500) *)
  | RouterPush (path : string).

(** A handler reads the state cells of the render it was created in and
    calls setters; it yields the next state and the effects it started. *)
Definition Handler := Dashboard → Dashboard * list Effect.

Definition skip : Handler := λ d, (d, []).

Definition seq (h k : Handler) : Handler :=
  λ d, let '(d1, e1) := h d in
       let '(d2, e2) := k d1 in (d2, e1 ++ e2).

Notation "h >> k" := (seq h k) (at level 61, left associativity).

Definition effect (e : Effect) : Handler := λ d, (d, [e]).

Definition setUser (v : option User.t) : Handler := λ d,
  ({| user := v; loading := loading d; title := title d; url := url d;
      submitting := submitting d; bookmarks := bookmarks d;
      deleting := deleting d; fetchingBookmarks := fetchingBookmarks d;
      error := error d |}, []).

Definition setLoading (v : bool) : Handler := λ d,
  ({| user := user d; loading := v; title := title d; url := url d;
      submitting := submitting d; bookmarks := bookmarks d;
      deleting := deleting d; fetchingBookmarks := fetchingBookmarks d;
      error := error d |}, []).

Definition setTitle (v : string) : Handler := λ d,
  ({| user := user d; loading := loading d; title := v; url := url d;
      submitting := submitting d; bookmarks := bookmarks d;
      deleting := deleting d; fetchingBookmarks := fetchingBookmarks d;
      error := error d |}, []).

Definition setUrl (v : string) : Handler := λ d,
  ({| user := user d; loading := loading d; title := title d; url := v;
      submitting := submitting d; bookmarks := bookmarks d;
      deleting := deleting d; fetchingBookmarks := fetchingBookmarks d;
      error := error d |}, []).

Definition setSubmitting (v : bool) : Handler := λ d,
  ({| user := user d; loading := loading d; title := title d; url := url d;
      submitting := v; bookmarks := bookmarks d;
      deleting := deleting d; fetchingBookmarks := fetchingBookmarks d;
      error := error d |}, []).

(** [setBookmarks] is always called with an updater, or with the fetched
    array, which is the constant updater. *)
Definition setBookmarks (f : list Bookmark.t → list Bookmark.t) : Handler := λ d,
  ({| user := user d; loading := loading d; title := title d; url := url d;
      submitting := submitting d; bookmarks := f (bookmarks d);
      deleting := deleting d; fetchingBookmarks := fetchingBookmarks d;
      error := error d |}, []).

Definition setDeleting (v : option string) : Handler := λ d,
  ({| user := user d; loading := loading d; title := title d; url := url d;
      submitting := submitting d; bookmarks := bookmarks d;
      deleting := v; fetchingBookmarks := fetchingBookmarks d;
      error := error d |}, []).

Definition setFetchingBookmarks (v : bool) : Handler := λ d,
  ({| user := user d; loading := loading d; title := title d; url := url d;
      submitting := submitting d; bookmarks := bookmarks d;
      deleting := deleting d; fetchingBookmarks := v;
      error := error d |}, []).

Definition setError (v : option string) : Handler := λ d,
  ({| user := user d; loading := loading d; title := title d; url := url d;
      submitting := submitting d; bookmarks := bookmarks d;
      deleting := deleting d; fetchingBookmarks := fetchingBookmarks d;
      error := v |}, []).

(** ** The updaters handed to [setBookmarks] *)

(** Realtime INSERT (page.tsx 78-82). *)
Definition insert_updater (new : Bookmark.t) (current : list Bookmark.t) : list Bookmark.t :=
  if some (λ b, Bookmark.id b = Bookmark.id new) current then current
  else new :: current.

(** Realtime DELETE (page.tsx 95-99). *)
Definition delete_updater (old_id : string) (current : list Bookmark.t) : list Bookmark.t :=
  filter (λ b, Bookmark.id b ≠ old_id) current.

(** Fallback timer of [handleSubmit] (page.tsx 158-163): [data && data[0]]
    is the first row of the insert's reply, when there is one. *)
Definition insert_fallback_updater (data : option (list Bookmark.t))
    (current : list Bookmark.t) : list Bookmark.t :=
  match data with
  | Some (data0 :: _) =>
      if negb (some (λ b, Bookmark.id b = Bookmark.id data0) current)
      then data0 :: current
      else current
  | _ => current
  end.

(** Fallback timer of [handleDelete] (page.tsx 193-199). *)
Definition delete_fallback_updater (id : string) (current : list Bookmark.t) : list Bookmark.t :=
  if some (λ b, Bookmark.id b = id) current
  then filter (λ b, Bookmark.id b ≠ id) current
  else current.

(** ** Handlers, one definition per stretch between two [await]s *)

(** [fetchBookmarks], up to its [await]. *)
Definition fetchBookmarks (userId : string) : Handler :=
  if negb (truthy userId) then skip
  else setFetchingBookmarks true >> setError None >> effect (Await (Select userId)).

(** [fetchBookmarks], from the reply on. *)
Definition fetchBookmarks_resume (r : Postgrest.response) : Handler :=
  match Postgrest.error r with
  | Some fetchError =>
      setError (Some ("Failed to load bookmarks: " +:+ Postgrest.message fetchError))
  | None =>
      match Postgrest.data r with
      | Some data => setBookmarks (λ _, data)
      | None => skip
      end
  end >> setFetchingBookmarks false.

(** [checkAuth], once [getSession] has resolved.  When [fetchBookmarks]
    returns without awaiting, [setLoading(false)] follows at once;
    otherwise it follows the reply (see [resume]). *)
Definition checkAuth (session : option Session.t) : Handler :=
  match session with
  | None => effect (RouterPush "/")
  | Some s =>
      let userId := User.id (Session.user s) in
      setUser (Some (Session.user s)) >> fetchBookmarks userId >>
      (if truthy userId then skip else setLoading false)
  end.

(** The realtime callbacks; [user] is the one the effect closed over.
    [on_change] picks the callback registered for the event kind. *)
Definition onInsert (user : User.t) (payload_new : Bookmark.t) : Handler :=
  if bool_decide (Bookmark.user_id payload_new = User.id user)
  then setBookmarks (insert_updater payload_new)
  else skip.

Definition onDelete (user : User.t) (payload_old : Bookmark.t) : Handler :=
  setBookmarks (delete_updater (Bookmark.id payload_old)).

Definition on_change (user : User.t) (c : Change) : Handler :=
  match c with
  | INSERT new => onInsert user new
  | DELETE old => onDelete user old
  end.

(** [handleSubmit], up to its [await]. *)
Definition handleSubmit : Handler := λ d,
  match user d with
  | None => setError (Some "You must be logged in to add bookmarks") d
  | Some u =>
      if negb (truthy (title d)) || negb (truthy (url d)) then skip d
      else (setSubmitting true >> setError None >>
            effect (Await (Insert (User.id u) (title d) (url d)))) d
  end.

(** [handleSubmit], from the reply on. *)
Definition handleSubmit_resume (r : Postgrest.response) : Handler :=
  match Postgrest.error r with
  | Some insertError =>
      setError (Some ("Failed to add bookmark: " +:+ Postgrest.message insertError))
  | None =>
      setTitle "" >> setUrl "" >>
      effect (SetTimeout (InsertFallback (Postgrest.data r)))
  end >> setSubmitting false.

(** [handleDelete], up to its [await]. *)
Definition handleDelete (id : string) : Handler := λ d,
  match user d with
  | None => setError (Some "You must be logged in to delete bookmarks") d
  | Some u =>
      if truthy_opt (deleting d) then skip d
      else (setDeleting (Some id) >> setError None >>
            effect (Await (Delete id (User.id u)))) d
  end.

(** [handleDelete], from the reply on. *)
Definition handleDelete_resume (id : string) (r : Postgrest.response) : Handler :=
  match Postgrest.error r with
  | Some deleteError =>
      setError (Some ("Failed to delete bookmark: " +:+ Postgrest.message deleteError))
  | None => effect (SetTimeout (DeleteFallback id))
  end >> setDeleting None.

(** The body of a timer callback. *)
Definition fire (t : Timer) : Handler :=
  match t with
  | InsertFallback data => setBookmarks (insert_fallback_updater data)
  | DeleteFallback id => setBookmarks (delete_fallback_updater id)
  end.

(** Resuming the handler that awaits query [q].  The closure of the
    suspended handler holds the same [id] the query was built from. *)
Definition resume (q : Query) (r : Postgrest.response) : Handler :=
  match q with
  | Select _ => fetchBookmarks_resume r >> setLoading false
  | Insert _ _ _ => handleSubmit_resume r
  | Delete id _ => handleDelete_resume id r
  end.

(** ** The record store *)

(** Modelled from the spec: the record store is an external service, none
    of its code is in the repository.  Its rows are those of the README's
    [bookmarks] table, whose [id] is a primary key filled in by
    [gen_random_uuid()]: [issued] remembers every identifier handed out,
    so that none is handed out twice. *)
Record Store := mkStore {
  rows : list Bookmark.t;
  issued : list string          (* every identifier handed out so far *)
}.

(** Modelled from the spec: every store operation can fail with a
    store-level error message.  The store refuses a call with a message,
    or accepts it; for an insert [uuid] and [now] are the column defaults
    it fills in. *)
Inductive Outcome :=
  | Refuse (message : string)
  | Accept (uuid : string) (now : Z).

(** The two shapes of [{ data, error }]. *)
Definition ok (data : option (list Bookmark.t)) : Postgrest.response :=
  {| Postgrest.data := data; Postgrest.error := None |}.

Definition failed (message : string) : Postgrest.response :=
  {| Postgrest.data := None;
     Postgrest.error := Some {| Postgrest.message := message |} |}.

(** [eq('user_id', owner)]. *)
Definition owned (owner : string) (l : list Bookmark.t) : list Bookmark.t :=
  filter (λ b, Bookmark.user_id b = owner) l.

(** [order('created_at', { ascending: false })]. *)
Definition newest_first (a b : Bookmark.t) : Prop :=
  (Bookmark.created_at b ≤ Bookmark.created_at a)%Z.

#[export] Instance newest_first_dec a b : Decision (newest_first a b).
Proof. unfold newest_first. apply _. Defined.

(** Modelled from the spec: [select(owner) -> ordered list], with the
    filter and the order the component's query asks for. *)
Definition select_rows (owner : string) (l : list Bookmark.t) : list Bookmark.t :=
  merge_sort newest_first (owned owner l).

(** [eq('id', id).eq('user_id', owner)]. *)
Definition targeted (id owner : string) (b : Bookmark.t) : Prop :=
  Bookmark.id b = id ∧ Bookmark.user_id b = owner.

#[export] Instance targeted_dec id owner b : Decision (targeted id owner b).
Proof. unfold targeted. apply _. Defined.

(** Modelled from the spec: one call served by the store, with the reply
    and the changes it publishes.  A refused call changes nothing.  A
    select returns the owner's rows, newest first.  An insert stores one
    row under a fresh, non-empty identifier and returns it (the query ends
    in [.select()]).  A delete removes the rows its two filters select,
    and only succeeds if the identifier does not belong to another
    identity. *)
Definition serve (q : Query) (o : Outcome) (st : Store)
    : option (Store * Postgrest.response * list Change) :=
  match o with
  | Refuse message => Some (st, failed message, [])
  | Accept uuid now =>
      match q with
      | Select owner => Some (st, ok (Some (select_rows owner (rows st))), [])
      | Insert user_id title url =>
          guard (uuid ≠ "" ∧ uuid ∉ issued st);;
          let r := Bookmark.mk uuid user_id title url now in
          Some ({| rows := rows st ++ [r]; issued := uuid :: issued st |},
                ok (Some [r]), [INSERT r])
      | Delete id owner =>
          guard (Forall (λ b, Bookmark.id b = id → Bookmark.user_id b = owner) (rows st));;
          Some ({| rows := filter (λ b, ¬ targeted id owner b) (rows st);
                   issued := issued st |},
                ok None, DELETE <$> filter (targeted id owner) (rows st))
      end
  end.

(** A table as the primary key keeps it: identifiers are distinct, not
    empty, and were all handed out by the store. *)
Definition wf_store (st : Store) : Prop :=
  NoDup (Bookmark.id <$> rows st) ∧
  Forall (λ b, Bookmark.id b ≠ "" ∧ Bookmark.id b ∈ issued st) (rows st).

(** ** The event loop around the component

    JavaScript runs one callback at a time.  Between two callbacks the
    environment may serve a request, bring a reply back, deliver or lose a
    notification, or let a timer expire, in any order.  A handler sees the
    state of the latest render; what it reads after an [await] are only the
    values its closure captured, which the pending items below carry. *)

Record World := mkWorld {
  ui : Dashboard;
  mounted : bool;
  auth_pending : bool;          (* checkAuth still awaits getSession() *)
  channel : option User.t;      (* the subscription and the user it closed over *)
  timers : list Timer;          (* setTimeout callbacks not yet run *)
  requests : list Query;        (* calls the store has not served yet *)
  responses : list (Query * Postgrest.response);  (* replies on their way back *)
  feed : list Change;           (* change notifications on their way *)
  store : Store
}.

(** The component has just been mounted: [checkAuth] is awaiting
    [getSession()]. *)
Definition boot (st : Store) : World :=
  {| ui := initial; mounted := true; auth_pending := true; channel := None;
     timers := []; requests := []; responses := []; feed := []; store := st |}.

(** The calls and the timers among the effects of a handler. *)
Definition awaited (fx : list Effect) : list Query :=
  omap (λ e, match e with Await q => Some q | _ => None end) fx.

Definition scheduled (fx : list Effect) : list Timer :=
  omap (λ e, match e with SetTimeout t => Some t | _ => None end) fx.

(** Run a handler on the component.  While the component is mounted the
    setters the handler calls take effect, and the channel follows [user]:
    the subscription effect depends on it.  Once the component is
    unmounted the cleanup has run, and React drops every state update: a
    callback that outlives the component still sends its calls and sets its
    timers, but the state cells stay as the last render left them. *)
Definition dispatch (h : Handler) (w : World) : World :=
  let '(d, fx) := h (ui w) in
  {| ui := if mounted w then d else ui w;
     mounted := mounted w; auth_pending := auth_pending w;
     channel := if mounted w then user d else None;
     timers := timers w ++ scheduled fx;
     requests := requests w ++ awaited fx;
     responses := responses w; feed := feed w; store := store w |}.

(** Modelled from the spec: the change-notification feed is external.  It
    delivers to a subscribed channel the changes its filter
    [user_id=eq.${user.id}] selects, and to nobody else. *)
Definition concerns (owner : string) (c : Change) : Prop :=
  match c with
  | INSERT new => Bookmark.user_id new = owner
  | DELETE old => Bookmark.user_id old = owner
  end.

#[export] Instance concerns_dec owner c : Decision (concerns owner c).
Proof. destruct c; simpl; apply _. Defined.

Definition published (ch : option User.t) (cs : list Change) : list Change :=
  match ch with
  | Some u => filter (concerns (User.id u)) cs
  | None => []
  end.

(** What can happen next. *)
Inductive Event :=
  | GetSession (session : option Session.t)  (* getSession() resolves *)
  | TypeTitle (v : string)
  | TypeUrl (v : string)
  | Submit
  | Click (id : string)          (* the Delete button of the entry [id] *)
  | Dismiss
  | Serve (i : nat) (o : Outcome)  (* the store serves the i-th request *)
  | Reply (i : nat)              (* the i-th reply arrives, its handler resumes *)
  | Notify (i : nat)             (* the i-th notification is delivered *)
  | Lose (i : nat)               (* the i-th notification is lost *)
  | Tick (i : nat)               (* the i-th timer fires *)
  | Unmount.

(** What is on screen can be used once the component is past "Loading...". *)
Definition interactive (w : World) : Prop :=
  mounted w = true ∧ loading (ui w) = false.

(** The Delete button of an entry exists when the list is rendered, and
    is disabled while [deleting] is that entry's identifier. *)
Definition clickable (id : string) (w : World) : Prop :=
  interactive w ∧ fetchingBookmarks (ui w) = false ∧
  id ∈ Bookmark.id <$> bookmarks (ui w) ∧ deleting (ui w) ≠ Some id.

#[export] Instance interactive_dec w : Decision (interactive w).
Proof. unfold interactive. apply _. Defined.

#[export] Instance clickable_dec id w : Decision (clickable id w).
Proof. unfold clickable. apply _. Defined.

(** The bookkeeping of the loop: an awaited call resolves, a request is
    served, a reply, a notification or a timer leaves its queue, the
    component goes away. *)
Definition resolved (w : World) : World :=
  mkWorld (ui w) (mounted w) false (channel w) (timers w)
    (requests w) (responses w) (feed w) (store w).

Definition served (i : nat) (q : Query) (r : Postgrest.response)
    (cs : list Change) (st : Store) (w : World) : World :=
  mkWorld (ui w) (mounted w) (auth_pending w) (channel w) (timers w)
    (delete i (requests w)) (responses w ++ [(q, r)])
    (feed w ++ published (channel w) cs) st.

Definition taken_reply (i : nat) (w : World) : World :=
  mkWorld (ui w) (mounted w) (auth_pending w) (channel w) (timers w)
    (requests w) (delete i (responses w)) (feed w) (store w).

Definition taken_change (i : nat) (w : World) : World :=
  mkWorld (ui w) (mounted w) (auth_pending w) (channel w) (timers w)
    (requests w) (responses w) (delete i (feed w)) (store w).

Definition taken_timer (i : nat) (w : World) : World :=
  mkWorld (ui w) (mounted w) (auth_pending w) (channel w)
    (delete i (timers w)) (requests w) (responses w) (feed w) (store w).

(** The cleanup of the subscription effect: [channel.unsubscribe()].
    Nothing else is cleaned up. *)
Definition unmounted (w : World) : World :=
  mkWorld (ui w) false (auth_pending w) None (timers w)
    (requests w) (responses w) (feed w) (store w).

(** One turn of the loop; [None] when the event cannot happen.  The
    browser's own form validation ([required], [type="url"]) and the
    disabled submit button are not relied on: [Submit] may call
    [handleSubmit] whenever the form is on screen. *)
Definition step (w : World) (e : Event) : option World :=
  match e with
  | GetSession session =>
      guard (auth_pending w = true);;
      Some (dispatch (checkAuth session) (resolved w))
  | TypeTitle v => guard (interactive w);; Some (dispatch (setTitle v) w)
  | TypeUrl v => guard (interactive w);; Some (dispatch (setUrl v) w)
  | Submit => guard (interactive w);; Some (dispatch handleSubmit w)
  | Click id => guard (clickable id w);; Some (dispatch (handleDelete id) w)
  | Dismiss => guard (interactive w);; Some (dispatch (setError None) w)
  | Serve i o =>
      q ← requests w !! i;
      '(st, r, cs) ← serve q o (store w);
      Some (served i q r cs st w)
  | Reply i =>
      '(q, r) ← responses w !! i;
      Some (dispatch (resume q r) (taken_reply i w))
  | Notify i =>
      c ← feed w !! i;
      match channel w with
      | Some u => Some (dispatch (on_change u c) (taken_change i w))
      | None => Some (taken_change i w)
      end
  | Lose i => c ← feed w !! i; Some (taken_change i w)
  | Tick i => t ← timers w !! i; Some (dispatch (fire t) (taken_timer i w))
  | Unmount => guard (mounted w = true);; Some (unmounted w)
  end.

Fixpoint run (es : list Event) (w : World) : option World :=
  match es with
  | [] => Some w
  | e :: es => w' ← step w e; run es w'
  end.

(** The states the component can be in, over any well-formed table. *)
Definition reachable (w : World) : Prop :=
  ∃ st es, wf_store st ∧ run es (boot st) = Some w.

(** Nothing is pending any more. *)
Definition quiescent (w : World) : Prop :=
  auth_pending w = false ∧ requests w = [] ∧ responses w = [] ∧
  timers w = [] ∧ feed w = [].

(** The identifiers on the list, and those of the owner's rows. *)
Definition displayed (w : World) : gset string :=
  list_to_set (Bookmark.id <$> bookmarks (ui w)).

Definition stored (owner : string) (w : World) : gset string :=
  list_to_set (Bookmark.id <$> owned owner (rows (store w))).

(** ** What the dashboard renders

    The part of the JSX that depends on the state cells: the loading
    screen, the error banner, the two cards that show the user, the form
    and the list.  Class names and fixed texts are left out, and so are the
    provider card ([app_metadata] is not part of [User.t]) and the
    formatting of the date, which is the browser's. *)

(** One entry of [bookmarks.map(...)]. *)
Record EntryView := mkEntryView {
  key : string;                  (* key={bookmark.id} *)
  heading : string;              (* {bookmark.title} *)
  href : string;                 (* href={bookmark.url} *)
  dated : Z;                     (* new Date(bookmark.created_at) *)
  delete_disabled : bool;        (* disabled={deleting === bookmark.id} *)
  delete_label : string
}.

Inductive ListView :=
  | LoadingBookmarks             (* "Loading bookmarks..." *)
  | NoBookmarks                  (* "No bookmarks yet. Add your first one." *)
  | Entries (entries : list EntryView).

Record Content := mkContent {
  banner : option string;        (* {error && (...)} *)
  welcome : option string;       (* {user?.email} *)
  user_id_card : option string;  (* {user?.id} *)
  title_value : string;
  url_value : string;
  submit_disabled : bool;        (* disabled={submitting} *)
  submit_label : string;
  list_view : ListView
}.

Inductive Screen :=
  | LoadingScreen                (* if (loading) return ... "Loading..." *)
  | Page (c : Content).

Definition render_entry (deleting : option string) (bookmark : Bookmark.t) : EntryView :=
  let busy := bool_decide (deleting = Some (Bookmark.id bookmark)) in
  {| key := Bookmark.id bookmark;
     heading := Bookmark.title bookmark;
     href := Bookmark.url bookmark;
     dated := Bookmark.created_at bookmark;
     delete_disabled := busy;
     delete_label := if busy then "Deleting..." else "Delete" |}.

Definition render (d : Dashboard) : Screen :=
  if loading d then LoadingScreen
  else Page
    {| banner := match error d with
                 | Some message => if truthy message then Some message else None
                 | None => None
                 end;
       welcome := User.email <$> user d;
       user_id_card := User.id <$> user d;
       title_value := title d;
       url_value := url d;
       submit_disabled := submitting d;
       submit_label := if submitting d then "Adding..." else "Add Bookmark";
       list_view :=
         if fetchingBookmarks d then LoadingBookmarks
         else match bookmarks d with
              | [] => NoBookmarks
              | _ => Entries (render_entry (deleting d) <$> bookmarks d)
              end |}.

(** What the rendered page lets the user do: a disabled submit button
    does not fire. *)
Definition offered (w : World) (e : Event) : Prop :=
  match e with
  | Submit =>
      match render (ui w) with
      | Page c => submit_disabled c = false
      | LoadingScreen => False
      end
  | _ => True
  end.

#[export] Instance offered_dec w e : Decision (offered w e).
Proof. destruct e; simpl; try apply _; destruct (render (ui w)); apply _. Defined.

(** A run all of whose events satisfy [ok]. *)
Fixpoint respects (ok : World → Event → Prop) (es : list Event) (w : World) : Prop :=
  match es with
  | [] => True
  | e :: es =>
      ok w e ∧
      match step w e with
      | Some w' => respects ok es w'
      | None => True
      end
  end.

#[export] Instance respects_dec (ok : World → Event → Prop)
    `{!∀ w e, Decision (ok w e)} es w : Decision (respects ok es w).
Proof.
  revert w. induction es as [|e es IH]; intros w; simpl; [apply _|].
  destruct (step w e); apply _.
Defined.

(** ** The rest of the dashboard: the auth listener and logout *)

(** The callback of the third effect (page.tsx 117-121). *)
Definition onAuthStateChange (event : string) (session : option Session.t) : Handler :=
  if bool_decide (event = "SIGNED_OUT") || bool_decide (session = None)
  then effect (RouterPush "/")
  else skip.

(** What [handleLogout] does, in order: it has no state of its own. *)
Inductive Leaving :=
  | SignOut                      (* await supabase.auth.signOut() *)
  | Location (href : string).    (* window.location.href = ... *)

Definition handleLogout : list Leaving := [SignOut; Location "/"].

(** ** The two [Home] pages

    How an awaited call of the auth client ends: both pages wrap their
    calls in [try { ... } finally { setLoading(false) }]. *)
Inductive Settled (A : Type) :=
  | Resolved (a : A)
  | Rejected.

Arguments Resolved {A} a.
Arguments Rejected {A}.

(** [Home] of [src/app/page.tsx]: it shows who is signed in. *)
Module HomePage.
Record State := mk {
  user : option User.t;
  session : option Session.t;
  loading : bool
}.

Definition initial : State := mk None None true.

Definition setSession (v : option Session.t) (s : State) : State :=
  mk (user s) v (loading s).

Definition setUser (v : option User.t) (s : State) : State :=
  mk v (session s) (loading s).

Definition setLoading (v : bool) (s : State) : State :=
  mk (user s) (session s) v.

(** What reaches the component, one callback at a time: [getSession]
    settles, [getUser] settles, the auth listener is called. *)
Inductive Event :=
  | GotSession (r : Settled (option Session.t))
  | GotUser (r : Settled (option User.t))
  | AuthStateChange (event : string) (session : option Session.t).

(** [checkSession] is suspended on [getSession], on [getUser], or over. *)
Inductive Stage := AwaitSession | AwaitUser | Over.

Definition step (st : Stage * State) (e : Event) : option (Stage * State) :=
  let '(stage, s) := st in
  match e, stage with
  | GotSession (Resolved session), AwaitSession =>
      Some (AwaitUser, setSession session s)
  | GotSession Rejected, AwaitSession =>
      Some (Over, setLoading false s)                    (* finally *)
  | GotUser (Resolved user), AwaitUser =>
      Some (Over, setLoading false (setUser user s))     (* then finally *)
  | GotUser Rejected, AwaitUser =>
      Some (Over, setLoading false s)                    (* finally *)
  | AuthStateChange _ session, _ =>
      (* setSession(session); setUser(session?.user ?? null) *)
      Some (stage, setUser (Session.user <$> session) (setSession session s))
  | _, _ => None
  end.

Fixpoint run (es : list Event) (st : Stage * State) : option (Stage * State) :=
  match es with
  | [] => Some st
  | e :: es => st' ← step st e; run es st'
  end.

Inductive Panel := Loading | Authenticated (u : User.t) | NotAuthenticated.

Definition render (s : State) : Panel :=
  if loading s then Loading
  else match user s with
       | Some u => Authenticated u
       | None => NotAuthenticated
       end.

(** [handleSignOut] only calls [signOut]; the listener does the rest. *)
Definition handleSignOut : list Leaving := [SignOut].
End HomePage.

(** [Home] of [src/unnamed/part_002]: it sends whoever is signed in to the
    dashboard. *)
Module HomeGate.
Record State := mk { loading : bool }.

Definition initial : State := mk true.

(** [checkSession] from the reply of [getSession] on, with the paths it
    pushes: [return] inside [try] still runs [finally]. *)
Definition checkSession (r : Settled (option Session.t)) (s : State)
    : State * list string :=
  match r with
  | Resolved (Some session) => (mk false, ["/dashboard"])   (* session?.user *)
  | Resolved None => (mk false, [])
  | Rejected => (mk false, [])
  end.

Definition onAuthStateChange (event : string) (session : option Session.t)
    : list string :=
  match session with
  | Some _ => ["/dashboard"]
  | None => []
  end.
End HomeGate.

(** The paths a dashboard handler pushes. *)
Definition pushed (fx : list Effect) : list string :=
  omap (λ e, match e with RouterPush path => Some path | _ => None end) fx.

(** * Predicates of the specification *)

(** ** What a handler leaves alone *)

(** Handlers that never call [setBookmarks] and never set a timer. *)
Definition quiet (h : Handler) : Prop :=
  ∀ d, bookmarks (h d).1 = bookmarks d ∧ scheduled (h d).2 = [].

(** Handlers that leave the signed-in user and the loading flag alone. *)
Definition keeps_session (h : Handler) : Prop :=
  ∀ d, user (h d).1 = user d ∧ loading (h d).1 = loading d.

(** ** Rows, replies, timers and notifications as the store makes them *)

(** A list of rows as the store hands them out: distinct, non-empty
    identifiers. *)
Definition clean (l : list Bookmark.t) : Prop :=
  NoDup (Bookmark.id <$> l) ∧ Forall (λ b, Bookmark.id b ≠ "") l.

(** The same for the [data] of a reply, for what a timer captured and for
    the payload of a notification. *)
Definition clean_data (data : option (list Bookmark.t)) : Prop :=
  from_option clean True data.

Definition clean_timer (t : Timer) : Prop :=
  match t with
  | InsertFallback data => clean_data data
  | DeleteFallback _ => True
  end.

Definition clean_change (c : Change) : Prop :=
  match c with
  | INSERT new => Bookmark.id new ≠ ""
  | DELETE _ => True
  end.

(** Everything on its way carries rows as the store makes them. *)
Record sane (w : World) : Prop := {
  sane_store : wf_store (store w);
  sane_bookmarks : clean (bookmarks (ui w));
  sane_responses : Forall (λ qr, clean_data (Postgrest.data qr.2)) (responses w);
  sane_timers : Forall clean_timer (timers w);
  sane_feed : Forall clean_change (feed w)
}.

(** ** Deletes in flight and the [deleting] marker *)

(** The calls whose handlers are suspended: sent and not yet served, or
    served and the reply not yet handled. *)
Definition in_flight (w : World) : list Query :=
  requests w ++ (responses w).*1.

(** The suspended [handleDelete]s among them. *)
Definition is_delete (q : Query) : Prop :=
  match q with
  | Delete _ _ => True
  | _ => False
  end.

#[export] Instance is_delete_dec q : Decision (is_delete q).
Proof. destruct q; simpl; apply _. Defined.

Definition deletes_in_flight (w : World) : list Query :=
  filter is_delete (in_flight w).

(** The marker and the deletes in flight go together while the component
    is mounted: while the marker is set, exactly one delete is in flight,
    for the marked identifier and the signed-in user. *)
Definition marker_tracks (w : World) : Prop :=
  match deleting (ui w) with
  | Some id =>
      id ≠ "" ∧
      ∃ u, user (ui w) = Some u ∧ deletes_in_flight w ≡ₚ [Delete id (User.id u)]
  | None => deletes_in_flight w = []
  end.

(** What is left of it once the component is unmounted and the marker is
    no longer cleared: a delete in flight is still the one the marker
    names. *)
Definition marker_bounds (w : World) : Prop :=
  deletes_in_flight w = [] ∨
  ∃ id u, id ≠ "" ∧ deleting (ui w) = Some id ∧ user (ui w) = Some u ∧
          deletes_in_flight w ≡ₚ [Delete id (User.id u)].

(** Handlers that leave the marker and the signed-in user alone and send
    no delete. *)
Definition delete_neutral (h : Handler) : Prop :=
  ∀ d, deleting (h d).1 = deleting d ∧ user (h d).1 = user d ∧
       filter is_delete (awaited (h d).2) = [].

(** ** The subscription *)

(** The channel is the one of the signed-in user while the component is
    mounted, and none afterwards. *)
Definition channel_follows (w : World) : Prop :=
  channel w = if mounted w then user (ui w) else None.

(** ** The discipline under which list and store agree *)

(** What a reply or a notification would put on the list. *)
Definition mentions (id : string) (data : option (list Bookmark.t)) : Prop :=
  id ∈ Bookmark.id <$> default [] data.

Definition change_adds (id : string) (c : Change) : Prop :=
  match c with
  | INSERT new => Bookmark.id new = id
  | DELETE _ => False
  end.

#[export] Instance mentions_dec id data : Decision (mentions id data).
Proof. unfold mentions. apply _. Defined.

#[export] Instance change_adds_dec id c : Decision (change_adds id c).
Proof. destruct c; simpl; apply _. Defined.

(** The reply or a notification of the insert of [id] is still on its
    way. *)
Definition arriving (id : string) (w : World) : Prop :=
  Exists (λ qr, mentions id (Postgrest.data qr.2)) (responses w) ∨
  Exists (change_adds id) (feed w).

#[export] Instance arriving_dec id w : Decision (arriving id w).
Proof. unfold arriving. apply _. Defined.

(** The discipline under which the list and the store agree in the end:
    the store does not refuse the initial load, Delete is not clicked on a
    record while the reply or a notification of its insert is still on its
    way, and the fallback timers fire in the order in which they were set,
    as timers of one delay do (both [setTimeout]s ask for 500 ms). *)
Definition polite (w : World) (e : Event) : Prop :=
  match e with
  | Serve i (Refuse _) =>
      match requests w !! i with
      | Some (Select _) => False
      | _ => True
      end
  | Click id => ¬ arriving id w
  | Tick i => i = 0%nat
  | _ => True
  end.

#[export] Instance polite_dec w e : Decision (polite w e).
Proof.
  destruct e as [| | | | | |i [|]| | | | |]; simpl; try apply _.
  destruct (requests w !! i) as [[| |]|]; apply _.
Defined.

(** A run all of whose events are polite. *)
Fixpoint politely (es : list Event) (w : World) : Prop :=
  match es with
  | [] => True
  | e :: es =>
      polite w e ∧
      match step w e with
      | Some w' => politely es w'
      | None => True
      end
  end.

#[export] Instance politely_dec es w : Decision (politely es w).
Proof.
  revert w. induction es as [|e es IH]; intros w; simpl; [apply _|].
  destruct (step w e); apply _.
Defined.

(** ** The invariant behind the agreement *)

Section Agreement.

Variable uid : string.   (* the id of the signed-in user *)

(** The identifiers of the user's rows. *)
Definition stored_ids (st : Store) : list string :=
Bookmark.id <$> owned uid (rows st).

(** [b] is a row of the signed-in user. *)
Definition backed (st : Store) (b : Bookmark.t) : Prop :=
b ∈ rows st ∧ Bookmark.user_id b = uid.

(** [id] was handed out, and the user has no row under it any more. *)
Definition gone (st : Store) (id : string) : Prop :=
(id ∉ stored_ids st) ∧ id ∈ issued st.

(** What is pending tells the truth about the store: requests are the
    user's, and a delete was requested politely; an accepted insert speaks
    of a row that is there, an accepted delete of a row that is gone. *)
Definition request_ok (w : World) (q : Query) : Prop :=
match q with
| Select _ => False
| Insert owner _ _ => owner = uid
| Delete id owner => owner = uid ∧ id ∈ issued (store w) ∧ ¬ arriving id w
end.

Definition reply_ok (st : Store) (qr : Query * Postgrest.response) : Prop :=
match qr.1 with
| Select _ => False
| Insert _ _ _ =>
    (∃ message, qr.2 = failed message) ∨
    (∃ b, qr.2 = ok (Some [b]) ∧ backed st b)
| Delete id _ =>
    (∃ message, qr.2 = failed message) ∨
    (qr.2 = ok None ∧ gone st id)
end.

Definition change_ok (st : Store) (c : Change) : Prop :=
match c with
| INSERT new => backed st new
| DELETE old => gone st (Bookmark.id old)
end.

(** A reply, or a timer among [later], that is certain to take [id] off
    the list. *)
Definition covered (rs : list (Query * Postgrest.response)) (later : list Timer)
  (id : string) : Prop :=
(∃ owner, (Delete id owner, ok None) ∈ rs) ∨ DeleteFallback id ∈ later.

(** The timers, in the order in which they were set.  An insert fallback
    carries a row that is there, or a row that has been deleted since; then
    the reply of the delete, or its fallback, which was set later, is still
    to come.  A delete fallback speaks of a row that is gone. *)
Fixpoint timers_ok (st : Store) (rs : list (Query * Postgrest.response))
  (ts : list Timer) : Prop :=
match ts with
| [] => True
| t :: later =>
    match t with
    | InsertFallback data =>
        ∃ b, data = Some [b] ∧
             (backed st b ∨
              (gone st (Bookmark.id b) ∧ covered rs later (Bookmark.id b)))
    | DeleteFallback id => gone st id
    end ∧ timers_ok st rs later
end.

(** A reply or a timer that is certain to take [id] off the list. *)
Definition will_remove (w : World) (id : string) : Prop :=
covered (responses w) (timers w) id.

(** A reply or a timer that is certain to put [b] on the list. *)
Definition will_add (w : World) (b : Bookmark.t) : Prop :=
(∃ q, (q, ok (Some [b])) ∈ responses w) ∨
InsertFallback (Some [b]) ∈ timers w.

(** After the initial load: everything pending tells the truth about the
  store, and the list differs from the user's rows only by what a pending
  reply or timer is certain to repair. *)
Record agreeing (w : World) : Prop := {
agr_requests : Forall (request_ok w) (requests w);
agr_responses : Forall (reply_ok (store w)) (responses w);
agr_timers : timers_ok (store w) (responses w) (timers w);
agr_feed : Forall (change_ok (store w)) (feed w);
agr_shown : ∀ x, x ∈ Bookmark.id <$> bookmarks (ui w) →
                 x ∈ stored_ids (store w) ∨ will_remove w x;
agr_stored : ∀ b, backed (store w) b →
                  Bookmark.id b ∈ Bookmark.id <$> bookmarks (ui w) ∨ will_add w b
}.

(** During the initial load: one select is on its way, or its reply is. *)
Definition fetching (w : World) : Prop :=
timers w = [] ∧ feed w = [] ∧ bookmarks (ui w) = [] ∧
((requests w = [Select uid] ∧ responses w = []) ∨
 (requests w = [] ∧
  responses w = [(Select uid, ok (Some (select_rows uid (rows (store w)))))])).

End Agreement.

(** Before anyone is signed in nothing is pending and nothing is shown. *)
Definition idle (w : World) : Prop :=
  loading (ui w) = true ∧ bookmarks (ui w) = [] ∧
  requests w = [] ∧ responses w = [] ∧ timers w = [] ∧ feed w = [].

(** Someone is signed in as soon as [getSession] has resolved with a
    session, and for good; until then a mounted component is idle. *)
Definition attended (w : World) : Prop :=
  match user (ui w) with
  | None => mounted w = true → idle w
  | Some _ => auth_pending w = false
  end.

(** What every run preserves. *)
Definition steady (w : World) : Prop :=
  sane w ∧ attended w ∧ channel_follows w.

(** The three phases of the component: nobody signed in, the initial
    load, and the time after it. *)
Definition synced (w : World) : Prop :=
  match user (ui w) with
  | None => idle w
  | Some u =>
      auth_pending w = false ∧
      (User.id u ≠ "" →
       if loading (ui w) then fetching (User.id u) w
       else agreeing (User.id u) w)
  end.

(** All that polite runs preserve, for as long as the component is
    mounted. *)
Definition in_step (w : World) : Prop :=
  steady w ∧ (mounted w = true → synced w).

(** ** Further invariants of the event loop *)

Definition is_select (q : Query) : Prop :=
  match q with
  | Select _ => True
  | _ => False
  end.

#[export] Instance is_select_dec q : Decision (is_select q).
Proof. destruct q; simpl; apply _. Defined.

Definition is_insert (q : Query) : Prop :=
  match q with
  | Insert _ _ _ => True
  | _ => False
  end.

#[export] Instance is_insert_dec q : Decision (is_insert q).
Proof. destruct q; simpl; apply _. Defined.

(** The suspended [fetchBookmarks] and [handleSubmit]s. *)
Definition selects_in_flight (w : World) : list Query :=
  filter is_select (in_flight w).

Definition inserts_in_flight (w : World) : list Query :=
  filter is_insert (in_flight w).

(** [fetchingBookmarks] is set exactly while the initial select is in
    flight, which is over before [loading] is cleared. *)
Definition fetch_tracks (w : World) : Prop :=
  if fetchingBookmarks (ui w)
  then loading (ui w) = true ∧ ∃ owner, selects_in_flight w ≡ₚ [Select owner]
  else selects_in_flight w = [].

(** [submitting] is set exactly while one insert is in flight. *)
Definition submit_tracks (w : World) : Prop :=
  if submitting (ui w)
  then ∃ q, inserts_in_flight w ≡ₚ [q]
  else inserts_in_flight w = [].

(** The identity a query is scoped to. *)
Definition owner_of (q : Query) : string :=
  match q with
  | Select owner => owner
  | Insert owner _ _ => owner
  | Delete _ owner => owner
  end.

Definition all_owned (owner : string) (l : list Bookmark.t) : Prop :=
  Forall (λ b, Bookmark.user_id b = owner) l.

(** What a reply or a timer carries belongs to [owner]. *)
Definition reply_owned (owner : string) (qr : Query * Postgrest.response) : Prop :=
  owner_of qr.1 = owner ∧ all_owned owner (default [] (Postgrest.data qr.2)).

Definition timer_owned (owner : string) (t : Timer) : Prop :=
  match t with
  | InsertFallback data => all_owned owner (default [] data)
  | DeleteFallback _ => True
  end.

(** Everything the component shows, has asked for or has been answered
    belongs to [owner]. *)
Record owning (owner : string) (w : World) : Prop := {
  own_bookmarks : all_owned owner (bookmarks (ui w));
  own_requests : Forall (λ q, owner_of q = owner) (requests w);
  own_responses : Forall (reply_owned owner) (responses w);
  own_timers : Forall (timer_owned owner) (timers w)
}.

Definition own_only (w : World) : Prop :=
  match user (ui w) with
  | None => True
  | Some u => owning (User.id u) w
  end.

(** The messages the handlers make of a store error. *)
Definition failure_prefixes : list string :=
  ["Failed to load bookmarks: "; "Failed to add bookmark: ";
   "Failed to delete bookmark: "].

Definition store_failure (message : string) : Prop :=
  ∃ prefix detail, prefix ∈ failure_prefixes ∧ message = prefix +:+ detail.

(** [error], when set, holds the message of a store error. *)
Definition error_shows (d : Dashboard) : Prop :=
  match error d with
  | Some message => store_failure message
  | None => True
  end.

(** The initial select is sent at most once: while [getSession] is
    awaited it has not been sent yet. *)
Definition select_once (w : World) : Prop :=
  (length (selects_in_flight w) + (if auth_pending w then 1 else 0) ≤ 1)%nat.

(** Handlers that leave the two loading flags alone and send no select. *)
Definition fetch_neutral (h : Handler) : Prop :=
  ∀ d, fetchingBookmarks (h d).1 = fetchingBookmarks d ∧
       loading (h d).1 = loading d ∧
       filter is_select (awaited (h d).2) = [].

(** Handlers that leave [submitting] alone and send no insert. *)
Definition submit_neutral (h : Handler) : Prop :=
  ∀ d, submitting (h d).1 = submitting d ∧
       filter is_insert (awaited (h d).2) = [].

(** While [submitting] is set, some insert is in flight, whether or not
    the submit button is respected. *)
Definition submit_pending (w : World) : Prop :=
  submitting (ui w) = true → ∃ q, is_insert q ∧ q ∈ in_flight w.

(** Once a user is signed in, the two loading flags go together. *)
Definition loading_follows (w : World) : Prop :=
  is_Some (user (ui w)) → loading (ui w) = fetchingBookmarks (ui w).

(** The work the component still has in front of it: the calls it awaits,
    the timers it has set and the notifications on their way to it. *)
Definition pending_work (w : World) : nat :=
  ((if auth_pending w then 1 else 0) + length (requests w) +
   length (responses w) + length (timers w) + length (feed w))%nat.

(** * Runs and states used as examples *)

(** Two rows of the user the examples sign in, and a row of someone else. *)
Definition row_1 : Bookmark.t := Bookmark.mk "1" "user-1" "A" "https://a.example" 1.

Definition row_2 : Bookmark.t := Bookmark.mk "2" "user-1" "B" "https://b.example" 2.

Definition example_user : User.t := User.mk "user-1" "one@example.com".

Definition foreign_row : Bookmark.t :=
  Bookmark.mk "bm-7" "user-2" "Other" "https://other.example" 7.

(** A signed-in component with an empty form. *)
Definition example_dashboard : Dashboard :=
  {| user := Some example_user; loading := false; title := ""; url := "";
     submitting := false; bookmarks := [foreign_row]; deleting := None;
     fetchingBookmarks := false; error := None |}.

(** The store of the specification's example: one row of the user. *)
Definition example_store : Store :=
  {| rows := [row_1]; issued := ["1"] |}.

Definition shared_store : Store :=
  {| rows := [foreign_row]; issued := ["bm-7"] |}.

(** A create whose notification arrives before its reply and its
    fallback timer, and the state it ends in. *)
Definition insert_trace : list Event :=
  [GetSession (Some (Session.mk example_user)); Serve 0 (Accept "" 0); Reply 0;
   TypeTitle "B"; TypeUrl "https://b.example"; Submit;
   Serve 0 (Accept "2" 2); Notify 0; Reply 0; Tick 0].

Definition after_insert : World :=
  {| ui := {| user := Some example_user; loading := false; title := ""; url := "";
              submitting := false; bookmarks := [row_2; row_1]; deleting := None;
              fetchingBookmarks := false; error := None |};
     mounted := true; auth_pending := false; channel := Some example_user;
     timers := []; requests := []; responses := []; feed := [];
     store := {| rows := [row_1; row_2]; issued := ["2"; "1"] |} |}.

(** A delete on its way to the store, and the state at that moment. *)
Definition deleting_trace : list Event :=
  [GetSession (Some (Session.mk example_user)); Serve 0 (Accept "" 0); Reply 0;
   Click "1"].

Definition while_deleting : World :=
  {| ui := {| user := Some example_user; loading := false; title := ""; url := "";
              submitting := false; bookmarks := [row_1]; deleting := Some "1";
              fetchingBookmarks := false; error := None |};
     mounted := true; auth_pending := false; channel := Some example_user;
     timers := []; requests := [Delete "1" "user-1"]; responses := []; feed := [];
     store := example_store |}.

(** A create that succeeds just before the component is unmounted. *)
Definition unmount_trace : list Event :=
  [GetSession (Some (Session.mk example_user)); Serve 0 (Accept "" 0); Reply 0;
   TypeTitle "B"; TypeUrl "https://b.example"; Submit;
   Serve 0 (Accept "2" 2); Reply 0; Unmount].

Definition empty_store : Store := {| rows := []; issued := [] |}.

(** A create, then a delete of the same record whose insert notification
    is still on its way and whose delete notification is lost. *)
Definition late_insert_trace : list Event :=
  [GetSession (Some (Session.mk example_user)); Serve 0 (Accept "" 0); Reply 0;
   TypeTitle "A"; TypeUrl "https://a.example"; Submit;
   Serve 0 (Accept "1" 1);      (* the row is stored, INSERT is on its way *)
   Reply 0; Tick 0;             (* the fallback shows the record *)
   Click "1";
   Serve 0 (Accept "" 0);       (* the row is gone, DELETE is on its way *)
   Lose 1;                      (* the DELETE notification is lost *)
   Reply 0; Tick 0;             (* the fallback removes the record *)
   Notify 0].                   (* the INSERT notification arrives at last *)

(** An initial load that the store refuses. *)
Definition refused_load_trace : list Event :=
  [GetSession (Some (Session.mk example_user)); Serve 0 (Refuse "timeout"); Reply 0].

(** A create, a delete of the same record while the fallback timer of the
    create is still pending, and a delete the store refuses; and the state
    they end in. *)
Definition polite_trace : list Event :=
  [GetSession (Some (Session.mk example_user)); Serve 0 (Accept "" 0); Reply 0;
   TypeTitle "B"; TypeUrl "https://b.example"; Submit;
   Serve 0 (Accept "2" 2); Notify 0; Reply 0;   (* shown; the timer is set *)
   Click "2"; Serve 0 (Accept "" 0); Notify 0;  (* deleted, and taken off *)
   Reply 0;
   Tick 0;                      (* the insert fallback puts the record back *)
   Tick 0;                      (* the delete fallback takes it off again *)
   Click "1"; Serve 0 (Refuse "offline"); Reply 0].

Definition after_polite_trace : World :=
  {| ui := {| user := Some example_user; loading := false; title := ""; url := "";
              submitting := false; bookmarks := [row_1]; deleting := None;
              fetchingBookmarks := false;
              error := Some "Failed to delete bookmark: offline" |};
     mounted := true; auth_pending := false; channel := Some example_user;
     timers := []; requests := []; responses := []; feed := [];
     store := {| rows := [row_1]; issued := ["2"; "1"] |} |}.

(** A visitor without a session, who then leaves the page. *)
Definition anonymous_trace : list Event := [GetSession None; Unmount].

(** A create offered by the page, answered, and a second one. *)
Definition offered_trace : list Event :=
  [GetSession (Some (Session.mk example_user)); Serve 0 (Accept "" 0); Reply 0;
   TypeTitle "B"; TypeUrl "https://b.example"; Submit;
   TypeTitle "C"; TypeUrl "https://c.example";
   Serve 0 (Accept "2" 2); Reply 0;
   TypeTitle "C"; TypeUrl "https://c.example"; Submit].

Definition after_offered_trace : World :=
  {| ui := {| user := Some example_user; loading := false; title := "C";
              url := "https://c.example"; submitting := true;
              bookmarks := [row_1]; deleting := None;
              fetchingBookmarks := false; error := None |};
     mounted := true; auth_pending := false; channel := Some example_user;
     timers := [InsertFallback (Some [row_2])];
     requests := [Insert "user-1" "C" "https://c.example"]; responses := [];
     feed := [INSERT row_2];
     store := {| rows := [row_1; row_2]; issued := ["2"; "1"] |} |}.

(** The state [unmount_trace] ends in: the fallback timer and the INSERT
    notification of the create are still pending. *)
Definition after_unmount : World :=
  {| ui := {| user := Some example_user; loading := false; title := ""; url := "";
              submitting := false; bookmarks := [row_1]; deleting := None;
              fetchingBookmarks := false; error := None |};
     mounted := false; auth_pending := false; channel := None;
     timers := [InsertFallback (Some [row_2])];
     requests := []; responses := []; feed := [INSERT row_2];
     store := {| rows := [row_1; row_2]; issued := ["2"; "1"] |} |}.

(** A delete of the older of two records on its way to the store. *)
Definition deleting_second_trace : list Event := insert_trace ++ [Click "1"].

Definition while_deleting_second : World :=
  {| ui := {| user := Some example_user; loading := false; title := ""; url := "";
              submitting := false; bookmarks := [row_2; row_1];
              deleting := Some "1"; fetchingBookmarks := false; error := None |};
     mounted := true; auth_pending := false; channel := Some example_user;
     timers := []; requests := [Delete "1" "user-1"]; responses := []; feed := [];
     store := {| rows := [row_1; row_2]; issued := ["2"; "1"] |} |}.

(** The initial load on its way to the store. *)
Definition while_loading : World :=
  {| ui := {| user := Some example_user; loading := true; title := ""; url := "";
              submitting := false; bookmarks := []; deleting := None;
              fetchingBookmarks := true; error := None |};
     mounted := true; auth_pending := false; channel := Some example_user;
     timers := []; requests := [Select "user-1"]; responses := []; feed := [];
     store := example_store |}.

(** What happens to the page of [after_insert] later on: typing, a delete
    the store refuses, the message dismissed, and the unmount. *)
Definition later_trace : list Event :=
  [TypeTitle "C"; Click "1"; Serve 0 (Refuse "offline"); Reply 0; Dismiss;
   Unmount].

Definition after_later_trace : World :=
  {| ui := {| user := Some example_user; loading := false; title := "C"; url := "";
              submitting := false; bookmarks := [row_2; row_1]; deleting := None;
              fetchingBookmarks := false; error := None |};
     mounted := false; auth_pending := false; channel := None;
     timers := []; requests := []; responses := []; feed := [];
     store := {| rows := [row_1; row_2]; issued := ["2"; "1"] |} |}.

(** * Properties of the updaters and handlers *)

Section Updaters.

Implicit Types (current : list Bookmark.t) (b new old : Bookmark.t) (id : string).

Lemma some_true {A} (P : A → Prop) `{!∀ x, Decision (P x)} (l : list A) :
  some P l = true ↔ Exists P l.
Proof. unfold some. by rewrite bool_decide_eq_true. Qed.

Lemma some_false {A} (P : A → Prop) `{!∀ x, Decision (P x)} (l : list A) :
  some P l = false ↔ Forall (λ x, ¬ P x) l.
Proof.
  unfold some. rewrite bool_decide_eq_false.
  by rewrite <- Forall_Exists_neg.
Qed.

Lemma some_id_true id current :
  some (λ b, Bookmark.id b = id) current = true ↔ id ∈ Bookmark.id <$> current.
Proof.
  rewrite some_true, Exists_exists, list_elem_of_fmap. naive_solver.
Qed.

Lemma some_id_false id current :
  some (λ b, Bookmark.id b = id) current = false ↔ id ∉ Bookmark.id <$> current.
Proof.
  rewrite <- some_id_true. destruct (some _ current); naive_solver.
Qed.

Lemma delete_updater_absent id current :
  id ∉ Bookmark.id <$> current → delete_updater id current = current.
Proof.
  unfold delete_updater. induction current as [|b l IH]; [done|].
  rewrite fmap_cons, not_elem_of_cons. intros [Hb Hl].
  rewrite filter_cons_True by done. by rewrite IH.
Qed.

Lemma elem_of_delete_updater x id current :
  x ∈ Bookmark.id <$> delete_updater id current ↔
  x ≠ id ∧ x ∈ Bookmark.id <$> current.
Proof.
  unfold delete_updater. rewrite !list_elem_of_fmap.
  setoid_rewrite list_elem_of_filter. naive_solver.
Qed.

Lemma delete_fallback_updater_eq id current :
  delete_fallback_updater id current = delete_updater id current.
Proof.
  unfold delete_fallback_updater.
  destruct (some _ current) eqn:E; [done|].
  apply some_id_false in E. by rewrite delete_updater_absent.
Qed.

Lemma delete_updater_idem id current :
  delete_updater id (delete_updater id current) = delete_updater id current.
Proof.
  apply delete_updater_absent. rewrite elem_of_delete_updater. naive_solver.
Qed.

Lemma elem_of_insert_updater x new current :
  x ∈ Bookmark.id <$> insert_updater new current ↔
  x = Bookmark.id new ∨ x ∈ Bookmark.id <$> current.
Proof.
  unfold insert_updater. destruct (some _ current) eqn:E.
  - apply some_id_true in E. naive_solver.
  - rewrite fmap_cons, elem_of_cons. naive_solver.
Qed.

Lemma insert_fallback_updater_head new rest current :
  insert_fallback_updater (Some (new :: rest)) current = insert_updater new current.
Proof.
  unfold insert_fallback_updater, insert_updater.
  by destruct (some _ current).
Qed.

Lemma NoDup_insert_updater new current :
  NoDup (Bookmark.id <$> current) →
  NoDup (Bookmark.id <$> insert_updater new current).
Proof.
  intros Hnd. unfold insert_updater. destruct (some _ current) eqn:E; [done|].
  apply some_id_false in E. rewrite fmap_cons. by apply NoDup_cons.
Qed.

Lemma NoDup_insert_fallback_updater data current :
  NoDup (Bookmark.id <$> current) →
  NoDup (Bookmark.id <$> insert_fallback_updater data current).
Proof.
  destruct data as [[|new rest]|]; try done.
  rewrite insert_fallback_updater_head. apply NoDup_insert_updater.
Qed.

Lemma NoDup_delete_updater id current :
  NoDup (Bookmark.id <$> current) →
  NoDup (Bookmark.id <$> delete_updater id current).
Proof.
  unfold delete_updater. induction current as [|b l IH]; [done|].
  rewrite fmap_cons, NoDup_cons. intros [Hb Hl].
  destruct (decide (Bookmark.id b ≠ id)).
  - rewrite filter_cons_True by done. rewrite fmap_cons, NoDup_cons.
    split; [|by apply IH].
    intros Hin. apply Hb. fold (delete_updater id l) in Hin.
    apply elem_of_delete_updater in Hin. tauto.
  - rewrite filter_cons_False by done. by apply IH.
Qed.

Lemma NoDup_delete_fallback_updater id current :
  NoDup (Bookmark.id <$> current) →
  NoDup (Bookmark.id <$> delete_fallback_updater id current).
Proof. rewrite delete_fallback_updater_eq. apply NoDup_delete_updater. Qed.

End Updaters.

Example insert_updater_new : insert_updater row_2 [row_1] = [row_2; row_1].
Proof. reflexivity. Qed.

Example insert_updater_known : insert_updater row_1 [row_2; row_1] = [row_2; row_1].
Proof. reflexivity. Qed.

Example insert_fallback_updater_no_data :
  insert_fallback_updater None [row_1] = [row_1] ∧
  insert_fallback_updater (Some []) [row_1] = [row_1].
Proof. split; reflexivity. Qed.

Example delete_updater_known : delete_updater "1" [row_2; row_1] = [row_2].
Proof. reflexivity. Qed.

Example delete_fallback_updater_unknown :
  delete_fallback_updater "3" [row_2; row_1] = [row_2; row_1].
Proof. reflexivity. Qed.

(** ** C3: removal is idempotent *)

(** C3.  For every component state and every identifier, the realtime
    DELETE callback and the delete fallback timer for that identifier, run
    in either order, leave the state that either of them leaves alone; both
    are total functions, and the identifier is absent from the result. *)
Theorem delete_notification_and_fallback_commute (u : User.t) (old : Bookmark.t) (d : Dashboard) :
  let id := Bookmark.id old in
  let notified := (onDelete u old d).1 in
  let fallen_back := (fire (DeleteFallback id) d).1 in
  (fire (DeleteFallback id) notified).1 = notified ∧
  (onDelete u old fallen_back).1 = notified ∧
  fallen_back = notified ∧
  (onDelete u old notified).1 = notified ∧
  (id ∉ Bookmark.id <$> bookmarks notified) ∧
  bookmarks notified ⊆ bookmarks d.
Proof.
  simpl. unfold onDelete, setBookmarks. simpl.
  rewrite !delete_fallback_updater_eq, !delete_updater_idem.
  repeat split; try done.
  - rewrite elem_of_delete_updater. naive_solver.
  - intros b. unfold delete_updater. rewrite list_elem_of_filter. tauto.
Qed.

(** ** C10: owner check on insert notifications only *)

(** C10.  The realtime INSERT callback leaves the state alone when the
    payload's [user_id] differs from the current user's; the realtime
    DELETE callback filters by [payload.old.id] whatever the payload's
    owner is. *)
Theorem insert_checks_owner_delete_does_not (u : User.t) (d : Dashboard) :
  (∀ new, Bookmark.user_id new ≠ User.id u → onInsert u new d = (d, [])) ∧
  (∀ old, bookmarks (onDelete u old d).1 =
          filter (λ b, Bookmark.id b ≠ Bookmark.id old) (bookmarks d)) ∧
  (∀ old old', Bookmark.id old = Bookmark.id old' →
               onDelete u old d = onDelete u old' d) ∧
  (∀ old, Bookmark.user_id old ≠ User.id u →
          Bookmark.id old ∉ Bookmark.id <$> bookmarks (onDelete u old d).1).
Proof.
  repeat split.
  - intros new Hne. unfold onInsert. by rewrite bool_decide_eq_false_2.
  - intros old old' Heq. unfold onDelete. by rewrite Heq.
  - intros old _. unfold onDelete. simpl.
    rewrite elem_of_delete_updater. naive_solver.
Qed.

Lemma insert_checks_owner_delete_does_not_witness :
  onInsert example_user foreign_row initial = (initial, []) ∧
  bookmarks (onDelete example_user foreign_row example_dashboard).1 = [].
Proof.
  pose proof (insert_checks_owner_delete_does_not example_user initial) as (H1 & _).
  pose proof (insert_checks_owner_delete_does_not example_user example_dashboard)
    as (_ & H2 & _).
  split.
  - apply H1. done.
  - rewrite H2. reflexivity.
Defined.

(** ** C5: a failed create or delete leaves the list alone *)

Lemma handleSubmit_resume_error (message : string) data (d : Dashboard) :
  let r := Postgrest.mk data (Some (Postgrest.mkError message)) in
  (handleSubmit_resume r d).2 = [] ∧
  bookmarks (handleSubmit_resume r d).1 = bookmarks d ∧
  error (handleSubmit_resume r d).1 = Some ("Failed to add bookmark: " +:+ message).
Proof. done. Qed.

Lemma handleDelete_resume_error id (message : string) data (d : Dashboard) :
  let r := Postgrest.mk data (Some (Postgrest.mkError message)) in
  (handleDelete_resume id r d).2 = [] ∧
  bookmarks (handleDelete_resume id r d).1 = bookmarks d ∧
  error (handleDelete_resume id r d).1 = Some ("Failed to delete bookmark: " +:+ message).
Proof. done. Qed.

Lemma handleSubmit_bookmarks (d : Dashboard) :
  bookmarks (handleSubmit d).1 = bookmarks d ∧ scheduled (handleSubmit d).2 = [].
Proof.
  unfold handleSubmit. destruct (user d); [|done].
  by destruct (negb (truthy (title d)) || negb (truthy (url d))).
Qed.

Lemma handleDelete_bookmarks id (d : Dashboard) :
  bookmarks (handleDelete id d).1 = bookmarks d ∧ scheduled (handleDelete id d).2 = [].
Proof.
  unfold handleDelete. destruct (user d); [|done].
  by destruct (truthy_opt (deleting d)).
Qed.

Lemma prefixed_truthy (prefix message : string) :
  prefix ≠ "" → truthy (prefix +:+ message) = true.
Proof.
  intros Hp. unfold truthy. apply bool_decide_eq_true.
  destruct prefix; [done|]. done.
Qed.

(** C5.  When the store answers a create or a delete with an error, the
    resumed handler starts no effect (so no fallback timer), leaves the
    bookmark list as it was, and sets [error] to a non-empty message that
    carries the store's, which the page renders.  The part of either
    handler that runs before the call does not touch the list or set a
    timer either. *)
Theorem store_error_is_surfaced_without_mutation
    (e : Postgrest.Error) data (id : string) (d0 d : Dashboard) :
  let r := Postgrest.mk data (Some e) in
  let shown (h : Handler) (text : string) :=
    (h d).2 = [] ∧ bookmarks (h d).1 = bookmarks d ∧
    error (h d).1 = Some (text +:+ Postgrest.message e) ∧
    truthy_opt (error (h d).1) = true in
  shown (handleSubmit_resume r) "Failed to add bookmark: " ∧
  shown (handleDelete_resume id r) "Failed to delete bookmark: " ∧
  bookmarks (handleSubmit d0).1 = bookmarks d0 ∧
  scheduled (handleSubmit d0).2 = [] ∧
  bookmarks (handleDelete id d0).1 = bookmarks d0 ∧
  scheduled (handleDelete id d0).2 = [].
Proof.
  destruct e as [message]. simpl.
  pose proof (handleSubmit_bookmarks d0) as [? ?].
  pose proof (handleDelete_bookmarks id d0) as [? ?].
  repeat split; try done; by apply prefixed_truthy.
Qed.

(** ** C6: the initial load *)

#[export] Instance newest_first_total : Total newest_first.
Proof. intros a b. unfold newest_first. lia. Qed.

#[export] Instance newest_first_trans : Transitive newest_first.
Proof. intros a b c. unfold newest_first. lia. Qed.

Lemma select_rows_sorted owner l : Sorted newest_first (select_rows owner l).
Proof. apply Sorted_merge_sort, _. Qed.

Lemma select_rows_perm owner l : select_rows owner l ≡ₚ owned owner l.
Proof. apply merge_sort_Permutation. Qed.

Lemma elem_of_select_rows b owner l :
  b ∈ select_rows owner l ↔ Bookmark.user_id b = owner ∧ b ∈ l.
Proof.
  rewrite select_rows_perm. unfold owned. by rewrite list_elem_of_filter.
Qed.

(** C6.  Signing in with a non-empty user id sends one select for that
    id.  If the store refuses it, the reply sets [error] to the store's
    message and the list, empty since the component was created, stays
    empty; the failing reply never touches the list of any state.  If the
    store accepts, the reply replaces the whole list, whatever it held,
    with the rows of that owner, newest [created_at] first. *)
Theorem initial_load (st : Store) (s : Session.t) :
  let owner := User.id (Session.user s) in
  truthy owner = true →
  (fetchBookmarks owner initial).2 = [Await (Select owner)] ∧
  (∀ message, ∃ w,
      run [GetSession (Some s); Serve 0 (Refuse message); Reply 0] (boot st) = Some w ∧
      bookmarks (ui w) = [] ∧
      error (ui w) = Some ("Failed to load bookmarks: " +:+ message)) ∧
  (∀ uuid now, ∃ w,
      run [GetSession (Some s); Serve 0 (Accept uuid now); Reply 0] (boot st) = Some w ∧
      bookmarks (ui w) = select_rows owner (rows st) ∧ error (ui w) = None) ∧
  Sorted newest_first (select_rows owner (rows st)) ∧
  select_rows owner (rows st) ≡ₚ owned owner (rows st) ∧
  (∀ d e data,
      bookmarks (fetchBookmarks_resume (Postgrest.mk data (Some e)) d).1 = bookmarks d) ∧
  (∀ d data, bookmarks (fetchBookmarks_resume (ok (Some data)) d).1 = data).
Proof.
  intros owner Howner.
  split_and!.
  - unfold fetchBookmarks. by rewrite Howner.
  - intros message. eexists. split_and!.
    + simpl. unfold dispatch, checkAuth, fetchBookmarks. fold owner.
      rewrite Howner. simpl. reflexivity.
    + done.
    + done.
  - intros uuid now. eexists. split_and!.
    + simpl. unfold dispatch, checkAuth, fetchBookmarks. fold owner.
      rewrite Howner. simpl. reflexivity.
    + done.
    + done.
  - apply select_rows_sorted.
  - apply select_rows_perm.
  - done.
  - done.
Qed.

Lemma initial_load_witness :
  ∃ w, run [GetSession (Some (Session.mk example_user)); Serve 0 (Accept "" 0); Reply 0]
         (boot example_store) = Some w ∧
       bookmarks (ui w) = [row_1].
Proof.
  destruct (initial_load example_store (Session.mk example_user)) as (_ & _ & H & _).
  - reflexivity.
  - destruct (H "" 0%Z) as (w & Hrun & Hb & _). exists w. split; [exact Hrun|].
    rewrite Hb. reflexivity.
Defined.

(** * Invariants of the event loop *)

Section Dispatch.

Implicit Types (h : Handler) (w : World).

Lemma ui_dispatch h w :
  ui (dispatch h w) = if mounted w then (h (ui w)).1 else ui w.
Proof. unfold dispatch. by destruct (h (ui w)). Qed.

Lemma ui_dispatch_mounted h w :
  mounted w = true → ui (dispatch h w) = (h (ui w)).1.
Proof. intros Hm. by rewrite ui_dispatch, Hm. Qed.

Lemma ui_dispatch_unmounted h w :
  mounted w = false → ui (dispatch h w) = ui w.
Proof. intros Hm. by rewrite ui_dispatch, Hm. Qed.

Lemma timers_dispatch h w :
  timers (dispatch h w) = timers w ++ scheduled (h (ui w)).2.
Proof. unfold dispatch. by destruct (h (ui w)). Qed.

Lemma requests_dispatch h w :
  requests (dispatch h w) = requests w ++ awaited (h (ui w)).2.
Proof. unfold dispatch. by destruct (h (ui w)). Qed.

Lemma responses_dispatch h w : responses (dispatch h w) = responses w.
Proof. unfold dispatch. by destruct (h (ui w)). Qed.

Lemma feed_dispatch h w : feed (dispatch h w) = feed w.
Proof. unfold dispatch. by destruct (h (ui w)). Qed.

Lemma store_dispatch h w : store (dispatch h w) = store w.
Proof. unfold dispatch. by destruct (h (ui w)). Qed.

Lemma mounted_dispatch h w : mounted (dispatch h w) = mounted w.
Proof. unfold dispatch. by destruct (h (ui w)). Qed.

Lemma auth_pending_dispatch h w : auth_pending (dispatch h w) = auth_pending w.
Proof. unfold dispatch. by destruct (h (ui w)). Qed.

Lemma channel_dispatch h w :
  channel (dispatch h w) = if mounted w then user (h (ui w)).1 else None.
Proof. unfold dispatch. by destruct (h (ui w)). Qed.

End Dispatch.

Create Rewrite HintDb dispatch.
#[export] Hint Rewrite timers_dispatch requests_dispatch
  responses_dispatch feed_dispatch store_dispatch mounted_dispatch
  auth_pending_dispatch channel_dispatch : dispatch.
#[export] Hint Rewrite ui_dispatch_mounted ui_dispatch_unmounted
  using (simpl; assumption) : dispatch.

Lemma quiet_checkAuth session : quiet (checkAuth session).
Proof.
  intros d. destruct session as [s|]; [|done].
  unfold checkAuth, fetchBookmarks.
  by destruct (truthy (User.id (Session.user s))).
Qed.

Lemma quiet_handleSubmit : quiet handleSubmit.
Proof. intros d. apply handleSubmit_bookmarks. Qed.

Lemma quiet_handleDelete id : quiet (handleDelete id).
Proof. intros d. apply handleDelete_bookmarks. Qed.

Lemma quiet_setTitle v : quiet (setTitle v).
Proof. done. Qed.

Lemma quiet_setUrl v : quiet (setUrl v).
Proof. done. Qed.

Lemma quiet_setError v : quiet (setError v).
Proof. done. Qed.

Create HintDb quiet discriminated.
#[export] Hint Resolve quiet_checkAuth quiet_handleSubmit quiet_handleDelete
  quiet_setTitle quiet_setUrl quiet_setError : quiet.

Section Clean.

Implicit Types (l current : list Bookmark.t) (b new : Bookmark.t).

Lemma clean_nil : clean [].
Proof. split; [constructor | done]. Qed.

Lemma clean_insert_updater new current :
  Bookmark.id new ≠ "" → clean current → clean (insert_updater new current).
Proof.
  intros Hne [Hnd Hall]. split; [by apply NoDup_insert_updater|].
  unfold insert_updater. destruct (some _ current); [done|].
  by constructor.
Qed.

Lemma clean_delete_updater id current :
  clean current → clean (delete_updater id current).
Proof.
  intros [Hnd Hall]. split; [by apply NoDup_delete_updater|].
  unfold delete_updater. rewrite Forall_forall in *.
  intros b [_ Hb]%list_elem_of_filter. by apply Hall.
Qed.

Lemma clean_insert_fallback_updater data current :
  clean_data data → clean current → clean (insert_fallback_updater data current).
Proof.
  destruct data as [[|new rest]|]; try done.
  rewrite insert_fallback_updater_head. intros [_ Hall] Hc.
  apply clean_insert_updater; [|done]. by inversion Hall.
Qed.

Lemma clean_Permutation l k : l ≡ₚ k → clean l → clean k.
Proof. intros Hp [Hnd Hall]. split; by rewrite <- Hp. Qed.

Lemma clean_filter (P : Bookmark.t → Prop) `{!∀ b, Decision (P b)} l :
  clean l → clean (filter P l).
Proof.
  intros [Hnd Hall]. split.
  - eapply sublist_NoDup; [done|]. apply fmap_sublist, sublist_filter.
  - rewrite Forall_forall in *. intros b [_ Hb]%list_elem_of_filter. by apply Hall.
Qed.

Lemma clean_select_rows owner l : clean l → clean (select_rows owner l).
Proof.
  intros Hc. eapply clean_Permutation; [symmetry; apply select_rows_perm|].
  by apply clean_filter.
Qed.

Lemma wf_store_clean st : wf_store st → clean (rows st).
Proof.
  intros [Hnd Hall]. split; [done|]. eapply Forall_impl; [done|]. naive_solver.
Qed.

End Clean.

Lemma Forall_filtered {A} (P Q : A → Prop) `{!∀ x, Decision (Q x)} (l : list A) :
  Forall P l → Forall P (filter Q l).
Proof.
  rewrite !Forall_forall. intros Hall x [_ Hx]%list_elem_of_filter. by apply Hall.
Qed.

Lemma serve_wf_store q o st st' r cs :
  wf_store st → serve q o st = Some (st', r, cs) →
  wf_store st' ∧ clean_data (Postgrest.data r) ∧ Forall clean_change cs.
Proof.
  intros Hwf Hserve. pose proof (wf_store_clean _ Hwf) as Hclean.
  destruct Hwf as [Hnd Hall].
  destruct o as [message|uuid now]; simpl in Hserve.
  { injection Hserve as <- <- <-. by split_and!. }
  destruct q as [owner|owner title url|id owner]; simpl in Hserve.
  - injection Hserve as <- <- <-. split_and!; try done.
    by apply clean_select_rows.
  - case_guard as Hfresh; [|done]. destruct Hfresh as [Hne Hfresh].
    injection Hserve as <- <- <-. split_and!; simpl.
    + split; simpl.
      * rewrite fmap_app. simpl. apply NoDup_app.
        split_and!; [done| |apply NoDup_singleton].
        intros x Hx Hu. apply list_elem_of_singleton in Hu. subst x. apply Hfresh.
        apply list_elem_of_fmap in Hx as (b & -> & Hb).
        rewrite Forall_forall in Hall. by apply Hall.
      * apply Forall_app. split.
        -- eapply Forall_impl; [done|]. intros b [? ?]. split; [done|]. by right.
        -- apply Forall_singleton. split; [done|]. by left.
    + split; simpl; [apply NoDup_singleton | by apply Forall_singleton].
    + by apply Forall_singleton.
  - case_guard; [|done]. injection Hserve as <- <- <-. split_and!; simpl.
    + split; simpl.
      * eapply sublist_NoDup; [done|]. apply fmap_sublist, sublist_filter.
      * rewrite Forall_forall in *. intros b [_ Hb]%list_elem_of_filter. by apply Hall.
    + done.
    + apply Forall_fmap, Forall_true. done.
Qed.

(** What a step of each kind did. *)
Lemma step_inv w e w' :
  step w e = Some w' →
  match e with
  | GetSession session =>
      auth_pending w = true ∧ w' = dispatch (checkAuth session) (resolved w)
  | TypeTitle v => interactive w ∧ w' = dispatch (setTitle v) w
  | TypeUrl v => interactive w ∧ w' = dispatch (setUrl v) w
  | Submit => interactive w ∧ w' = dispatch handleSubmit w
  | Click id => clickable id w ∧ w' = dispatch (handleDelete id) w
  | Dismiss => interactive w ∧ w' = dispatch (setError None) w
  | Serve i o =>
      ∃ q st r cs,
        requests w !! i = Some q ∧ serve q o (store w) = Some (st, r, cs) ∧
        w' = served i q r cs st w
  | Reply i =>
      ∃ q r,
        responses w !! i = Some (q, r) ∧
        w' = dispatch (resume q r) (taken_reply i w)
  | Notify i =>
      ∃ c,
        feed w !! i = Some c ∧
        w' = match channel w with
             | Some u => dispatch (on_change u c) (taken_change i w)
             | None => taken_change i w
             end
  | Lose i => ∃ c, feed w !! i = Some c ∧ w' = taken_change i w
  | Tick i => ∃ t, timers w !! i = Some t ∧ w' = dispatch (fire t) (taken_timer i w)
  | Unmount => mounted w = true ∧ w' = unmounted w
  end.
Proof.
  destruct e as [session|v|v| |id| |i o|i|i|i|i| ]; simpl; intros Hstep.
  1-6, 12: by simplify_option_eq.
  - destruct (requests w !! i) as [q|] eqn:Hq; [|done]. simpl in Hstep.
    destruct (serve q o (store w)) as [[[st r] cs]|] eqn:Hserve; [|done].
    simpl in Hstep. simplify_eq. by exists q, st, r, cs.
  - destruct (responses w !! i) as [[q r]|] eqn:Hqr; [|done].
    simpl in Hstep. simplify_eq. by exists q, r.
  - destruct (feed w !! i) as [c|] eqn:Hc; [|done].
    simpl in Hstep. exists c. split; [done|].
    by destruct (channel w); simplify_eq.
  - destruct (feed w !! i) as [c|] eqn:Hc; [|done].
    simpl in Hstep. simplify_eq. by exists c.
  - destruct (timers w !! i) as [t|] eqn:Ht; [|done].
    simpl in Hstep. simplify_eq. by exists t.
Qed.

Lemma quiet_sane (h : Handler) w :
  quiet h → sane w → sane (dispatch h w).
Proof.
  intros Hq [Hst Hbm Hrs Hts Hfd]. destruct (Hq (ui w)) as [Hb Hs].
  split; autorewrite with dispatch; try done.
  - rewrite ui_dispatch. destruct (mounted w); [by rewrite Hb|done].
  - by rewrite Hs, app_nil_r.
Qed.

Lemma scheduled_on_change u c d : scheduled (on_change u c d).2 = [].
Proof.
  destruct c as [new|old]; simpl; [|done].
  unfold onInsert. by case_bool_decide.
Qed.

Lemma scheduled_fire t d : scheduled (fire t d).2 = [].
Proof. by destruct t. Qed.

Lemma awaited_on_change u c d : awaited (on_change u c d).2 = [].
Proof.
  destruct c as [new|old]; simpl; [|done].
  unfold onInsert. by case_bool_decide.
Qed.

Lemma awaited_fire t d : awaited (fire t d).2 = [].
Proof. by destruct t. Qed.

Lemma awaited_resume q r d : awaited (resume q r d).2 = [].
Proof.
  destruct q as [owner|owner title url|id owner]; simpl.
  - unfold fetchBookmarks_resume. destruct (Postgrest.error r); [done|].
    by destruct (Postgrest.data r).
  - unfold handleSubmit_resume. by destruct (Postgrest.error r).
  - unfold handleDelete_resume. by destruct (Postgrest.error r).
Qed.

Lemma step_sane w e w' : sane w → step w e = Some w' → sane w'.
Proof.
  intros Hsane Hstep. apply step_inv in Hstep.
  destruct e as [session|v|v| |id| |i o|i|i|i|i| ].
  1-6: destruct Hstep as [_ ->]; apply quiet_sane; auto with quiet.
  1: by destruct Hsane.
  all: destruct Hsane as [Hst Hbm Hrs Hts Hfd].
  - (* Serve *)
    destruct Hstep as (q & st & r & cs & Hq & Hserve & ->).
    destruct (serve_wf_store _ _ _ _ _ _ Hst Hserve) as (? & ? & ?).
    split; simpl; try done.
    + apply Forall_app. split; [done|]. by apply Forall_singleton.
    + apply Forall_app. split; [done|].
      unfold published. destruct (channel w); [|done]. by apply Forall_filtered.
  - (* Reply *)
    destruct Hstep as (q & r & Hqr & ->).
    pose proof (Forall_lookup_1 _ _ _ _ Hrs Hqr) as Hdata. simpl in Hdata.
    split; autorewrite with dispatch; simpl; try done.
    + rewrite ui_dispatch. simpl. destruct (mounted w); [|done].
      destruct q as [owner|owner title url|id owner]; simpl.
      * unfold fetchBookmarks_resume.
        destruct (Postgrest.error r); [done|].
        by destruct (Postgrest.data r).
      * unfold handleSubmit_resume. by destruct (Postgrest.error r).
      * unfold handleDelete_resume. by destruct (Postgrest.error r).
    + by apply Forall_delete.
    + apply Forall_app. split; [done|].
      destruct q as [owner|owner title url|id owner]; simpl.
      * unfold fetchBookmarks_resume.
        destruct (Postgrest.error r); [done|].
        by destruct (Postgrest.data r).
      * unfold handleSubmit_resume. destruct (Postgrest.error r); [done|].
        by apply Forall_singleton.
      * unfold handleDelete_resume. destruct (Postgrest.error r); [done|].
        by apply Forall_singleton.
  - (* Notify *)
    destruct Hstep as (c & Hc & ->).
    pose proof (Forall_lookup_1 _ _ _ _ Hfd Hc) as Hclean.
    destruct (channel w) as [u|].
    + split; autorewrite with dispatch; simpl; try done.
      * rewrite ui_dispatch. simpl. destruct (mounted w); [|done].
        destruct c as [new|old]; simpl.
        -- unfold onInsert. case_bool_decide; [|done].
           by apply clean_insert_updater.
        -- by apply clean_delete_updater.
      * by rewrite scheduled_on_change, app_nil_r.
      * by apply Forall_delete.
    + split; simpl; try done. by apply Forall_delete.
  - (* Lose *)
    destruct Hstep as (c & Hc & ->).
    split; simpl; try done. by apply Forall_delete.
  - (* Tick *)
    destruct Hstep as (t & Ht & ->).
    pose proof (Forall_lookup_1 _ _ _ _ Hts Ht) as Hclean.
    split; autorewrite with dispatch; simpl; try done.
    + rewrite ui_dispatch. simpl. destruct (mounted w); [|done].
      destruct t as [data|id]; simpl.
      * by apply clean_insert_fallback_updater.
      * rewrite delete_fallback_updater_eq. by apply clean_delete_updater.
    + rewrite scheduled_fire, app_nil_r. by apply Forall_delete.
  - (* Unmount *)
    destruct Hstep as [_ ->]. by split.
Qed.

Lemma run_invariant (P : World → Prop) :
  (∀ w e w', P w → step w e = Some w' → P w') →
  ∀ es w w', P w → run es w = Some w' → P w'.
Proof.
  intros Hstep es. induction es as [|e es IH]; intros w w' Hw Hrun; simpl in Hrun.
  - by simplify_eq.
  - destruct (step w e) as [w1|] eqn:E; [|done]. simpl in Hrun. eauto.
Qed.

Lemma boot_sane st : wf_store st → sane (boot st).
Proof. intros Hwf. split; simpl; try done. apply clean_nil. Qed.

Lemma reachable_sane w : reachable w → sane w.
Proof.
  intros (st & es & Hwf & Hrun).
  eapply (run_invariant sane); [apply step_sane | by apply boot_sane | done].
Qed.

(** ** The signed-in user and the subscription *)

Lemma keeps_session_handleSubmit : keeps_session handleSubmit.
Proof.
  intros d. unfold handleSubmit. destruct (user d) eqn:E; [|done].
  by destruct (negb (truthy (title d)) || negb (truthy (url d))).
Qed.

Lemma keeps_session_handleDelete id : keeps_session (handleDelete id).
Proof.
  intros d. unfold handleDelete. destruct (user d) eqn:E; [|done].
  by destruct (truthy_opt (deleting d)).
Qed.

Lemma keeps_session_on_change u c : keeps_session (on_change u c).
Proof.
  intros d. destruct c as [new|old]; simpl; [|done].
  unfold onInsert. by case_bool_decide.
Qed.

Lemma keeps_session_fire t : keeps_session (fire t).
Proof. intros d. by destruct t. Qed.

Lemma keeps_session_resume q r : (∀ owner, q ≠ Select owner) → keeps_session (resume q r).
Proof.
  intros Hq d. destruct q as [owner|owner title url|id owner]; simpl.
  - by destruct (Hq owner).
  - unfold handleSubmit_resume. by destruct (Postgrest.error r).
  - unfold handleDelete_resume. by destruct (Postgrest.error r).
Qed.

Lemma user_resume q r d : user (resume q r d).1 = user d.
Proof.
  destruct q as [owner|owner title url|id owner]; simpl.
  - unfold fetchBookmarks_resume. destruct (Postgrest.error r); [done|].
    by destruct (Postgrest.data r).
  - unfold handleSubmit_resume. by destruct (Postgrest.error r).
  - unfold handleDelete_resume. by destruct (Postgrest.error r).
Qed.

(** What a handler leaves alone, the event loop leaves alone: when the
    component is unmounted nothing changes any more. *)
Lemma ui_dispatch_keeps {A} (f : Dashboard → A) (h : Handler) w :
  f (h (ui w)).1 = f (ui w) → f (ui (dispatch h w)) = f (ui w).
Proof. intros Hf. rewrite ui_dispatch. by destruct (mounted w). Qed.

(** Once the component is unmounted its state cells never change. *)
Lemma step_frozen w e w' :
  mounted w = false → step w e = Some w' → ui w' = ui w ∧ mounted w' = false.
Proof.
  intros Hm Hstep. apply step_inv in Hstep.
  destruct e as [session|v|v| |id| |i o|i|i|i|i| ].
  - destruct Hstep as [_ ->]. by autorewrite with dispatch.
  - destruct Hstep as [[? _] _]. congruence.
  - destruct Hstep as [[? _] _]. congruence.
  - destruct Hstep as [[? _] _]. congruence.
  - destruct Hstep as [[[? _] _] _]. congruence.
  - destruct Hstep as [[? _] _]. congruence.
  - by destruct Hstep as (q & st & r & cs & _ & _ & ->).
  - destruct Hstep as (q & r & _ & ->). by autorewrite with dispatch.
  - destruct Hstep as (c & _ & ->).
    destruct (channel w); [by autorewrite with dispatch|done].
  - by destruct Hstep as (c & _ & ->).
  - destruct Hstep as (t & _ & ->). by autorewrite with dispatch.
  - destruct Hstep as [? _]. congruence.
Qed.

(** Once [getSession] has resolved, the signed-in user never changes. *)
Lemma step_user w e w' :
  auth_pending w = false → step w e = Some w' →
  user (ui w') = user (ui w) ∧ auth_pending w' = false.
Proof.
  intros Hauth Hstep. apply step_inv in Hstep.
  destruct e as [session|v|v| |id| |i o|i|i|i|i| ].
  - destruct Hstep as [? _]. congruence.
  - destruct Hstep as [_ ->].
    split; [by apply (ui_dispatch_keeps user)|by autorewrite with dispatch].
  - destruct Hstep as [_ ->].
    split; [by apply (ui_dispatch_keeps user)|by autorewrite with dispatch].
  - destruct Hstep as [_ ->].
    split; [apply (ui_dispatch_keeps user)|by autorewrite with dispatch].
    by destruct (keeps_session_handleSubmit (ui w)).
  - destruct Hstep as [_ ->].
    split; [apply (ui_dispatch_keeps user)|by autorewrite with dispatch].
    by destruct (keeps_session_handleDelete id (ui w)).
  - destruct Hstep as [_ ->].
    split; [by apply (ui_dispatch_keeps user)|by autorewrite with dispatch].
  - by destruct Hstep as (q & st & r & cs & _ & _ & ->).
  - destruct Hstep as (q & r & _ & ->).
    split; [|by autorewrite with dispatch].
    apply (ui_dispatch_keeps user _ (taken_reply i w)), user_resume.
  - destruct Hstep as (c & _ & ->). destruct (channel w) as [u|]; [|done].
    split; [|by autorewrite with dispatch].
    apply (ui_dispatch_keeps user _ (taken_change i w)).
    by destruct (keeps_session_on_change u c (ui (taken_change i w))).
  - by destruct Hstep as (c & _ & ->).
  - destruct Hstep as (t & _ & ->).
    split; [|by autorewrite with dispatch].
    apply (ui_dispatch_keeps user _ (taken_timer i w)).
    by destruct (keeps_session_fire t (ui (taken_timer i w))).
  - by destruct Hstep as [_ ->].
Qed.

(** Before anyone is signed in, only [getSession] can move the component. *)
Lemma step_idle w e w' :
  user (ui w) = None → idle w → step w e = Some w' →
  (user (ui w') = None ∧ idle w') ∨
  (∃ s, e = GetSession (Some s) ∧ w' = dispatch (checkAuth (Some s)) (resolved w)).
Proof.
  intros Hu (Hl & Hb & Hrq & Hrs & Hts & Hfd) Hstep. apply step_inv in Hstep.
  destruct e as [session|v|v| |id| |i o|i|i|i|i| ].
  - destruct Hstep as [_ ->]. destruct session as [s|]; [right; by exists s|].
    left. unfold idle. autorewrite with dispatch.
    rewrite !(ui_dispatch_keeps _ (checkAuth None) (resolved w)) by done. simpl.
    by rewrite Hu, Hl, Hb, Hrq, Hrs, Hts, Hfd.
  - destruct Hstep as [[_ ?] _]. congruence.
  - destruct Hstep as [[_ ?] _]. congruence.
  - destruct Hstep as [[_ ?] _]. congruence.
  - destruct Hstep as [[[_ ?] _] _]. congruence.
  - destruct Hstep as [[_ ?] _]. congruence.
  - destruct Hstep as (q & _ & _ & _ & Hq & _). by rewrite Hrq in Hq.
  - destruct Hstep as (q & r & Hq & _). by rewrite Hrs in Hq.
  - destruct Hstep as (c & Hc & _). by rewrite Hfd in Hc.
  - destruct Hstep as (c & Hc & _). by rewrite Hfd in Hc.
  - destruct Hstep as (t & Ht & _). by rewrite Hts in Ht.
  - destruct Hstep as [_ ->]. by left.
Qed.

Lemma user_checkAuth s d : user (checkAuth (Some s) d).1 = Some (Session.user s).
Proof.
  unfold checkAuth, fetchBookmarks.
  by destruct (truthy (User.id (Session.user s))).
Qed.

Lemma step_keeps_mounted w e w' :
  step w e = Some w' → mounted w' = mounted w ∨ w' = unmounted w.
Proof.
  intros Hstep. apply step_inv in Hstep.
  destruct e as [session|v|v| |id| |i o|i|i|i|i| ].
  1-6: destruct Hstep as [_ ->]; left; by autorewrite with dispatch.
  - destruct Hstep as (q & st & r & cs & _ & _ & ->). by left.
  - destruct Hstep as (q & r & _ & ->). left. by autorewrite with dispatch.
  - destruct Hstep as (c & _ & ->). left.
    destruct (channel w); [by autorewrite with dispatch|done].
  - destruct Hstep as (c & _ & ->). by left.
  - destruct Hstep as (t & _ & ->). left. by autorewrite with dispatch.
  - destruct Hstep as [_ ->]. by right.
Qed.

Lemma step_mounted w e w' :
  step w e = Some w' → mounted w' = true → mounted w = true.
Proof.
  intros Hstep Hm'. destruct (mounted w) eqn:Hm; [done|].
  destruct (step_frozen _ _ _ Hm Hstep). congruence.
Qed.

Lemma step_attended w e w' : attended w → step w e = Some w' → attended w'.
Proof.
  unfold attended. intros Hw Hstep.
  destruct (user (ui w)) as [u|] eqn:Hu.
  - destruct (step_user _ _ _ Hw Hstep) as [-> ?]. by rewrite Hu.
  - destruct (mounted w) eqn:Hm.
    + destruct (step_idle _ _ _ Hu (Hw eq_refl) Hstep)
        as [[-> ?]|(s & -> & ->)]; [done|].
      autorewrite with dispatch. by rewrite user_checkAuth.
    + destruct (step_frozen _ _ _ Hm Hstep) as [-> Hm']. rewrite Hu.
      intros ?. congruence.
Qed.

Lemma step_channel w e w' :
  channel_follows w → step w e = Some w' → channel_follows w'.
Proof.
  unfold channel_follows. intros Hw Hstep. apply step_inv in Hstep.
  destruct e as [session|v|v| |id| |i o|i|i|i|i| ].
  1-6: destruct Hstep as [_ ->]; autorewrite with dispatch; rewrite ui_dispatch;
       simpl; by destruct (mounted w).
  - by destruct Hstep as (q & st & r & cs & _ & _ & ->).
  - destruct Hstep as (q & r & _ & ->). autorewrite with dispatch.
    rewrite ui_dispatch. simpl. by destruct (mounted w).
  - destruct Hstep as (c & _ & ->).
    destruct (channel w) eqn:E; [|simpl; congruence].
    autorewrite with dispatch. rewrite ui_dispatch. simpl. by destruct (mounted w).
  - by destruct Hstep as (c & _ & ->).
  - destruct Hstep as (t & _ & ->). autorewrite with dispatch.
    rewrite ui_dispatch. simpl. by destruct (mounted w).
  - by destruct Hstep as [_ ->].
Qed.

Lemma step_unmounted w e w' :
  mounted w = false → step w e = Some w' → mounted w' = false.
Proof. intros Hm Hstep. by destruct (step_frozen _ _ _ Hm Hstep). Qed.

Lemma step_steady w e w' : steady w → step w e = Some w' → steady w'.
Proof.
  intros (? & ? & ?) Hstep. split_and!.
  - by eapply step_sane.
  - by eapply step_attended.
  - by eapply step_channel.
Qed.

Lemma boot_steady st : wf_store st → steady (boot st).
Proof.
  intros Hwf. split_and!; [by apply boot_sane| |done].
  unfold attended, idle. simpl. done.
Qed.

Lemma reachable_steady w : reachable w → steady w.
Proof.
  intros (st & es & Hwf & Hrun).
  eapply (run_invariant steady); [apply step_steady|by apply boot_steady|done].
Qed.

Lemma run_snoc es e w w1 w2 :
  run es w = Some w1 → step w1 e = Some w2 → run (es ++ [e]) w = Some w2.
Proof.
  revert w. induction es as [|e1 es IH]; intros w Hrun Hstep; simpl in *.
  - simplify_eq. by rewrite Hstep.
  - destruct (step w e1) as [w3|]; [|done]. simpl in *. by apply IH.
Qed.

Lemma reachable_step w e w' : reachable w → step w e = Some w' → reachable w'.
Proof.
  intros (st & es & Hwf & Hrun) Hstep. exists st, (es ++ [e]).
  split; [done|]. by eapply run_snoc.
Qed.

(** What holds of the state cells while the component is mounted holds of
    them for good: the unmount leaves them as they are. *)
Lemma frozen_invariant (Q : Dashboard → Prop) :
  (∀ w, reachable w → mounted w = true → Q (ui w)) →
  ∀ w, reachable w → Q (ui w).
Proof.
  intros HQ w (st & es & Hwf & Hrun).
  assert (reachable w ∧ Q (ui w)) as [_ ?]; [|done].
  apply (run_invariant (λ w, reachable w ∧ Q (ui w))) with es (boot st);
    [| |done].
  - intros w1 e w2 [Hr Hq] Hstep.
    pose proof (reachable_step _ _ _ Hr Hstep) as Hr2. split; [done|].
    destruct (mounted w2) eqn:Hm2; [by apply HQ|].
    destruct (step_keeps_mounted _ _ _ Hstep) as [Heq| ->]; [|done].
    rewrite Hm2 in Heq. symmetry in Heq.
    by destruct (step_frozen _ _ _ Heq Hstep) as [-> _].
  - assert (reachable (boot st)) by by exists st, [].
    split; [done|]. by apply HQ.
Qed.

(** The form and the list are on screen only for a signed-in user. *)
Lemma interactive_signed_in w : attended w → interactive w → is_Some (user (ui w)).
Proof.
  unfold attended. intros Hw [Hm Hl]. destruct (user (ui w)); [done|].
  destruct (Hw Hm) as [? _]. congruence.
Qed.

(** A handler that returns at a guard leaves the whole world as it is. *)
Lemma dispatch_noop (h : Handler) w :
  channel_follows w → h (ui w) = (ui w, []) → dispatch h w = w.
Proof.
  unfold channel_follows, dispatch. intros Hch ->. simpl.
  rewrite <- Hch, !app_nil_r. destruct w as [? m ? ? ? ? ? ? ?]. simpl.
  by destruct m.
Qed.

(** ** C1: no identifier is shown twice *)

Lemma bookmarks_fire_insert data d :
  bookmarks (fire (InsertFallback data) d).1 = insert_fallback_updater data (bookmarks d).
Proof. done. Qed.

Lemma bookmarks_onInsert u new d :
  bookmarks (onInsert u new d).1 =
  if bool_decide (Bookmark.user_id new = User.id u)
  then insert_updater new (bookmarks d) else bookmarks d.
Proof. unfold onInsert. by case_bool_decide. Qed.

Lemma insert_updater_idem new current :
  insert_updater new (insert_updater new current) = insert_updater new current.
Proof.
  unfold insert_updater at 1.
  destruct (some _ (insert_updater new current)) eqn:E; [done|].
  apply some_id_false in E. destruct E.
  apply elem_of_insert_updater. by left.
Qed.

Lemma example_store_wf : wf_store example_store.
Proof.
  split; simpl.
  - apply NoDup_singleton.
  - apply Forall_singleton. split; [done|]. by apply list_elem_of_singleton.
Defined.

Lemma after_insert_reachable : reachable after_insert.
Proof.
  exists example_store, insert_trace. split; [apply example_store_wf|].
  vm_compute. reflexivity.
Defined.

(** C1.  The realtime INSERT callback and the insert fallback timer both
    look for the identifier before they prepend: each keeps identifiers
    distinct, and for the same record they leave, in either order, the
    list that one of them alone leaves on a list without that record, so
    the record is there once.  Hence no state the event loop reaches, under
    any interleaving of replies, timers and notifications, shows an
    identifier twice. *)
Theorem insert_never_duplicates :
  (∀ (u : User.t) (new : Bookmark.t) data (d : Dashboard),
      NoDup (Bookmark.id <$> bookmarks d) →
      NoDup (Bookmark.id <$> bookmarks (onInsert u new d).1) ∧
      NoDup (Bookmark.id <$> bookmarks (fire (InsertFallback data) d).1)) ∧
  (∀ (u : User.t) (new : Bookmark.t) rest (d : Dashboard),
      let fallback := fire (InsertFallback (Some (new :: rest))) in
      bookmarks (fallback (onInsert u new d).1).1 = insert_updater new (bookmarks d) ∧
      bookmarks (onInsert u new (fallback d).1).1 = insert_updater new (bookmarks d)) ∧
  (∀ w, reachable w → NoDup (Bookmark.id <$> bookmarks (ui w))).
Proof.
  split_and!.
  - intros u new data d Hnd. split.
    + unfold onInsert. case_bool_decide; [|done].
      by apply NoDup_insert_updater.
    + by apply NoDup_insert_fallback_updater.
  - intros u new rest d fallback. subst fallback.
    rewrite bookmarks_fire_insert, !bookmarks_onInsert, bookmarks_fire_insert.
    rewrite !insert_fallback_updater_head.
    case_bool_decide; by rewrite ?insert_updater_idem.
  - intros w Hw. by destruct (reachable_sane w Hw) as [_ [? _] _ _ _].
Qed.

Lemma insert_never_duplicates_witness :
  NoDup (Bookmark.id <$> bookmarks (ui after_insert)).
Proof.
  destruct insert_never_duplicates as (_ & _ & H).
  apply (H after_insert). apply after_insert_reachable.
Defined.

(** ** C4: one delete in flight *)

Lemma delete_neutral_handleSubmit : delete_neutral handleSubmit.
Proof.
  intros d. unfold handleSubmit. destruct (user d) eqn:E; [|done].
  by destruct (negb (truthy (title d)) || negb (truthy (url d))).
Qed.

Lemma delete_neutral_set (h : Handler) :
  (∀ d, deleting (h d).1 = deleting d ∧ user (h d).1 = user d ∧ awaited (h d).2 = []) →
  delete_neutral h.
Proof.
  intros H d. destruct (H d) as (-> & -> & ->). done.
Qed.

Lemma delete_neutral_on_change u c : delete_neutral (on_change u c).
Proof.
  apply delete_neutral_set. intros d. rewrite awaited_on_change.
  destruct c as [new|old]; simpl; [|done].
  unfold onInsert. by case_bool_decide.
Qed.

Lemma delete_neutral_fire t : delete_neutral (fire t).
Proof. apply delete_neutral_set. intros d. by destruct t. Qed.

Lemma delete_neutral_resume q r :
  ¬ is_delete q → delete_neutral (resume q r).
Proof.
  intros Hq. apply delete_neutral_set. intros d. rewrite awaited_resume.
  destruct q as [owner|owner title url|id owner]; simpl.
  - unfold fetchBookmarks_resume. destruct (Postgrest.error r); [done|].
    by destruct (Postgrest.data r).
  - unfold handleSubmit_resume. by destruct (Postgrest.error r).
  - by destruct Hq.
Qed.

Lemma deletes_in_flight_dispatch (h : Handler) w :
  deletes_in_flight (dispatch h w) ≡ₚ
  deletes_in_flight w ++ filter is_delete (awaited (h (ui w)).2).
Proof.
  unfold deletes_in_flight, in_flight. autorewrite with dispatch.
  rewrite !filter_app. by rewrite <- !(assoc (++)), (comm (++) (filter _ (awaited _))).
Qed.

Lemma marker_tracks_neutral (h : Handler) w :
  delete_neutral h → marker_tracks w → mounted w = true →
  marker_tracks (dispatch h w).
Proof.
  intros Hn Hw Hm. destruct (Hn (ui w)) as (Hdel & Huser & Hnone).
  pose proof (deletes_in_flight_dispatch h w) as Hperm.
  rewrite Hnone, app_nil_r in Hperm.
  unfold marker_tracks in *. autorewrite with dispatch. rewrite Hdel, Huser.
  destruct (deleting (ui w)) as [id|].
  - destruct Hw as (? & u & ? & ?). split; [done|].
    exists u. split; [done|]. by rewrite Hperm.
  - rewrite Hw in Hperm. by apply Permutation_nil_r in Hperm.
Qed.

Lemma marker_tracks_relabel w w' :
  ui w' = ui w → in_flight w' ≡ₚ in_flight w →
  marker_tracks w → marker_tracks w'.
Proof.
  intros Hui Hperm. unfold marker_tracks, deletes_in_flight.
  rewrite Hui. destruct (deleting (ui w)) as [id|].
  - intros (? & u & ? & ?). split; [done|].
    exists u. split; [done|]. by rewrite Hperm.
  - intros Hnone. apply Permutation_nil_r. by rewrite Hperm, Hnone.
Qed.

Lemma in_flight_served (rq : list Query) (rs : list (Query * Postgrest.response)) i q r :
  rq !! i = Some q →
  delete i rq ++ (rs ++ [(q, r)]).*1 ≡ₚ rq ++ rs.*1.
Proof.
  intros Hq. rewrite fmap_app. simpl.
  rewrite (delete_Permutation rq i q Hq) at 2.
  rewrite (assoc (++)), <- Permutation_cons_append. done.
Qed.

Lemma in_flight_replied (rq : list Query) (rs : list (Query * Postgrest.response)) i q r :
  rs !! i = Some (q, r) →
  rq ++ rs.*1 ≡ₚ q :: (rq ++ (delete i rs).*1).
Proof.
  intros Hqr. rewrite (delete_Permutation rs i _ Hqr) at 1.
  simpl. by rewrite Permutation_middle.
Qed.

Lemma step_marker w e w' :
  steady w → mounted w = true → marker_tracks w → step w e = Some w' →
  marker_tracks w'.
Proof.
  intros (Hsane & Hatt & _) Hm Hw Hstep. apply step_inv in Hstep.
  destruct e as [session|v|v| |id| |i o|i|i|i|i| ].
  - (* GetSession: nobody was signed in, so the marker is not set *)
    destruct Hstep as [Hauth ->].
    assert (user (ui w) = None) as Hu.
    { unfold attended in Hatt. destruct (user (ui w)); [congruence|done]. }
    pose proof (deletes_in_flight_dispatch (checkAuth session) (resolved w)) as Hperm.
    assert (filter is_delete (awaited (checkAuth session (ui w)).2) = []) as Hnone.
    { destruct session as [s|]; [|done]. unfold checkAuth, fetchBookmarks.
      by destruct (truthy (User.id (Session.user s))). }
    assert (deleting (checkAuth session (ui w)).1 = deleting (ui w)) as Hdel.
    { destruct session as [s|]; [|done]. unfold checkAuth, fetchBookmarks.
      by destruct (truthy (User.id (Session.user s))). }
    simpl in Hperm. rewrite Hnone, app_nil_r in Hperm.
    unfold marker_tracks in *. autorewrite with dispatch. simpl. rewrite Hdel.
    destruct (deleting (ui w)) as [id0|].
    + destruct Hw as (_ & u & ? & _). congruence.
    + change (deletes_in_flight (resolved w)) with (deletes_in_flight w) in Hperm.
      rewrite Hw in Hperm. by apply Permutation_nil_r in Hperm.
  - destruct Hstep as [_ ->].
    by apply marker_tracks_neutral; [apply delete_neutral_set|..].
  - destruct Hstep as [_ ->].
    by apply marker_tracks_neutral; [apply delete_neutral_set|..].
  - destruct Hstep as [_ ->].
    by apply marker_tracks_neutral; [apply delete_neutral_handleSubmit|..].
  - (* Click *)
    destruct Hstep as [(_ & _ & Hshown & _) ->].
    assert (id ≠ "") as Hid.
    { destruct Hsane as [_ [_ Hall] _ _ _].
      apply list_elem_of_fmap in Hshown as (b & -> & Hb).
      rewrite Forall_forall in Hall. by apply Hall. }
    pose proof (deletes_in_flight_dispatch (handleDelete id) w) as Hperm.
    unfold marker_tracks in *. autorewrite with dispatch.
    unfold handleDelete in *.
    destruct (user (ui w)) as [u|] eqn:Hu; simpl in *.
    + destruct (deleting (ui w)) as [id0|] eqn:Hd; simpl in *.
      * destruct Hw as (Hid0 & u0 & Hu0 & Hw).
        unfold truthy in *. rewrite bool_decide_eq_true_2 in * by done.
        simpl in *. rewrite Hd, Hu. split; [done|].
        exists u0. split; [done|]. by rewrite Hperm, app_nil_r.
      * split; [done|]. exists u. split; [done|]. by rewrite Hperm, Hw.
    + destruct (deleting (ui w)) as [id0|]; simpl in *.
      * by destruct Hw as (_ & u0 & ? & _).
      * rewrite Hw in Hperm. by apply Permutation_nil_r in Hperm.
  - destruct Hstep as [_ ->].
    by apply marker_tracks_neutral; [apply delete_neutral_set|..].
  - (* Serve *)
    destruct Hstep as (q & st & r & cs & Hq & _ & ->).
    eapply marker_tracks_relabel; [| |exact Hw]; [done|].
    unfold in_flight. simpl. by apply in_flight_served.
  - (* Reply *)
    destruct Hstep as (q & r & Hqr & ->).
    set (w1 := taken_reply i w).
    assert (in_flight w ≡ₚ q :: in_flight w1) as Hin
      by (by eapply in_flight_replied).
    assert (deletes_in_flight w ≡ₚ filter is_delete (q :: in_flight w1)) as Hdel
      by (unfold deletes_in_flight; by rewrite Hin).
    destruct (decide (is_delete q)) as [Hq|Hq].
    + destruct q as [| |id owner]; try done.
      rewrite filter_cons_True in Hdel by done.
      assert (deletes_in_flight w1 = []) as Hnone.
      { unfold marker_tracks in Hw.
        destruct (deleting (ui w)) as [id0|].
        - destruct Hw as (_ & u0 & _ & Hw). rewrite Hw in Hdel.
          apply Permutation_singleton_l in Hdel. by simplify_eq.
        - rewrite Hw in Hdel. by apply Permutation_nil_cons in Hdel. }
      pose proof (deletes_in_flight_dispatch (resume (Delete id owner) r) w1) as Hperm.
      rewrite awaited_resume, Hnone in Hperm. simpl in Hperm.
      unfold marker_tracks. autorewrite with dispatch. simpl.
      assert (deleting (handleDelete_resume id r (ui w)).1 = None) as ->.
      { unfold handleDelete_resume. by destruct (Postgrest.error r). }
      by apply Permutation_nil_r.
    + apply marker_tracks_neutral; [by apply delete_neutral_resume| |done].
      rewrite filter_cons_False in Hdel by done.
      unfold marker_tracks in *. simpl.
      destruct (deleting (ui w)) as [id0|].
      * destruct Hw as (? & u0 & ? & Hw). split; [done|].
        exists u0. split; [done|].
        fold (deletes_in_flight w1) in Hdel. by rewrite <- Hdel.
      * rewrite Hw in Hdel. symmetry in Hdel. by apply Permutation_nil_r in Hdel.
  - (* Notify *)
    destruct Hstep as (c & _ & ->).
    destruct (channel w) as [u|].
    + apply marker_tracks_neutral; [apply delete_neutral_on_change| |done].
      by eapply marker_tracks_relabel; [| |exact Hw].
    + by eapply marker_tracks_relabel; [| |exact Hw].
  - destruct Hstep as (c & _ & ->).
    by eapply marker_tracks_relabel; [| |exact Hw].
  - destruct Hstep as (t & _ & ->).
    apply marker_tracks_neutral; [apply delete_neutral_fire| |done].
    by eapply marker_tracks_relabel; [| |exact Hw].
  - destruct Hstep as [_ ->].
    by eapply marker_tracks_relabel; [| |exact Hw].
Qed.

Lemma marker_tracks_bounds w : marker_tracks w → marker_bounds w.
Proof.
  unfold marker_tracks, marker_bounds. destruct (deleting (ui w)) as [id|].
  - intros (? & u & ? & ?). right. by exists id, u.
  - by left.
Qed.

(** Unmounted, the deletes in flight can only go away. *)
Lemma marker_bounds_shrink w w' :
  ui w' = ui w →
  deletes_in_flight w' ≡ₚ deletes_in_flight w ∨
  (∃ q, deletes_in_flight w ≡ₚ q :: deletes_in_flight w') →
  marker_bounds w → marker_bounds w'.
Proof.
  unfold marker_bounds. intros -> Hperm [Hnil|(id & u & ? & ? & ? & Hone)].
  - left. destruct Hperm as [Hperm|[q Hperm]]; rewrite Hnil in Hperm.
    + by apply Permutation_nil_r in Hperm.
    + by apply Permutation_nil_cons in Hperm.
  - destruct Hperm as [Hperm|[q Hperm]].
    + right. exists id, u. split_and!; try done. by rewrite Hperm.
    + left. rewrite Hone in Hperm.
      apply Permutation_singleton_l in Hperm. by simplify_eq.
Qed.

Lemma step_marker_bounds w e w' :
  mounted w = false → marker_bounds w → step w e = Some w' → marker_bounds w'.
Proof.
  intros Hm Hw Hstep. destruct (step_frozen _ _ _ Hm Hstep) as [Hui _].
  apply (marker_bounds_shrink w w' Hui); [|done].
  apply step_inv in Hstep.
  destruct e as [session|v|v| |id| |i o|i|i|i|i| ].
  - destruct Hstep as [_ ->]. left.
    rewrite deletes_in_flight_dispatch.
    assert (filter is_delete (awaited (checkAuth session (ui (resolved w))).2) = [])
      as ->; [|by rewrite app_nil_r].
    destruct session as [s|]; [|done]. unfold checkAuth, fetchBookmarks.
    by destruct (truthy (User.id (Session.user s))).
  - destruct Hstep as [[? _] _]. congruence.
  - destruct Hstep as [[? _] _]. congruence.
  - destruct Hstep as [[? _] _]. congruence.
  - destruct Hstep as [[[? _] _] _]. congruence.
  - destruct Hstep as [[? _] _]. congruence.
  - destruct Hstep as (q & st & r & cs & Hq & _ & ->). left.
    unfold deletes_in_flight, in_flight. simpl. by rewrite in_flight_served.
  - destruct Hstep as (q & r & Hqr & ->).
    set (w1 := taken_reply i w).
    assert (in_flight w ≡ₚ q :: in_flight w1) as Hin
      by (by eapply in_flight_replied).
    assert (deletes_in_flight (dispatch (resume q r) w1) ≡ₚ deletes_in_flight w1)
      as Hsame.
    { by rewrite deletes_in_flight_dispatch, awaited_resume, app_nil_r. }
    assert (deletes_in_flight w ≡ₚ filter is_delete (q :: in_flight w1)) as Hdel
      by (unfold deletes_in_flight; by rewrite Hin).
    destruct (decide (is_delete q)).
    + right. exists q. rewrite filter_cons_True in Hdel by done.
      by rewrite Hsame.
    + left. rewrite filter_cons_False in Hdel by done. by rewrite Hsame.
  - destruct Hstep as (c & _ & ->). left.
    destruct (channel w) as [u|]; [|done].
    by rewrite deletes_in_flight_dispatch, awaited_on_change, app_nil_r.
  - destruct Hstep as (c & _ & ->). by left.
  - destruct Hstep as (t & _ & ->). left.
    by rewrite deletes_in_flight_dispatch, awaited_fire, app_nil_r.
  - destruct Hstep as [? _]. congruence.
Qed.

Lemma run_mounted es w w' :
  run es w = Some w' → mounted w' = true → mounted w = true.
Proof.
  revert w. induction es as [|e es IH]; intros w Hrun Hm; simpl in Hrun.
  - by simplify_eq.
  - destruct (step w e) as [w1|] eqn:E; [|done]. simpl in Hrun.
    eapply step_mounted; [done|]. by eapply IH.
Qed.

(** What holds of every state in which the component is still mounted. *)
Lemma mounted_invariant (P : World → Prop) :
  (∀ w e w', steady w → P w → mounted w = true → mounted w' = true →
             step w e = Some w' → P w') →
  (∀ st, P (boot st)) →
  ∀ w, reachable w → mounted w = true → P w.
Proof.
  intros Hstep Hboot w (st & es & Hwf & Hrun) Hm.
  assert (steady w ∧ P w) as [_ ?]; [|done].
  revert Hrun Hm. generalize (boot_steady st Hwf) (Hboot st).
  generalize (boot st). clear Hwf. induction es as [|e es IH];
    intros w0 Hs0 Hp0 Hrun Hm; simpl in Hrun.
  - by simplify_eq.
  - destruct (step w0 e) as [w1|] eqn:E; [|done]. simpl in Hrun.
    pose proof (run_mounted _ _ _ Hrun Hm) as Hm1.
    pose proof (step_mounted _ _ _ E Hm1) as Hm0.
    apply (IH w1); [by eapply step_steady|by eapply Hstep|done..].
Qed.

Lemma reachable_marker w : reachable w → mounted w = true → marker_tracks w.
Proof.
  apply (mounted_invariant marker_tracks); [|done].
  intros w1 e w2 Hs Hw Hm _ Hstep. by eapply step_marker.
Qed.

Lemma reachable_marker_bounds w : reachable w → marker_bounds w.
Proof.
  intros Hw. destruct (mounted w) eqn:Hm.
  { by apply marker_tracks_bounds, reachable_marker. }
  destruct Hw as (st & es & Hwf & Hrun).
  assert (reachable w ∧ marker_bounds w) as [_ ?]; [|done].
  apply (run_invariant (λ w, reachable w ∧ marker_bounds w)) with es (boot st);
    [|split; [by exists st, []|by left]|done].
  intros w1 e w2 [Hr Hb] Hstep. split; [by eapply reachable_step|].
  destruct (mounted w1) eqn:Hm1.
  - destruct (mounted w2) eqn:Hm2.
    + apply marker_tracks_bounds.
      eapply step_marker; [by apply reachable_steady|done| |done].
      by apply reachable_marker.
    + destruct (step_keeps_mounted _ _ _ Hstep) as [?| ->]; [congruence|].
      by apply (marker_bounds_shrink w1); [|left|].
  - by eapply step_marker_bounds.
Qed.

(** The guard of [handleDelete] is a truthiness test: an empty string in
    [deleting] would not hold a second delete back.  The marker is only
    ever set to the identifier of a row of the table, which is not empty
    ([marker_tracks]). *)
Remark empty_marker_is_falsy :
  let d := mkDashboard (Some example_user) false "" "" false [row_1] (Some "") false None in
  (handleDelete "1" d).2 = [Await (Delete "1" "user-1")].
Proof. reflexivity. Qed.

(** C4.  In every state the event loop reaches, at most one delete is in
    flight.  While one is, [deleting] holds its identifier and a delete
    request for any identifier returns at the guard: [handleDelete] starts
    no effect and leaves the component state as it is, so that a click on
    any Delete button leaves everything as it is.  The marker is cleared
    when the reply of the delete in flight is handled, whatever the
    reply. *)
Theorem one_delete_in_flight (w : World) :
  reachable w →
  (length (deletes_in_flight w) ≤ 1)%nat ∧
  (∀ q, q ∈ deletes_in_flight w →
        (∃ id0 owner, q = Delete id0 owner ∧ deleting (ui w) = Some id0) ∧
        (∀ id, handleDelete id (ui w) = (ui w, [])) ∧
        (∀ id w', step w (Click id) = Some w' → w' = w)) ∧
  (∀ id r d, deleting (handleDelete_resume id r d).1 = None).
Proof.
  intros Hw. pose proof (reachable_marker_bounds w Hw) as Hm.
  destruct (reachable_steady w Hw) as (_ & _ & Hch). split_and!.
  - destruct Hm as [->|(id0 & u & _ & _ & _ & ->)]; simpl; lia.
  - intros q Hq.
    destruct Hm as [Hnil|(id0 & u & Hid0 & Hd & Hu & Hone)].
    { rewrite Hnil in Hq. by apply elem_of_nil in Hq. }
    assert (∀ id, handleDelete id (ui w) = (ui w, [])) as Hignored.
    { intros id. unfold handleDelete. rewrite Hu, Hd. simpl.
      unfold truthy. by rewrite bool_decide_eq_true_2. }
    split_and!; [|done|].
    + rewrite Hone in Hq. apply list_elem_of_singleton in Hq.
      by exists id0, (User.id u).
    + intros id w' [_ ->]%step_inv. by apply dispatch_noop.
  - intros id r d. unfold handleDelete_resume. by destruct (Postgrest.error r).
Qed.

Lemma while_deleting_reachable : reachable while_deleting.
Proof.
  exists example_store, deleting_trace. split; [apply example_store_wf|].
  vm_compute. reflexivity.
Defined.

Lemma one_delete_in_flight_witness :
  handleDelete "2" (ui while_deleting) = (ui while_deleting, []).
Proof.
  destruct (one_delete_in_flight while_deleting while_deleting_reachable)
    as (_ & H & _).
  apply (H (Delete "1" "user-1")). vm_compute. left.
Defined.

(** ** C7: an incomplete form issues no call *)

(** C7.  When the title or the URL is empty, [handleSubmit] starts no
    effect at all (no insert is sent, no timer is set) and leaves the
    bookmark list as it is; when a user is signed in, which is the case
    whenever the form is on screen, it returns at the guard and the whole
    state, of the component and of everything pending, is unchanged. *)
Theorem empty_form_issues_no_insert :
  (∀ d, title d = "" ∨ url d = "" →
        (handleSubmit d).2 = [] ∧
        bookmarks (handleSubmit d).1 = bookmarks d ∧
        (is_Some (user d) → (handleSubmit d).1 = d)) ∧
  (∀ w w', reachable w → title (ui w) = "" ∨ url (ui w) = "" →
           step w Submit = Some w' → w' = w).
Proof.
  assert (∀ d, title d = "" ∨ url d = "" →
               negb (truthy (title d)) || negb (truthy (url d)) = true) as Hguard.
  { intros d. unfold truthy. intros [-> | ->]; simpl; [done|].
    by rewrite orb_true_r. }
  split.
  - intros d Hempty. unfold handleSubmit.
    destruct (user d) as [u|] eqn:Hu; [|done]. by rewrite (Hguard d Hempty).
  - intros w w' Hw Hempty [Hint ->]%step_inv.
    destruct (reachable_steady w Hw) as (_ & Hatt & Hch).
    destruct (interactive_signed_in w Hatt Hint) as [u Hu].
    apply dispatch_noop; [done|].
    unfold handleSubmit. by rewrite Hu, (Hguard _ Hempty).
Qed.

Lemma empty_form_issues_no_insert_witness :
  (handleSubmit example_dashboard).2 = [] ∧
  (handleSubmit example_dashboard).1 = example_dashboard ∧
  dispatch handleSubmit after_insert = after_insert.
Proof.
  destruct empty_form_issues_no_insert as [H1 H2].
  destruct (H1 example_dashboard) as (Hfx & _ & Hsame); [left; reflexivity|].
  split_and!.
  - exact Hfx.
  - apply Hsame. by eexists.
  - apply (H2 after_insert).
    + apply after_insert_reachable.
    + left. reflexivity.
    + reflexivity.
Defined.

(** ** C9: deletes are scoped by identifier and identity *)

Lemma handleDelete_awaited id (d : Dashboard) q :
  q ∈ awaited (handleDelete id d).2 →
  ∃ u, user d = Some u ∧ q = Delete id (User.id u).
Proof.
  unfold handleDelete. destruct (user d) as [u|]; simpl.
  - destruct (truthy_opt (deleting d)); simpl.
    + by intros ?%elem_of_nil.
    + intros ?%list_elem_of_singleton. eauto.
  - by intros ?%elem_of_nil.
Qed.

Lemma serve_delete_spares id owner o st st' r cs b :
  serve (Delete id owner) o st = Some (st', r, cs) →
  b ∈ rows st → Bookmark.user_id b ≠ owner → b ∈ rows st'.
Proof.
  destruct o as [message|uuid now]; simpl.
  - by intros [= <- _ _].
  - case_guard; [|done]. intros [= <- _ _] Hin Hne. simpl.
    apply list_elem_of_filter. split; [|done].
    unfold targeted. tauto.
Qed.

Lemma serve_delete_mismatch id owner o st st' r cs b :
  serve (Delete id owner) o st = Some (st', r, cs) →
  b ∈ rows st → Bookmark.id b = id → Bookmark.user_id b ≠ owner →
  st' = st ∧ is_Some (Postgrest.error r) ∧ cs = [].
Proof.
  destruct o as [message|uuid now]; simpl.
  - intros [= <- <- <-]. by eauto.
  - case_guard as Hall; [|done]. intros _ Hin Hid Hne.
    rewrite Forall_forall in Hall. by destruct (Hne (Hall b Hin Hid)).
Qed.

(** C9.  Every query [handleDelete] sends is a delete filtered by the
    requested identifier and by the signed-in user's id, and so is every
    delete in flight in every state the event loop reaches.  Served by the
    store, such a query never removes a row of another owner; when the
    identifier belongs to another owner the store changes nothing and
    answers with an error, on which the component shows the message and
    leaves its list alone. *)
Theorem delete_is_scoped_to_identity :
  (∀ id d q, q ∈ awaited (handleDelete id d).2 →
             ∃ u, user d = Some u ∧ q = Delete id (User.id u)) ∧
  (∀ w q, reachable w → q ∈ deletes_in_flight w →
          ∃ id u, user (ui w) = Some u ∧ q = Delete id (User.id u)) ∧
  (∀ id owner o st st' r cs d,
      serve (Delete id owner) o st = Some (st', r, cs) →
      (∀ b, b ∈ rows st → Bookmark.user_id b ≠ owner → b ∈ rows st') ∧
      (∀ b, b ∈ rows st → Bookmark.id b = id → Bookmark.user_id b ≠ owner →
            st' = st ∧ cs = [] ∧
            ∃ e, Postgrest.error r = Some e ∧
                 (handleDelete_resume id r d).2 = [] ∧
                 bookmarks (handleDelete_resume id r d).1 = bookmarks d ∧
                 error (handleDelete_resume id r d).1 =
                   Some ("Failed to delete bookmark: " +:+ Postgrest.message e))).
Proof.
  split_and!.
  - apply handleDelete_awaited.
  - intros w q Hw Hq.
    destruct (reachable_marker_bounds w Hw) as [Hm|(id & u & _ & _ & Hu & Hm)];
      rewrite Hm in Hq.
    + by apply elem_of_nil in Hq.
    + apply list_elem_of_singleton in Hq. by exists id, u.
  - intros id owner o st st' r cs d Hserve. split.
    + intros b. by eapply serve_delete_spares.
    + intros b Hin Hid Hne.
      destruct (serve_delete_mismatch _ _ _ _ _ _ _ _ Hserve Hin Hid Hne)
        as (-> & [e He] & ->).
      repeat split; try done. exists e. split; [done|].
      destruct r as [data err]. simpl in He. subst err. destruct e as [message].
      apply handleDelete_resume_error.
Qed.

Lemma delete_is_scoped_to_identity_witness :
  (∃ u, user example_dashboard = Some u ∧
        Delete "bm-7" "user-1" = Delete "bm-7" (User.id u)) ∧
  (∃ id u, user (ui while_deleting) = Some u ∧
           Delete "1" "user-1" = Delete id (User.id u)) ∧
  foreign_row ∈ rows shared_store.
Proof.
  destruct delete_is_scoped_to_identity as (H1 & H2 & H3).
  split_and!.
  - apply (H1 "bm-7" example_dashboard). simpl.
    apply list_elem_of_singleton. reflexivity.
  - apply (H2 while_deleting).
    + apply while_deleting_reachable.
    + vm_compute. left.
  - destruct (H3 "bm-7" "user-1" (Refuse "row-level security") shared_store
                shared_store (failed "row-level security") [] initial eq_refl)
      as [H _].
    apply (H foreign_row).
    + apply list_elem_of_singleton. reflexivity.
    + simpl. discriminate.
Defined.

(** ** C8: teardown *)

Lemma run_frozen es w w' :
  mounted w = false → run es w = Some w' → ui w' = ui w ∧ mounted w' = false.
Proof.
  revert w. induction es as [|e es IH]; intros w Hm Hrun; simpl in Hrun.
  - by simplify_eq.
  - destruct (step w e) as [w1|] eqn:E; [|done]. simpl in Hrun.
    destruct (step_frozen _ _ _ Hm E) as [Hui Hm1].
    destruct (IH w1 Hm1 Hrun) as [-> ?]. done.
Qed.

Lemma after_unmount_reachable : reachable after_unmount.
Proof.
  exists example_store, unmount_trace. split; [apply example_store_wf|].
  vm_compute. reflexivity.
Defined.

(** The cleanup does not cancel the fallback timers: the timer of a create
    that has just succeeded is still pending after the unmount. *)
Remark fallback_timer_is_left_pending :
  run unmount_trace (boot example_store) = Some after_unmount ∧
  mounted after_unmount = false ∧
  timers after_unmount = [InsertFallback (Some [row_2])].
Proof. split_and!; [vm_compute; reflexivity|done..]. Qed.

(** C8.  Unmounting runs the cleanup of the subscription effect, which
    unsubscribes the channel: the component is left without a channel, so
    that no notification delivered later reaches a callback.  The fallback
    timers are not cancelled and do fire, but all their callbacks do is
    call [setBookmarks], and React drops a state update of an unmounted
    component.  So after the teardown no event, be it a notification, a
    timer or a reply, changes the component state: the bookmark list stays
    as it was. *)
Theorem teardown_freezes_the_view (w w' : World) (es : list Event) :
  reachable w → mounted w = false → run es w = Some w' →
  channel w = None ∧ channel w' = None ∧ mounted w' = false ∧
  bookmarks (ui w') = bookmarks (ui w) ∧ ui w' = ui w.
Proof.
  intros Hw Hm Hrun. destruct (reachable_steady w Hw) as (_ & _ & Hch).
  destruct (run_frozen _ _ _ Hm Hrun) as [Hui Hm'].
  assert (channel_follows w') as Hch'.
  { eapply (run_invariant channel_follows); [apply step_channel|exact Hch|exact Hrun]. }
  unfold channel_follows in *. rewrite Hm in Hch. rewrite Hm' in Hch'.
  by rewrite Hui.
Qed.

Lemma teardown_freezes_the_view_witness :
  bookmarks (ui (taken_change 0
                   (dispatch (fire (InsertFallback (Some [row_2])))
                      (taken_timer 0 after_unmount)))) = [row_1].
Proof.
  refine (proj1 (proj2 (proj2 (proj2
    (teardown_freezes_the_view after_unmount _ [Tick 0; Notify 0]
       after_unmount_reachable eq_refl eq_refl))))).
Defined.

(** ** C2: what is shown against what is stored *)

Lemma empty_store_wf : wf_store empty_store.
Proof. split; simpl; [constructor|done]. Defined.

Lemma eventual_consistency_counterexample :
  (wf_store empty_store ∧
   ∃ w, run late_insert_trace (boot empty_store) = Some w ∧
        quiescent w ∧ user (ui w) = Some example_user ∧
        rows (store w) = [] ∧
        Bookmark.id <$> bookmarks (ui w) = ["1"] ∧
        displayed w ≠ stored (User.id example_user) w) ∧
  (wf_store example_store ∧
   ∃ w, run refused_load_trace (boot example_store) = Some w ∧
        quiescent w ∧ user (ui w) = Some example_user ∧
        Bookmark.id <$> rows (store w) = ["1"] ∧
        bookmarks (ui w) = [] ∧
        displayed w ≠ stored (User.id example_user) w).
Proof.
  split.
  - split; [apply empty_store_wf|].
    eexists. split; [vm_compute; reflexivity|].
    split_and!; [by repeat split|reflexivity..|].
    unfold displayed, stored. simpl. intros Heq.
    assert ("1" ∈ (∅ : gset string)) as Hin; [|set_solver].
    rewrite <- Heq. set_solver.
  - split; [apply example_store_wf|].
    eexists. split; [vm_compute; reflexivity|].
    split_and!; [by repeat split|reflexivity..|].
    unfold displayed, stored. simpl. intros Heq.
    assert ("1" ∈ (∅ : gset string)) as Hin; [|set_solver].
    rewrite Heq. unfold owned. simpl. set_solver.
Qed.

Section AgreementFacts.

Variable uid : string.
Implicit Types (w : World) (st : Store) (b : Bookmark.t) (id x : string).

Lemma elem_of_stored_ids x st :
x ∈ stored_ids uid st ↔
∃ b, b ∈ rows st ∧ Bookmark.user_id b = uid ∧ Bookmark.id b = x.
Proof.
unfold stored_ids, owned. rewrite list_elem_of_fmap.
setoid_rewrite list_elem_of_filter. naive_solver.
Qed.

Lemma backed_stored st b : backed uid st b → Bookmark.id b ∈ stored_ids uid st.
Proof. intros [? ?]. apply elem_of_stored_ids. eauto. Qed.

Lemma stored_backed st x :
x ∈ stored_ids uid st → ∃ b, backed uid st b ∧ Bookmark.id b = x.
Proof. intros (b & ? & ? & ?)%elem_of_stored_ids. exists b. by repeat split. Qed.

Lemma arriving_response w q b :
(q, ok (Some [b])) ∈ responses w → arriving (Bookmark.id b) w.
Proof.
intros Hin. left. apply Exists_exists. eexists. split; [done|].
unfold mentions. simpl. by apply list_elem_of_singleton.
Qed.

Lemma arriving_change w b : INSERT b ∈ feed w → arriving (Bookmark.id b) w.
Proof.
intros Hin. right. apply Exists_exists. eexists. split; [done|]. done.
Qed.

Lemma timers_ok_gone st rs ts id :
timers_ok uid st rs ts → DeleteFallback id ∈ ts → gone uid st id.
Proof.
induction ts as [|t ts IH]; simpl; [by intros _ ?%elem_of_nil|].
intros [Ht Hts] [<-|Hin]%elem_of_cons; [done|by apply IH].
Qed.

(** The timers stay truthful when rows are added, or deleted with the
  reply of the delete in sight. *)
Lemma timers_ok_transfer st st' rs rs' ts :
(∀ b, backed uid st b →
      backed uid st' b ∨
      (gone uid st' (Bookmark.id b) ∧
       ∃ owner, (Delete (Bookmark.id b) owner, ok None) ∈ rs')) →
(∀ id, gone uid st id → gone uid st' id) →
rs ⊆ rs' →
timers_ok uid st rs ts → timers_ok uid st' rs' ts.
Proof.
intros Hbacked Hgone Hrs. induction ts as [|t ts IH]; simpl; [done|].
intros [Ht Hts]. split; [|by apply IH].
destruct t as [data|id]; [|by apply Hgone].
destruct Ht as (b & -> & [Hb|[Hg Hcov]]); exists b; (split; [done|]).
- destruct (Hbacked b Hb) as [?|[? [owner ?]]]; [by left|right].
  split; [done|]. left. by exists owner.
- right. split; [by apply Hgone|].
  destruct Hcov as [[owner ?]|?]; [left|by right]. exists owner. by apply Hrs.
Qed.

(** Timers set now come after the timers set before. *)
Lemma timers_ok_app st rs rs' ts new :
(∀ id owner, (Delete id owner, ok None) ∈ rs →
             (Delete id owner, ok None) ∈ rs' ∨ DeleteFallback id ∈ new) →
timers_ok uid st rs ts → timers_ok uid st rs' new →
timers_ok uid st rs' (ts ++ new).
Proof.
intros Hrs. induction ts as [|t ts IH]; simpl; [done|].
intros [Ht Hts] Hnew. split; [|by apply IH].
destruct t as [data|id]; [|done].
destruct Ht as (b & -> & [?|[? Hcov]]); exists b; (split; [done|]);
  [by left|right]. split; [done|].
destruct Hcov as [[owner Hin]|Hin].
- destruct (Hrs _ _ Hin) as [?|?]; [left; by exists owner|right].
  apply elem_of_app. by right.
- right. apply elem_of_app. by left.
Qed.

(** [agreeing] looks at the list, at what is pending and at the store. *)
Lemma agreeing_frame w w' :
bookmarks (ui w') = bookmarks (ui w) → requests w' = requests w →
responses w' = responses w → timers w' = timers w → feed w' = feed w →
store w' = store w →
agreeing uid w → agreeing uid w'.
Proof.
intros Hb Hrq Hrs Hts Hfd Hst [H1 H2 H3 H4 H5 H6].
split; unfold request_ok, arriving, will_remove, will_add in *;
  rewrite ?Hb, ?Hrq, ?Hrs, ?Hts, ?Hfd, ?Hst; done.
Qed.

(** A new request changes nothing else. *)
Lemma agreeing_request w w' qs :
bookmarks (ui w') = bookmarks (ui w) → requests w' = requests w ++ qs →
responses w' = responses w → timers w' = timers w → feed w' = feed w →
store w' = store w →
Forall (request_ok uid w) qs →
agreeing uid w → agreeing uid w'.
Proof.
intros Hb Hrq Hrs Hts Hfd Hst Hqs [H1 H2 H3 H4 H5 H6].
split; unfold request_ok, arriving, will_remove, will_add in *;
  rewrite ?Hb, ?Hrq, ?Hrs, ?Hts, ?Hfd, ?Hst; try done.
apply Forall_app. split.
- eapply Forall_impl; [exact H1|]. intros [| |]; simpl; try done.
- eapply Forall_impl; [exact Hqs|]. intros [| |]; simpl; try done.
Qed.

End AgreementFacts.

Section AgreementSteps.

Variable uid : string.
Implicit Types (w : World) (st : Store) (b : Bookmark.t) (id x : string).

Lemma published_subseteq ch cs c : c ∈ published ch cs → c ∈ cs.
Proof.
unfold published. destruct ch; [|by intros ?%elem_of_nil].
by intros [_ ?]%list_elem_of_filter.
Qed.

Lemma arriving_served w i q r cs st id :
arriving id (served i q r cs st w) →
arriving id w ∨ mentions id (Postgrest.data r) ∨ Exists (change_adds id) cs.
Proof.
unfold arriving. simpl. rewrite !Exists_app, Exists_cons, Exists_nil. simpl.
intros [[?|[?|[]]]|[?|Hcs]]; auto.
right. right. apply Exists_exists in Hcs as (c & Hc & ?).
apply Exists_exists. exists c. split; [|done]. by eapply published_subseteq.
Qed.

Lemma will_remove_served w i q r cs st x :
will_remove w x → will_remove (served i q r cs st w) x.
Proof.
intros [[owner ?]|?]; [left|by right]. exists owner. simpl.
apply elem_of_app. by left.
Qed.

Lemma will_add_served w i q r cs st b :
will_add w b → will_add (served i q r cs st w) b.
Proof.
intros [[q' ?]|?]; [left|by right]. exists q'. simpl.
apply elem_of_app. by left.
Qed.

(** The replies and notifications on their way stay truthful when the
  store changes without touching the rows they speak of. *)
Lemma pending_transfer w st' (K : string → Prop) :
(∀ x, arriving x w → K x) →
(∀ b, backed uid (store w) b → K (Bookmark.id b) → backed uid st' b) →
(∀ id, gone uid (store w) id → gone uid st' id) →
agreeing uid w →
Forall (reply_ok uid st') (responses w) ∧
Forall (change_ok uid st') (feed w).
Proof.
intros HK Hbacked Hgone [_ Hrs _ Hfd _ _]. rewrite !Forall_forall in *.
split_and!.
- intros [q r] Hin. specialize (Hrs _ Hin). unfold reply_ok in *. simpl in *.
  destruct q as [|owner title url|id owner]; [done| |].
  + destruct Hrs as [?|(b & -> & Hb)]; [by left|right].
    exists b. split; [done|]. apply Hbacked; [done|].
    by eapply HK, arriving_response.
  + destruct Hrs as [?|[-> ?]]; [by left|right]. auto.
- intros c Hin. specialize (Hfd _ Hin). destruct c as [new|old]; simpl in *.
  + apply Hbacked; [done|]. by eapply HK, arriving_change.
  + auto.
Qed.

Lemma requests_transfer w w' :
issued (store w) ⊆ issued (store w') →
(∀ id, id ∈ issued (store w) → arriving id w' → arriving id w) →
Forall (request_ok uid w) (requests w) →
∀ i, Forall (request_ok uid w') (delete i (requests w)).
Proof.
intros Hissued Harr Hrq i. apply Forall_delete.
eapply Forall_impl; [exact Hrq|].
intros [|owner title url|id owner]; simpl; [done..|].
intros (? & ? & Hno). split_and!; [done|by apply Hissued|].
intros Ha. apply Hno. by apply Harr.
Qed.

Lemma agreeing_served w i o q st r cs :
agreeing uid w →
requests w !! i = Some q → serve q o (store w) = Some (st, r, cs) →
agreeing uid (served i q r cs st w).
Proof.
intros Hagr Hq Hserve.
pose proof (Forall_lookup_1 _ _ _ _ (agr_requests _ _ Hagr) Hq) as Hqok.
assert (responses w ⊆ responses w ++ [(q, r)]) as Hmore.
{ intros qr ?. apply elem_of_app. by left. }
destruct o as [message|uuid now]; simpl in Hserve.
{ (* refused: nothing changes but the reply *)
  injection Hserve as <- <- <-.
  destruct (pending_transfer w (store w) (λ _, True)) as (Hrs & Hfd);
    [done..|].
  split; simpl.
  - apply (requests_transfer w); [done| |by destruct Hagr].
    intros id _ [Ha|[Hm|Hc]]%arriving_served; [done| |].
    + by apply elem_of_nil in Hm.
    + by apply Exists_nil in Hc.
  - apply Forall_app. split; [done|]. apply Forall_singleton.
    unfold reply_ok. simpl. destruct q; [done|left; eauto..].
  - eapply timers_ok_transfer; [| |exact Hmore|by destruct Hagr]; auto.
  - apply Forall_app. split; [done|].
    apply Forall_forall. by intros c ?%published_subseteq%elem_of_nil.
  - intros x Hx. destruct (agr_shown _ _ Hagr x Hx); [by left|right].
    by apply will_remove_served.
  - intros b Hb. destruct (agr_stored _ _ Hagr b Hb); [by left|right].
    by apply will_add_served. }
destruct q as [owner|owner title url|id0 owner]; [done| |].
- (* a row is inserted *)
  simpl in Hqok. subst owner. simpl in Hserve.
  case_guard as Hfresh; [|done]. destruct Hfresh as [Hne Hfresh].
  injection Hserve as <- <- <-.
  set (b0 := Bookmark.mk uuid uid title url now).
  set (st := {| rows := rows (store w) ++ [b0]; issued := uuid :: issued (store w) |}).
  assert (∀ b, backed uid (store w) b → backed uid st b) as Hbacked.
  { intros b [? ?]. split; [|done]. simpl. apply elem_of_app. by left. }
  assert (backed uid st b0) as Hb0.
  { split; [|done]. simpl. apply elem_of_app. right. by apply list_elem_of_singleton. }
  assert (∀ id, gone uid (store w) id → gone uid st id) as Hgone.
  { intros id [Hno Hiss]. split; [|simpl; by right].
    intros (b & Hb & Hown & Hid)%elem_of_stored_ids. simpl in Hb.
    apply elem_of_app in Hb as [Hb|Hb].
    - apply Hno, elem_of_stored_ids. eauto.
    - apply list_elem_of_singleton in Hb. subst b. simpl in Hid. by subst id. }
  destruct (pending_transfer w st (λ _, True)) as (Hrs & Hfd); [by auto..|].
  split; simpl.
  + apply (requests_transfer w); [|  |by destruct Hagr].
    * simpl. intros x ?. by right.
    * intros id Hid [Ha|[Hm|Hc]]%arriving_served; [done| |].
      -- unfold mentions in Hm. simpl in Hm.
         apply list_elem_of_singleton in Hm. by subst id.
      -- apply Exists_cons in Hc as [Hc|Hc]; [|by apply Exists_nil in Hc].
         simpl in Hc. by subst id.
  + apply Forall_app. split; [done|]. apply Forall_singleton.
    unfold reply_ok. simpl. right. by exists b0.
  + eapply timers_ok_transfer; [| |exact Hmore|by destruct Hagr]; auto.
  + apply Forall_app. split; [done|].
    apply Forall_forall. intros c Hc%published_subseteq.
    apply list_elem_of_singleton in Hc. by subst c.
  + intros x Hx. destruct (agr_shown _ _ Hagr x Hx) as [Hs|Hr].
    * left. apply stored_backed in Hs as (b & Hb & <-).
      by apply backed_stored, Hbacked.
    * right. by apply will_remove_served.
  + intros b [Hb Hown]. simpl in Hb. apply elem_of_app in Hb as [Hb|Hb].
    * destruct (agr_stored _ _ Hagr b) as [?|?]; [done|by left|right].
      by apply will_add_served.
    * apply list_elem_of_singleton in Hb. subst b. right. left.
      exists (Insert uid title url). simpl. apply elem_of_app. right.
      by apply list_elem_of_singleton.
- (* the user's row [id0] is deleted *)
  simpl in Hqok. destruct Hqok as (-> & Hissued & Hnoadd). simpl in Hserve.
  case_guard as Hall; [|done]. injection Hserve as <- <- <-.
  set (st := {| rows := filter (λ b, ¬ targeted id0 uid b) (rows (store w));
                issued := issued (store w) |}).
  assert (gone uid st id0) as Hgone0.
  { split; [|done]. intros (b & Hb & Hown & Hid)%elem_of_stored_ids.
    simpl in Hb. apply list_elem_of_filter in Hb as [Hb _]. by apply Hb. }
  assert (∀ b, backed uid (store w) b → Bookmark.id b ≠ id0 → backed uid st b)
    as Hbacked.
  { intros b [? ?] ?. split; [|done]. simpl. apply list_elem_of_filter.
    split; [|done]. unfold targeted. tauto. }
  assert (∀ id, gone uid (store w) id → gone uid st id) as Hgone.
  { intros id [Hno Hiss]. split; [|done].
    intros (b & Hb & Hown & Hid)%elem_of_stored_ids. simpl in Hb.
    apply list_elem_of_filter in Hb as [_ Hb].
    apply Hno, elem_of_stored_ids. eauto. }
  destruct (pending_transfer w st (λ x, x ≠ id0)) as (Hrs & Hfd);
    [by intros x ? ->|done..|].
  split; simpl.
  + apply (requests_transfer w); [done| |by destruct Hagr].
    intros id Hid [Ha|[Hm|Hc]]%arriving_served; [done| |].
    * by apply elem_of_nil in Hm.
    * apply Exists_exists in Hc as (c & Hc & Hadd).
      apply list_elem_of_fmap in Hc as (b & -> & _). done.
  + apply Forall_app. split; [done|]. apply Forall_singleton.
    unfold reply_ok. simpl. by right.
  + (* an insert fallback of the deleted row waits for the delete's reply *)
    eapply timers_ok_transfer; [|exact Hgone|exact Hmore|by destruct Hagr].
    intros b Hb. destruct (decide (Bookmark.id b = id0)) as [->|?]; [right|by auto].
    split; [done|]. exists uid. apply elem_of_app. right.
    by apply list_elem_of_singleton.
  + apply Forall_app. split; [done|].
    apply Forall_forall. intros c Hc%published_subseteq.
    apply list_elem_of_fmap in Hc as (b & -> & Hb).
    apply list_elem_of_filter in Hb as [[Hid _] _]. simpl. by rewrite Hid.
  + intros x Hx. destruct (agr_shown _ _ Hagr x Hx) as [Hs|Hr].
    * destruct (decide (x = id0)) as [->|Hne].
      -- right. left. exists uid. simpl. apply elem_of_app. right.
         by apply list_elem_of_singleton.
      -- left. apply stored_backed in Hs as (b & Hb & <-).
         by apply backed_stored, Hbacked.
    * right. by apply will_remove_served.
  + intros b [Hb Hown]. simpl in Hb. apply list_elem_of_filter in Hb as [_ Hb].
    destruct (agr_stored _ _ Hagr b) as [?|?]; [done|by left|right].
    by apply will_add_served.
Qed.

Lemma elem_of_delete_cases {A} (l : list A) (i : nat) (a a' : A) :
l !! i = Some a → a' ∈ l → a' = a ∨ a' ∈ delete i l.
Proof.
intros Hi Ha. rewrite (delete_Permutation l i a Hi) in Ha.
by apply elem_of_cons in Ha.
Qed.

Lemma delete_subseteq {A} (l : list A) (i : nat) : delete i l ⊆ l.
Proof. intros a. apply list_elem_of_delete_inv. Qed.

(** Steps that leave the store and the requests alone: replies and
  notifications only go away. *)
Lemma agreeing_shrink w w' :
store w' = store w → requests w' = requests w →
responses w' ⊆ responses w →
timers_ok uid (store w) (responses w') (timers w') →
feed w' ⊆ feed w →
(∀ x, x ∈ Bookmark.id <$> bookmarks (ui w') →
      x ∈ stored_ids uid (store w) ∨ will_remove w' x) →
(∀ b, backed uid (store w) b →
      Bookmark.id b ∈ Bookmark.id <$> bookmarks (ui w') ∨ will_add w' b) →
agreeing uid w → agreeing uid w'.
Proof.
intros Hst Hrq Hrs Hts Hfd Hshown Hstored [H1 H2 _ H4 _ _].
rewrite Forall_forall in H1. rewrite Forall_forall in H2.
rewrite Forall_forall in H4.
assert (∀ id, arriving id w' → arriving id w) as Harr.
{ intros id [Ha|Ha]; apply Exists_exists in Ha as (y & Hy & Hm).
  - left. apply Exists_exists. exists y. auto.
  - right. apply Exists_exists. exists y. auto. }
split; rewrite ?Hst, ?Hrq; try done; apply Forall_forall.
- intros q Hq. specialize (H1 q Hq).
  destruct q as [|owner title url|id owner]; simpl in *; [done..|].
  rewrite ?Hst. destruct H1 as (? & ? & ?). split_and!; auto.
- intros qr Hqr. apply H2. by apply Hrs.
- intros c Hc. apply H4. by apply Hfd.
Qed.

Lemma agreeing_replied w i q r :
mounted w = true →
agreeing uid w → responses w !! i = Some (q, r) →
agreeing uid (dispatch (resume q r) (taken_reply i w)).
Proof.
intros Hm Hagr Hqr.
pose proof (Forall_lookup_1 _ _ _ _ (agr_responses _ _ Hagr) Hqr) as Hok.
pose proof (list_elem_of_lookup_2 _ _ _ Hqr) as Hin.
unfold reply_ok in Hok. simpl in Hok.
assert (bookmarks (resume q r (ui w)).1 = bookmarks (ui w)) as Hb.
{ destruct q as [|owner title url|id owner]; [done| |]; simpl.
  - unfold handleSubmit_resume. by destruct (Postgrest.error r).
  - unfold handleDelete_resume. by destruct (Postgrest.error r). }
apply (agreeing_shrink w); unfold will_remove, will_add, covered;
  autorewrite with dispatch; simpl;
  rewrite ?Hb, ?awaited_resume, ?app_nil_r; try done.
- apply delete_subseteq.
- apply (timers_ok_app uid _ (responses w)); [| by destruct Hagr |].
  + intros id owner Hr.
    destruct (elem_of_delete_cases _ _ _ _ Hqr Hr) as [Heq|?]; [|by left].
    injection Heq as <- <-. right. simpl. by apply list_elem_of_singleton.
  + destruct q as [|owner title url|id owner]; [done| |]; simpl.
    * destruct Hok as [[message ->]|(b & -> & Hb0)]; simpl; [done|].
      split; [|done]. exists b. split; [done|]. by left.
    * by destruct Hok as [[message ->]|[-> Hgone]]; simpl.
- intros x Hx. destruct (agr_shown _ _ Hagr x Hx) as [?|[[owner Hr]|Ht]];
    [by left|right..].
  + destruct (elem_of_delete_cases _ _ _ _ Hqr Hr) as [Heq|?];
      [|left; by exists owner].
    injection Heq as <- <-. right. simpl. apply elem_of_app. right.
    by apply list_elem_of_singleton.
  + right. apply elem_of_app. by left.
- intros b Hb0. destruct (agr_stored _ _ Hagr b Hb0) as [?|[[q' Hr]|Ht]];
    [by left|right..].
  + destruct (elem_of_delete_cases _ _ _ _ Hqr Hr) as [Heq|?];
      [|left; by exists q'].
    injection Heq as <- <-. right. apply elem_of_app. right.
    destruct q' as [|owner title url|id owner]; [done| |]; simpl.
    * by apply list_elem_of_singleton.
    * by destruct Hok as [[message ?]|[? _]].
  + right. apply elem_of_app. by left.
Qed.

Lemma agreeing_lost w i c :
agreeing uid w → feed w !! i = Some c → agreeing uid (taken_change i w).
Proof.
intros Hagr Hc. apply (agreeing_shrink w); simpl; try done.
- by destruct Hagr.
- apply delete_subseteq.
- by destruct Hagr.
- by destruct Hagr.
Qed.

Lemma gone_not_backed st b b' :
gone uid st (Bookmark.id b) → backed uid st b' → Bookmark.id b' ≠ Bookmark.id b.
Proof.
intros [Hno _] Hb' Heq. apply Hno. rewrite <- Heq. by apply backed_stored.
Qed.

Lemma agreeing_notified w i c u :
mounted w = true →
User.id u = uid → agreeing uid w → feed w !! i = Some c →
agreeing uid (dispatch (on_change u c) (taken_change i w)).
Proof.
intros Hm Hu Hagr Hc.
pose proof (Forall_lookup_1 _ _ _ _ (agr_feed _ _ Hagr) Hc) as Hok.
apply (agreeing_shrink w); unfold will_remove, will_add, covered;
  autorewrite with dispatch; simpl;
  rewrite ?awaited_on_change, ?scheduled_on_change, ?app_nil_r; try done.
- by destruct Hagr.
- apply delete_subseteq.
- intros x Hx. destruct c as [new|old]; simpl in *.
  + rewrite bookmarks_onInsert in Hx. case_bool_decide.
    * apply elem_of_insert_updater in Hx as [->|Hx].
      -- left. by apply backed_stored.
      -- by apply (agr_shown _ _ Hagr).
    * by apply (agr_shown _ _ Hagr).
  + apply elem_of_delete_updater in Hx as [_ Hx]. by apply (agr_shown _ _ Hagr).
- intros b Hb. destruct (agr_stored _ _ Hagr b Hb) as [Hin|?]; [left|by right].
  destruct c as [new|old]; simpl in *.
  + rewrite bookmarks_onInsert. case_bool_decide; [|done].
    apply elem_of_insert_updater. by right.
  + apply elem_of_delete_updater. split; [|done].
    by eapply gone_not_backed.
Qed.

(** The timer set first fires.  An insert fallback may put back a record
  that has been deleted since: the fallback of the delete comes after it. *)
Lemma agreeing_fired w t later :
mounted w = true →
agreeing uid w → timers w = t :: later →
agreeing uid (dispatch (fire t) (taken_timer 0 w)).
Proof.
intros Hm Hagr Hts.
pose proof (agr_timers _ _ Hagr) as Hok. rewrite Hts in Hok.
destruct Hok as [Hok Hlater].
assert (∀ x, will_remove w x → x ∈ stored_ids uid (store w) ∨
             (∃ owner, (Delete x owner, ok None) ∈ responses w) ∨
             DeleteFallback x ∈ later ∨ t = DeleteFallback x) as Hrem.
{ intros x [?|Hin]; [by auto|]. rewrite Hts in Hin.
  apply elem_of_cons in Hin as [?|?]; auto. }
assert (∀ b, will_add w b → (∃ q, (q, ok (Some [b])) ∈ responses w) ∨
             InsertFallback (Some [b]) ∈ later ∨ t = InsertFallback (Some [b]))
  as Hadd.
{ intros b [?|Hin]; [by auto|]. rewrite Hts in Hin.
  apply elem_of_cons in Hin as [?|?]; auto. }
apply (agreeing_shrink w); unfold will_remove, will_add, covered;
  autorewrite with dispatch; simpl;
  rewrite ?awaited_fire, ?scheduled_fire, ?app_nil_r, ?Hts; simpl; try done.
- intros x Hx. destruct t as [data|id]; simpl in *.
  + destruct Hok as (b & -> & Hb).
    rewrite insert_fallback_updater_head in Hx.
    apply elem_of_insert_updater in Hx as [->|Hx].
    { destruct Hb as [Hb|[_ Hcov]]; [left; by apply backed_stored|by right]. }
    destruct (agr_shown _ _ Hagr x Hx) as [?|Hr]; [by left|].
    destruct (Hrem x Hr) as [?|[?|[?|?]]]; [by left|right; by left|right; by right|done].
  + rewrite delete_fallback_updater_eq in Hx.
    apply elem_of_delete_updater in Hx as [Hne Hx].
    destruct (agr_shown _ _ Hagr x Hx) as [?|Hr]; [by left|].
    destruct (Hrem x Hr) as [?|[?|[?|?]]];
      [by left|right; by left|right; by right|congruence].
- intros b Hb. destruct t as [data|id]; simpl in *.
  + destruct Hok as (b0 & -> & Hb0). rewrite insert_fallback_updater_head.
    destruct (agr_stored _ _ Hagr b Hb) as [?|Ha].
    { left. apply elem_of_insert_updater. by right. }
    destruct (Hadd b Ha) as [?|[?|Heq]]; [right; by left|right; by right|].
    injection Heq as ->. left. apply elem_of_insert_updater. by left.
  + rewrite delete_fallback_updater_eq.
    destruct (agr_stored _ _ Hagr b Hb) as [?|Ha].
    { left. apply elem_of_delete_updater. split; [|done].
      destruct Hok as [Hno _]. intros <-. by apply Hno, backed_stored. }
    destruct (Hadd b Ha) as [?|[?|?]]; [right; by left|right; by right|done].
Qed.

End AgreementSteps.

Lemma shown_issued uid w x :
  wf_store (store w) → agreeing uid w →
  x ∈ Bookmark.id <$> bookmarks (ui w) → x ∈ issued (store w).
Proof.
  intros [_ Hall] Hagr Hx. rewrite Forall_forall in Hall.
  destruct (agr_shown _ _ Hagr x Hx) as [Hs|[[owner Hr]|Ht]].
  - apply elem_of_stored_ids in Hs as (b & Hb & _ & <-). by apply Hall.
  - pose proof (agr_responses _ _ Hagr) as Hok. rewrite Forall_forall in Hok.
    specialize (Hok _ Hr). unfold reply_ok in Hok. simpl in Hok.
    by destruct Hok as [[message ?]|[_ [_ ?]]].
  - by destruct (timers_ok_gone _ _ _ _ _ (agr_timers _ _ Hagr) Ht).
Qed.

Lemma agreeing_loaded uid w :
  requests w = [] → responses w = [] → timers w = [] → feed w = [] →
  bookmarks (ui w) = select_rows uid (rows (store w)) →
  agreeing uid w.
Proof.
  intros Hrq Hrs Hts Hfd Hb. split; rewrite ?Hrq, ?Hrs, ?Hts, ?Hfd, ?Hb; try done.
  - intros x (b & -> & [? ?]%elem_of_select_rows)%list_elem_of_fmap. left.
    apply elem_of_stored_ids. eauto.
  - intros b [? ?]. left. apply list_elem_of_fmap. exists b. split; [done|].
    by apply elem_of_select_rows.
Qed.

Lemma step_synced w e w' :
  sane w → channel_follows w → mounted w = true → synced w → polite w e →
  step w e = Some w' → synced w'.
Proof.
  intros Hsane Hch Hm Hs Hpolite Hstep.
  destruct (user (ui w)) as [u|] eqn:Hu.
  2: { (* nobody is signed in *)
    unfold synced in Hs. rewrite Hu in Hs.
    destruct (step_idle _ _ _ Hu Hs Hstep) as [[Hu' ?]|(s & -> & ->)].
    { unfold synced. by rewrite Hu'. }
    destruct Hs as (Hl & Hb & Hrq & Hrs & Hts & Hfd).
    unfold synced. autorewrite with dispatch. rewrite user_checkAuth.
    split; [done|]. intros Hne.
    assert (truthy (User.id (Session.user s)) = true) as Ht
      by by apply bool_decide_eq_true.
    unfold checkAuth, fetchBookmarks. rewrite Ht. simpl. rewrite Hl.
    unfold fetching. autorewrite with dispatch. simpl.
    rewrite Hb, Hrq, Hrs, Hts, Hfd. split_and!; try done. by left. }
  unfold synced in Hs. rewrite Hu in Hs.
  destruct Hs as [Hauth Hs].
  destruct (step_user _ _ _ Hauth Hstep) as [Hu' Hauth'].
  unfold synced at 1. rewrite Hu', Hu. split; [done|]. intros Hne.
  specialize (Hs Hne). set (uid := User.id u) in *.
  apply step_inv in Hstep.
  destruct (loading (ui w)) eqn:Hl.
  { (* the initial load is under way *)
    destruct Hs as (Hts & Hfd & Hb & Hsel).
    destruct e as [session|v|v| |id| |i o|i|i|i|i| ].
    - destruct Hstep as [? _]. congruence.
    - destruct Hstep as [[_ ?] _]. congruence.
    - destruct Hstep as [[_ ?] _]. congruence.
    - destruct Hstep as [[_ ?] _]. congruence.
    - destruct Hstep as [[[_ ?] _] _]. congruence.
    - destruct Hstep as [[_ ?] _]. congruence.
    - destruct Hstep as (q & st & r & cs & Hq & Hserve & ->). simpl. rewrite Hl.
      destruct Hsel as [[Hrq Hrs]|[Hrq Hrs]]; rewrite Hrq in Hq; [|done].
      destruct i as [|i]; [|done]. injection Hq as <-.
      simpl in Hpolite. rewrite Hrq in Hpolite. simpl in Hpolite.
      destruct o as [message|uuid now]; [done|]. simpl in Hserve.
      injection Hserve as <- <- <-.
      unfold fetching. simpl. rewrite Hts, Hfd, Hb, Hrq, Hrs. split_and!; try done.
      + unfold published. by destruct (channel w).
      + by right.
    - destruct Hstep as (q & r & Hq & ->).
      destruct Hsel as [[Hrq Hrs]|[Hrq Hrs]]; rewrite Hrs in Hq; [done|].
      destruct i as [|i]; [|done]. injection Hq as <- <-.
      autorewrite with dispatch. simpl.
      apply agreeing_loaded; autorewrite with dispatch; simpl;
        by rewrite ?Hts, ?Hfd, ?Hrq, ?Hrs.
    - destruct Hstep as (c & Hc & _). by rewrite Hfd in Hc.
    - destruct Hstep as (c & Hc & _). by rewrite Hfd in Hc.
    - destruct Hstep as (t & Ht & _). by rewrite Hts in Ht.
    - destruct Hstep as [_ ->]. simpl. rewrite Hl. done. }
  (* the initial load is done *)
  destruct e as [session|v|v| |id| |i o|i|i|i|i| ].
  - destruct Hstep as [? _]. congruence.
  - destruct Hstep as [_ ->]. autorewrite with dispatch. simpl. rewrite Hl.
    by apply (agreeing_frame uid w); autorewrite with dispatch; simpl;
      rewrite ?app_nil_r.
  - destruct Hstep as [_ ->]. autorewrite with dispatch. simpl. rewrite Hl.
    by apply (agreeing_frame uid w); autorewrite with dispatch; simpl;
      rewrite ?app_nil_r.
  - (* Submit *)
    destruct Hstep as [_ ->]. autorewrite with dispatch.
    destruct (keeps_session_handleSubmit (ui w)) as [_ ->]. rewrite Hl.
    destruct (quiet_handleSubmit (ui w)) as [Hb Hsch].
    apply (agreeing_request uid w _ (awaited (handleSubmit (ui w)).2));
      autorewrite with dispatch; rewrite ?Hsch, ?app_nil_r; try done.
    unfold handleSubmit. rewrite Hu.
    destruct (negb (truthy (title (ui w))) || negb (truthy (url (ui w)))); simpl;
      [done|]. by apply Forall_singleton.
  - (* Click *)
    destruct Hstep as [(_ & _ & Hshown & _) ->]. autorewrite with dispatch.
    destruct (keeps_session_handleDelete id (ui w)) as [_ ->]. rewrite Hl.
    destruct (quiet_handleDelete id (ui w)) as [Hb Hsch].
    apply (agreeing_request uid w _ (awaited (handleDelete id (ui w)).2));
      autorewrite with dispatch; rewrite ?Hsch, ?app_nil_r; try done.
    unfold handleDelete. rewrite Hu.
    destruct (truthy_opt (deleting (ui w))); simpl; [done|].
    apply Forall_singleton. simpl. split_and!; [done| |done].
    eapply shown_issued; [by destruct Hsane|done..].
  - destruct Hstep as [_ ->]. autorewrite with dispatch. simpl. rewrite Hl.
    by apply (agreeing_frame uid w); autorewrite with dispatch; simpl;
      rewrite ?app_nil_r.
  - destruct Hstep as (q & st & r & cs & Hq & Hserve & ->). simpl. rewrite Hl.
    by eapply agreeing_served.
  - (* Reply *)
    destruct Hstep as (q & r & Hq & ->). autorewrite with dispatch.
    assert (∀ owner, q ≠ Select owner) as Hnosel.
    { intros owner ->.
      pose proof (Forall_lookup_1 _ _ _ _ (agr_responses _ _ Hs) Hq) as Hok.
      done. }
    destruct (keeps_session_resume q r Hnosel (ui (taken_reply i w))) as [_ ->].
    simpl. rewrite Hl. by apply agreeing_replied.
  - (* Notify *)
    destruct Hstep as (c & Hc & ->).
    unfold channel_follows in Hch. destruct (channel w) as [u0|] eqn:Hch0.
    + assert (u0 = u) as ->.
      { rewrite Hm in Hch. congruence. }
      autorewrite with dispatch.
      destruct (keeps_session_on_change u c (ui (taken_change i w))) as [_ ->].
      simpl. rewrite Hl. by apply agreeing_notified.
    + simpl. rewrite Hl. by eapply agreeing_lost.
  - destruct Hstep as (c & Hc & ->). simpl. rewrite Hl. by eapply agreeing_lost.
  - (* Tick: the timer set first *)
    destruct Hstep as (t & Ht & ->). simpl in Hpolite. subst i.
    destruct (timers w) as [|t0 later] eqn:Hts; [done|].
    injection Ht as ->. autorewrite with dispatch.
    destruct (keeps_session_fire t (ui (taken_timer 0 w))) as [_ ->].
    simpl. rewrite Hl. by eapply agreeing_fired.
  - destruct Hstep as [_ ->]. simpl. rewrite Hl.
    by apply (agreeing_frame uid w).
Qed.

Lemma politely_invariant (P : World → Prop) :
  (∀ w e w', P w → polite w e → step w e = Some w' → P w') →
  ∀ es w w', P w → politely es w → run es w = Some w' → P w'.
Proof.
  intros Hstep es. induction es as [|e es IH]; intros w w' Hw Hpol Hrun;
    simpl in *.
  - by simplify_eq.
  - destruct Hpol as [Hpol Hrest].
    destruct (step w e) as [w1|] eqn:E; [|done]. simpl in Hrun. eauto.
Qed.

Lemma in_step_boot st : wf_store st → in_step (boot st).
Proof.
  intros Hwf. split; [by apply boot_steady|].
  unfold synced, idle. simpl. done.
Qed.

Lemma in_step_step w e w' :
  in_step w → polite w e → step w e = Some w' → in_step w'.
Proof.
  intros [Hsteady Hs] Hpol Hstep. split; [by eapply step_steady|].
  intros Hm'. pose proof (step_mounted _ _ _ Hstep Hm') as Hm.
  destruct Hsteady as (? & _ & ?). eapply step_synced; eauto.
Qed.

(** C2, as the code has it.  Take any run of the event loop from a store
    with a well-formed table, in which this view is the only writer of the
    user's rows: creates and deletes of the signed-in user, replies,
    timers, and notifications delivered in any order or lost.  Suppose the
    view is still mounted, the store did not refuse the initial load, the
    fallback timers fired in the order in which they were set, as timers
    of one delay do, and Delete was never clicked on a record while the
    reply or a notification of that record's insert was still on its way.
    Then, once nothing is pending, the identifiers on the list are exactly
    the identifiers of the user's rows in the store. *)
Theorem eventual_consistency_when_polite st es w u :
  wf_store st → run es (boot st) = Some w → politely es (boot st) →
  mounted w = true → quiescent w → user (ui w) = Some u → User.id u ≠ "" →
  displayed w = stored (User.id u) w.
Proof.
  intros Hwf Hrun Hpol Hm (_ & Hrq & Hrs & Hts & Hfd) Hu Hne.
  assert (in_step w) as [_ Hs].
  { eapply (politely_invariant in_step);
      [apply in_step_step|by apply in_step_boot|done..]. }
  specialize (Hs Hm).
  unfold synced in Hs. rewrite Hu in Hs. destruct Hs as [_ Hs].
  specialize (Hs Hne). destruct (loading (ui w)).
  { destruct Hs as (_ & _ & _ & [[Hsel _]|[_ Hsel]]); congruence. }
  unfold displayed, stored. apply set_eq. intros x.
  rewrite !elem_of_list_to_set. fold (stored_ids (User.id u) (store w)). split.
  - intros Hx. destruct (agr_shown _ _ Hs x Hx) as [?|[[owner Hr]|Ht]]; [done|..].
    + rewrite Hrs in Hr. by apply elem_of_nil in Hr.
    + rewrite Hts in Ht. by apply elem_of_nil in Ht.
  - intros (b & Hb & <-)%stored_backed.
    destruct (agr_stored _ _ Hs b Hb) as [?|[[q Hr]|Ht]]; [done|..].
    + rewrite Hrs in Hr. by apply elem_of_nil in Hr.
    + rewrite Hts in Ht. by apply elem_of_nil in Ht.
Qed.

Lemma eventual_consistency_when_polite_witness :
  displayed after_polite_trace = stored "user-1" after_polite_trace.
Proof.
  apply (eventual_consistency_when_polite example_store polite_trace
           after_polite_trace example_user).
  - apply example_store_wf.
  - vm_compute. reflexivity.
  - apply (bool_decide_unpack _). vm_compute. exact I.
  - reflexivity.
  - by repeat split.
  - reflexivity.
  - discriminate.
Defined.


(** * Further properties of the code *)

(** ** What is on the page *)

Lemma render_page d c :
  render d = Page c →
  loading d = false ∧
  list_view c =
    (if fetchingBookmarks d then LoadingBookmarks
     else match bookmarks d with
          | [] => NoBookmarks
          | _ => Entries (render_entry (deleting d) <$> bookmarks d)
          end).
Proof.
  unfold render. destruct (loading d); [done|]. by intros [= <-].
Qed.

Lemma render_entries d c es :
  render d = Page c → list_view c = Entries es →
  loading d = false ∧ fetchingBookmarks d = false ∧
  es = render_entry (deleting d) <$> bookmarks d.
Proof.
  intros Hc Hes. apply render_page in Hc as [Hl Hlist]. rewrite Hes in Hlist.
  destruct (fetchingBookmarks d); [done|].
  destruct (bookmarks d) as [|b l]; [done|]. by injection Hlist as ->.
Qed.

Lemma keys_render_entry deleting (l : list Bookmark.t) :
  key <$> (render_entry deleting <$> l) = Bookmark.id <$> l.
Proof. rewrite <- list_fmap_compose. by apply list_fmap_ext. Qed.

(** X1.  While the component is mounted, the guards of the event loop are
    what the page shows: form and list can be used exactly when the page is
    past "Loading...", and the Delete button of an identifier can be
    clicked exactly when the list shows an entry with that key whose button
    is not disabled. *)
Theorem page_offers_what_the_loop_assumes (w : World) (id : string) :
  mounted w = true →
  (interactive w ↔ ∃ c, render (ui w) = Page c) ∧
  (clickable id w ↔
   ∃ c es e, render (ui w) = Page c ∧ list_view c = Entries es ∧
             e ∈ es ∧ key e = id ∧ delete_disabled e = false).
Proof.
  intros Hm. split.
  - unfold interactive, render. destruct (loading (ui w)).
    + split; [by intros [_ ?]|by intros [c ?]].
    + split; [by eauto|done].
  - unfold clickable, interactive. split.
    + intros ([_ Hl] & Hf & Hin & Hbusy).
      apply list_elem_of_fmap in Hin as (b & -> & Hb).
      unfold render. rewrite Hl, Hf.
      destruct (bookmarks (ui w)) as [|b0 l] eqn:Hbs; [by apply elem_of_nil in Hb|].
      eexists _, _, (render_entry (deleting (ui w)) b). split_and!; try done.
      * by apply list_elem_of_fmap_2.
      * simpl. by apply bool_decide_eq_false.
    + intros (c & es & e & Hc & Hes & He & <- & Hfree).
      destruct (render_entries _ _ _ Hc Hes) as (Hl & Hf & ->).
      apply list_elem_of_fmap in He as (b & -> & Hb). simpl in *.
      split_and!; try done.
      * by apply list_elem_of_fmap_2.
      * by apply bool_decide_eq_false in Hfree.
Qed.

Lemma page_offers_what_the_loop_assumes_witness :
  clickable "1" after_insert ∧ ¬ clickable "1" while_deleting.
Proof.
  destruct (page_offers_what_the_loop_assumes after_insert "1" eq_refl) as [_ H1].
  destruct (page_offers_what_the_loop_assumes while_deleting "1" eq_refl) as [_ H2].
  split.
  - apply H1. eexists _, _, (render_entry None row_1).
    split_and!; try reflexivity. simpl. rewrite !elem_of_cons. auto.
  - intros (c & es & e & Hc & Hes & He & Hkey & Hfree)%H2.
    destruct (render_entries _ _ _ Hc Hes) as (_ & _ & ->). simpl in He.
    apply list_elem_of_singleton in He. subst e. discriminate.
Defined.

Lemma none_disabled (deleting : option string) (l : list Bookmark.t) :
  (∀ id, deleting = Some id → id ∉ Bookmark.id <$> l) →
  filter (λ e, delete_disabled e = true) (render_entry deleting <$> l) = [].
Proof.
  induction l as [|b l IH]; [done|]. intros Hno. rewrite fmap_cons.
  rewrite filter_cons_False.
  - apply IH. intros id Hid. specialize (Hno id Hid).
    rewrite fmap_cons, not_elem_of_cons in Hno. tauto.
  - simpl. rewrite bool_decide_eq_true. intros Hd. apply (Hno _ Hd).
    rewrite fmap_cons. apply elem_of_cons. by left.
Qed.

Lemma at_most_one_disabled (deleting : option string) (l : list Bookmark.t) :
  NoDup (Bookmark.id <$> l) →
  (length (filter (λ e, delete_disabled e = true) (render_entry deleting <$> l)) ≤ 1)%nat.
Proof.
  induction l as [|b l IH]; [simpl; lia|].
  rewrite !fmap_cons, NoDup_cons. intros [Hb Hl].
  destruct (decide (delete_disabled (render_entry deleting b) = true)) as [Hd|Hd].
  - rewrite filter_cons_True by done. rewrite none_disabled; [simpl; lia|].
    simpl in Hd. apply bool_decide_eq_true in Hd. intros id Hid. congruence.
  - rewrite filter_cons_False by done. by apply IH.
Qed.

(** X2.  In every state the event loop reaches, the entries of the rendered
    list have distinct keys and at most one of them has its Delete button
    disabled, which then reads "Deleting...".  While the component is
    mounted, that one is the entry whose delete is in flight. *)
Theorem rendered_entries_are_distinct (w : World) (c : Content) (es : list EntryView) :
  reachable w → render (ui w) = Page c → list_view c = Entries es →
  NoDup (key <$> es) ∧
  (length (filter (λ e, delete_disabled e = true) es) ≤ 1)%nat ∧
  (∀ e, e ∈ es → delete_disabled e = true →
        delete_label e = "Deleting..." ∧
        (mounted w = true →
         ∃ u, user (ui w) = Some u ∧
              deletes_in_flight w ≡ₚ [Delete (key e) (User.id u)])).
Proof.
  intros Hw Hc Hes. destruct (render_entries _ _ _ Hc Hes) as (_ & _ & ->).
  destruct (reachable_sane w Hw) as [_ [Hnd _] _ _ _]. split_and!.
  - by rewrite keys_render_entry.
  - by apply at_most_one_disabled.
  - intros e (b & -> & Hb)%list_elem_of_fmap Hd. simpl in *. rewrite Hd.
    split; [done|]. intros Hm. apply bool_decide_eq_true in Hd.
    pose proof (reachable_marker w Hw Hm) as Ht.
    unfold marker_tracks in Ht. rewrite Hd in Ht.
    destruct Ht as (_ & u & Hu & Ht). by exists u.
Qed.

Lemma while_deleting_second_reachable : reachable while_deleting_second.
Proof.
  exists example_store, deleting_second_trace. split; [apply example_store_wf|].
  vm_compute. reflexivity.
Defined.

Lemma rendered_entries_are_distinct_witness :
  delete_label (render_entry (Some "1") row_1) = "Deleting..." ∧
  (mounted while_deleting_second = true →
   ∃ u, user (ui while_deleting_second) = Some u ∧
        deletes_in_flight while_deleting_second ≡ₚ [Delete "1" (User.id u)]).
Proof.
  apply (proj2 (proj2 (rendered_entries_are_distinct while_deleting_second _ _
                         while_deleting_second_reachable eq_refl eq_refl))
           (render_entry (Some "1") row_1)).
  - simpl. rewrite !elem_of_cons. auto.
  - reflexivity.
Defined.

(** ** The two loading flags *)

Lemma in_flight_dispatch (h : Handler) w :
  in_flight (dispatch h w) ≡ₚ in_flight w ++ awaited (h (ui w)).2.
Proof.
  unfold in_flight. autorewrite with dispatch.
  by rewrite <- !(assoc (++)), (comm (++) (awaited _)).
Qed.

Lemma fetch_neutral_set (h : Handler) :
  (∀ d, fetchingBookmarks (h d).1 = fetchingBookmarks d ∧
        loading (h d).1 = loading d ∧ awaited (h d).2 = []) →
  fetch_neutral h.
Proof. intros H d. destruct (H d) as (-> & -> & ->). done. Qed.

Lemma fetch_neutral_handleSubmit : fetch_neutral handleSubmit.
Proof.
  intros d. unfold handleSubmit. destruct (user d) eqn:E; [|done].
  by destruct (negb (truthy (title d)) || negb (truthy (url d))).
Qed.

Lemma fetch_neutral_handleDelete id : fetch_neutral (handleDelete id).
Proof.
  intros d. unfold handleDelete. destruct (user d) eqn:E; [|done].
  by destruct (truthy_opt (deleting d)).
Qed.

Lemma fetch_neutral_on_change u c : fetch_neutral (on_change u c).
Proof.
  apply fetch_neutral_set. intros d. rewrite awaited_on_change.
  destruct c as [new|old]; simpl; [|done].
  unfold onInsert. by case_bool_decide.
Qed.

Lemma fetch_neutral_fire t : fetch_neutral (fire t).
Proof. apply fetch_neutral_set. intros d. by destruct t. Qed.

Lemma fetch_neutral_resume q r : ¬ is_select q → fetch_neutral (resume q r).
Proof.
  intros Hq. apply fetch_neutral_set. intros d. rewrite awaited_resume.
  destruct q as [owner|owner title url|id owner]; simpl.
  - by destruct Hq.
  - unfold handleSubmit_resume. by destruct (Postgrest.error r).
  - unfold handleDelete_resume. by destruct (Postgrest.error r).
Qed.

Lemma fetch_tracks_neutral (h : Handler) w :
  fetch_neutral h → fetch_tracks w → mounted w = true →
  fetch_tracks (dispatch h w).
Proof.
  intros Hn Hw Hm. destruct (Hn (ui w)) as (Hf & Hl & Hnone).
  assert (selects_in_flight (dispatch h w) ≡ₚ selects_in_flight w) as Hperm.
  { unfold selects_in_flight. rewrite in_flight_dispatch, filter_app, Hnone.
    by rewrite app_nil_r. }
  unfold fetch_tracks in *. autorewrite with dispatch. rewrite Hf, Hl.
  destruct (fetchingBookmarks (ui w)).
  - destruct Hw as (? & owner & Hw). split; [done|]. exists owner. by rewrite Hperm.
  - rewrite Hw in Hperm. by apply Permutation_nil_r in Hperm.
Qed.

Lemma fetch_tracks_relabel w w' :
  ui w' = ui w → in_flight w' ≡ₚ in_flight w →
  fetch_tracks w → fetch_tracks w'.
Proof.
  intros Hui Hperm. unfold fetch_tracks, selects_in_flight.
  rewrite Hui. destruct (fetchingBookmarks (ui w)).
  - intros (? & owner & ?). split; [done|]. exists owner. by rewrite Hperm.
  - intros Hnone. apply Permutation_nil_r. by rewrite Hperm, Hnone.
Qed.

Lemma step_fetch w e w' :
  attended w → mounted w = true → fetch_tracks w → step w e = Some w' →
  fetch_tracks w'.
Proof.
  intros Hatt Hm Hw Hstep. apply step_inv in Hstep.
  destruct e as [session|v|v| |id| |i o|i|i|i|i| ].
  - (* GetSession: nothing was in flight, and "Loading..." is on *)
    destruct Hstep as [Hauth ->].
    assert (idle w) as (Hl & _ & Hrq & Hrs & _).
    { unfold attended in Hatt. destruct (user (ui w)); [congruence|auto]. }
    assert (selects_in_flight w = []) as Hnone.
    { unfold selects_in_flight, in_flight. by rewrite Hrq, Hrs. }
    assert (fetchingBookmarks (ui w) = false) as Hf.
    { unfold fetch_tracks in Hw. destruct (fetchingBookmarks (ui w)); [|done].
      destruct Hw as (_ & owner & Hw). rewrite Hnone in Hw.
      by apply Permutation_nil_cons in Hw. }
    assert (selects_in_flight (dispatch (checkAuth session) (resolved w)) ≡ₚ
            filter is_select (awaited (checkAuth session (ui w)).2)) as Hperm.
    { unfold selects_in_flight. rewrite in_flight_dispatch, filter_app.
      change (in_flight (resolved w)) with (in_flight w).
      fold (selects_in_flight w). by rewrite Hnone. }
    unfold fetch_tracks. autorewrite with dispatch. simpl.
    destruct session as [s|]; simpl in *.
    + unfold checkAuth, fetchBookmarks in *.
      destruct (truthy (User.id (Session.user s))); simpl in *.
      * split; [done|]. by exists (User.id (Session.user s)).
      * rewrite Hf. by apply Permutation_nil_r.
    + rewrite Hf. by apply Permutation_nil_r.
  - destruct Hstep as [_ ->]. by apply fetch_tracks_neutral; [apply fetch_neutral_set|..].
  - destruct Hstep as [_ ->]. by apply fetch_tracks_neutral; [apply fetch_neutral_set|..].
  - destruct Hstep as [_ ->]. by apply fetch_tracks_neutral; [apply fetch_neutral_handleSubmit|..].
  - destruct Hstep as [_ ->]. by apply fetch_tracks_neutral; [apply fetch_neutral_handleDelete|..].
  - destruct Hstep as [_ ->]. by apply fetch_tracks_neutral; [apply fetch_neutral_set|..].
  - (* Serve *)
    destruct Hstep as (q & st & r & cs & Hq & _ & ->).
    eapply fetch_tracks_relabel; [| |exact Hw]; [done|].
    unfold in_flight. simpl. by apply in_flight_served.
  - (* Reply *)
    destruct Hstep as (q & r & Hqr & ->).
    set (w1 := taken_reply i w).
    assert (in_flight w ≡ₚ q :: in_flight w1) as Hin
      by (by eapply in_flight_replied).
    assert (selects_in_flight w ≡ₚ filter is_select (q :: in_flight w1)) as Hsel
      by (unfold selects_in_flight; by rewrite Hin).
    destruct (decide (is_select q)) as [Hq|Hq].
    + destruct q as [owner| |]; try done.
      rewrite filter_cons_True in Hsel by done.
      assert (selects_in_flight w1 = []) as Hnone.
      { unfold fetch_tracks in Hw.
        destruct (fetchingBookmarks (ui w)).
        - destruct Hw as (_ & owner0 & Hw). rewrite Hw in Hsel.
          apply Permutation_singleton_l in Hsel. by simplify_eq.
        - rewrite Hw in Hsel. by apply Permutation_nil_cons in Hsel. }
      assert (selects_in_flight (dispatch (resume (Select owner) r) w1) ≡ₚ []) as Hperm.
      { unfold selects_in_flight. rewrite in_flight_dispatch, filter_app.
        fold (selects_in_flight w1). by rewrite Hnone, awaited_resume. }
      unfold fetch_tracks. autorewrite with dispatch. simpl.
      assert (fetchingBookmarks
                ((fetchBookmarks_resume r >> setLoading false) (ui w)).1 = false) as ->.
      { unfold fetchBookmarks_resume. destruct (Postgrest.error r); [done|].
        by destruct (Postgrest.data r). }
      by apply Permutation_nil_r.
    + apply fetch_tracks_neutral; [by apply fetch_neutral_resume| |done].
      rewrite filter_cons_False in Hsel by done.
      unfold fetch_tracks in *. simpl.
      destruct (fetchingBookmarks (ui w)).
      * destruct Hw as (? & owner & Hw). split; [done|].
        exists owner. fold (selects_in_flight w1) in Hsel. by rewrite <- Hsel.
      * rewrite Hw in Hsel. symmetry in Hsel. by apply Permutation_nil_r in Hsel.
  - (* Notify *)
    destruct Hstep as (c & _ & ->).
    destruct (channel w) as [u|].
    + apply fetch_tracks_neutral; [apply fetch_neutral_on_change| |done].
      by eapply fetch_tracks_relabel; [| |exact Hw].
    + by eapply fetch_tracks_relabel; [| |exact Hw].
  - destruct Hstep as (c & _ & ->).
    by eapply fetch_tracks_relabel; [| |exact Hw].
  - destruct Hstep as (t & _ & ->).
    apply fetch_tracks_neutral; [apply fetch_neutral_fire| |done].
    by eapply fetch_tracks_relabel; [| |exact Hw].
  - destruct Hstep as [_ ->].
    by eapply fetch_tracks_relabel; [| |exact Hw].
Qed.

Lemma reachable_fetch w : reachable w → mounted w = true → fetch_tracks w.
Proof.
  apply (mounted_invariant fetch_tracks); [|done].
  intros w1 e w2 (_ & Hatt & _) Hw Hm _ Hstep. by eapply step_fetch.
Qed.

(** [fetchingBookmarks] is never set without [loading]. *)
Lemma reachable_fetching_loading w :
  reachable w → fetchingBookmarks (ui w) = true → loading (ui w) = true.
Proof.
  apply (frozen_invariant (λ d, fetchingBookmarks d = true → loading d = true)).
  clear w. intros w Hw Hm Hf. pose proof (reachable_fetch w Hw Hm) as Ht.
  unfold fetch_tracks in Ht. rewrite Hf in Ht. by destruct Ht.
Qed.

Lemma selects_in_flight_dispatch (h : Handler) w :
  selects_in_flight (dispatch h w) ≡ₚ
  selects_in_flight w ++ filter is_select (awaited (h (ui w)).2).
Proof.
  unfold selects_in_flight. by rewrite in_flight_dispatch, filter_app.
Qed.

Lemma select_once_neutral (h : Handler) w :
  fetch_neutral h → select_once w → select_once (dispatch h w).
Proof.
  intros Hn Hw. destruct (Hn (ui w)) as (_ & _ & Hnone).
  unfold select_once in *. autorewrite with dispatch.
  by rewrite selects_in_flight_dispatch, Hnone, app_nil_r.
Qed.

Lemma select_once_relabel w w' :
  auth_pending w' = auth_pending w → in_flight w' ≡ₚ in_flight w →
  select_once w → select_once w'.
Proof.
  unfold select_once, selects_in_flight. intros -> Hperm. by rewrite Hperm.
Qed.

(** The select is sent once, when [getSession] resolves, mounted or not. *)
Lemma step_select_once w e w' :
  select_once w → step w e = Some w' → select_once w'.
Proof.
  intros Hw Hstep. apply step_inv in Hstep.
  destruct e as [session|v|v| |id| |i o|i|i|i|i| ].
  - destruct Hstep as [Hauth ->]. unfold select_once in *.
    rewrite Hauth in Hw. autorewrite with dispatch. simpl.
    rewrite selects_in_flight_dispatch, length_app.
    change (selects_in_flight (resolved w)) with (selects_in_flight w).
    assert (length (filter is_select
                      (awaited (checkAuth session (ui (resolved w))).2)) ≤ 1)%nat.
    { destruct session as [s|]; simpl; [|lia]. unfold checkAuth, fetchBookmarks.
      destruct (truthy (User.id (Session.user s))); simpl; lia. }
    lia.
  - destruct Hstep as [_ ->]. by apply select_once_neutral; [apply fetch_neutral_set|].
  - destruct Hstep as [_ ->]. by apply select_once_neutral; [apply fetch_neutral_set|].
  - destruct Hstep as [_ ->]. by apply select_once_neutral; [apply fetch_neutral_handleSubmit|].
  - destruct Hstep as [_ ->]. by apply select_once_neutral; [apply fetch_neutral_handleDelete|].
  - destruct Hstep as [_ ->]. by apply select_once_neutral; [apply fetch_neutral_set|].
  - destruct Hstep as (q & st & r & cs & Hq & _ & ->).
    eapply select_once_relabel; [| |exact Hw]; [done|].
    unfold in_flight. simpl. by apply in_flight_served.
  - destruct Hstep as (q & r & Hqr & ->).
    set (w1 := taken_reply i w).
    assert (in_flight w ≡ₚ q :: in_flight w1) as Hin
      by (by eapply in_flight_replied).
    unfold select_once in *. autorewrite with dispatch. simpl.
    rewrite selects_in_flight_dispatch, awaited_resume, app_nil_r.
    unfold selects_in_flight in *. rewrite Hin in Hw.
    destruct (decide (is_select q)).
    + rewrite filter_cons_True in Hw by done. simpl in Hw. lia.
    + by rewrite filter_cons_False in Hw.
  - destruct Hstep as (c & _ & ->).
    destruct (channel w) as [u|].
    + apply select_once_neutral; [apply fetch_neutral_on_change|].
      by eapply select_once_relabel; [| |exact Hw].
    + by eapply select_once_relabel; [| |exact Hw].
  - destruct Hstep as (c & _ & ->).
    by eapply select_once_relabel; [| |exact Hw].
  - destruct Hstep as (t & _ & ->).
    apply select_once_neutral; [apply fetch_neutral_fire|].
    by eapply select_once_relabel; [| |exact Hw].
  - destruct Hstep as [_ ->].
    by eapply select_once_relabel; [| |exact Hw].
Qed.

Lemma reachable_select_once w : reachable w → select_once w.
Proof.
  intros (st & es & Hwf & Hrun).
  apply (run_invariant select_once) with es (boot st);
    [apply step_select_once| |done].
  unfold select_once. simpl. lia.
Qed.

(** X3.  In every state the event loop reaches, at most one select is in
    flight; while the component is mounted, [fetchingBookmarks] is set
    exactly while it is; and [loading] is still set whenever
    [fetchingBookmarks] is: the page never shows "Loading bookmarks..." in
    place of the list, because the whole page is still "Loading..." for as
    long as the initial fetch lasts. *)
Theorem list_placeholder_is_never_shown (w : World) :
  reachable w →
  (length (selects_in_flight w) ≤ 1)%nat ∧
  (mounted w = true →
   (fetchingBookmarks (ui w) = true ↔ selects_in_flight w ≠ [])) ∧
  (fetchingBookmarks (ui w) = true → render (ui w) = LoadingScreen) ∧
  (∀ c, render (ui w) = Page c → list_view c ≠ LoadingBookmarks).
Proof.
  intros Hw. pose proof (reachable_fetching_loading w Hw) as Hfl. split_and!.
  - pose proof (reachable_select_once w Hw) as Hs. unfold select_once in Hs. lia.
  - intros Hm. pose proof (reachable_fetch w Hw Hm) as Hf.
    unfold fetch_tracks in Hf. destruct (fetchingBookmarks (ui w)).
    + destruct Hf as (_ & owner & Hf). split; [|done]. intros _ Hnil.
      rewrite Hnil in Hf. by apply Permutation_nil_cons in Hf.
    + split; [done|]. by intros [].
  - intros Hf. unfold render. by rewrite (Hfl Hf).
  - intros c Hc. pose proof Hc as (Hl & ->)%render_page.
    destruct (fetchingBookmarks (ui w)); [|by destruct (bookmarks (ui w))].
    rewrite Hfl in Hl; done.
Qed.

Lemma while_loading_reachable : reachable while_loading.
Proof.
  exists example_store, [GetSession (Some (Session.mk example_user))].
  split; [apply example_store_wf|]. vm_compute. reflexivity.
Defined.

Lemma list_placeholder_is_never_shown_witness :
  (fetchingBookmarks (ui while_loading) = true ↔
   selects_in_flight while_loading ≠ []) ∧
  render (ui while_loading) = LoadingScreen.
Proof.
  destruct (list_placeholder_is_never_shown while_loading while_loading_reachable)
    as (_ & H2 & H3 & _).
  split; [by apply H2|by apply H3].
Defined.

Lemma loading_checkAuth session d :
  loading d = false → loading (checkAuth session d).1 = false.
Proof.
  intros Hl. destruct session as [s|]; [|done].
  unfold checkAuth, fetchBookmarks.
  by destruct (truthy (User.id (Session.user s))).
Qed.

Lemma loading_resume q r d :
  loading d = false → loading (resume q r d).1 = false.
Proof.
  intros Hl. destruct q as [owner|owner title url|id owner]; simpl.
  - unfold fetchBookmarks_resume. destruct (Postgrest.error r); [done|].
    by destruct (Postgrest.data r).
  - unfold handleSubmit_resume. by destruct (Postgrest.error r).
  - unfold handleDelete_resume. by destruct (Postgrest.error r).
Qed.

Lemma loading_dispatch (h : Handler) w :
  loading (ui w) = false → loading (h (ui w)).1 = false →
  loading (ui (dispatch h w)) = false.
Proof. intros Hl Hh. rewrite ui_dispatch. by destruct (mounted w). Qed.

Lemma step_loaded w e w' :
  loading (ui w) = false → step w e = Some w' → loading (ui w') = false.
Proof.
  intros Hl Hstep. apply step_inv in Hstep.
  destruct e as [session|v|v| |id| |i o|i|i|i|i| ].
  - destruct Hstep as [_ ->].
    apply (loading_dispatch _ (resolved w)); [done|]. by apply loading_checkAuth.
  - destruct Hstep as [_ ->]. by apply loading_dispatch.
  - destruct Hstep as [_ ->]. by apply loading_dispatch.
  - destruct Hstep as [_ ->]. apply loading_dispatch; [done|].
    destruct (keeps_session_handleSubmit (ui w)). congruence.
  - destruct Hstep as [_ ->]. apply loading_dispatch; [done|].
    destruct (keeps_session_handleDelete id (ui w)). congruence.
  - destruct Hstep as [_ ->]. by apply loading_dispatch.
  - by destruct Hstep as (q & st & r & cs & _ & _ & ->).
  - destruct Hstep as (q & r & _ & ->).
    apply (loading_dispatch _ (taken_reply i w)); [done|]. by apply loading_resume.
  - destruct Hstep as (c & _ & ->). destruct (channel w) as [u|]; [|done].
    apply (loading_dispatch _ (taken_change i w)); [done|].
    destruct (keeps_session_on_change u c (ui (taken_change i w))). simpl in *.
    congruence.
  - by destruct Hstep as (c & _ & ->).
  - destruct Hstep as (t & _ & ->).
    apply (loading_dispatch _ (taken_timer i w)); [done|].
    destruct (keeps_session_fire t (ui (taken_timer i w))). simpl in *. congruence.
  - by destruct Hstep as [_ ->].
Qed.

(** The page is past "Loading..." only for a signed-in user. *)
Lemma reachable_signed_in w :
  reachable w → loading (ui w) = false → is_Some (user (ui w)).
Proof.
  apply (frozen_invariant (λ d, loading d = false → is_Some (user d))).
  clear w. intros w Hw Hm Hl. destruct (reachable_steady w Hw) as (_ & Hatt & _).
  by apply interactive_signed_in.
Qed.

(** X4.  Once the page is shown in a state the event loop reaches, no
    further event brings "Loading..." back, and the page keeps showing the
    same signed-in user: nothing calls [setLoading(true)], and [setUser] is
    called once, before the page is shown. *)
Theorem page_stays (w w' : World) (es : list Event) (c : Content) :
  reachable w → run es w = Some w' → render (ui w) = Page c →
  is_Some (user_id_card c) ∧
  ∃ c', render (ui w') = Page c' ∧
        welcome c' = welcome c ∧ user_id_card c' = user_id_card c.
Proof.
  intros Hw Hrun Hc. destruct (reachable_steady w Hw) as (_ & Hatt & _).
  assert (loading (ui w) = false) as Hl by by apply render_page in Hc as [? _].
  assert (∃ u, user (ui w) = Some u ∧ auth_pending w = false) as (u & Hu & Hauth).
  { destruct (reachable_signed_in w Hw Hl) as [u Hu]. exists u. split; [done|].
    unfold attended in Hatt. by rewrite Hu in Hatt. }
  assert (loading (ui w') = false ∧ user (ui w') = Some u ∧ auth_pending w' = false)
    as (Hl' & Hu' & _).
  { apply (run_invariant
             (λ w, loading (ui w) = false ∧ user (ui w) = Some u ∧
                   auth_pending w = false)) with es w; [|done|done].
    intros w1 e w2 (? & ? & ?) Hstep.
    destruct (step_user w1 e w2) as [Heq ?]; [done..|].
    split_and!; [by eapply step_loaded|congruence|done]. }
  unfold render in *. rewrite Hl in Hc. rewrite Hl'. injection Hc as <-. simpl.
  rewrite Hu, Hu'. split; [by eexists|]. by eexists.
Qed.

Lemma page_stays_witness :
  ∃ c', render (ui after_later_trace) = Page c' ∧
        welcome c' = Some "one@example.com" ∧ user_id_card c' = Some "user-1".
Proof.
  refine (proj2 (page_stays after_insert after_later_trace later_trace _
                   after_insert_reachable _ eq_refl)).
  vm_compute. reflexivity.
Defined.

(** ** A visitor without a session *)

(** X5.  When [getSession] resolves without a session, [checkAuth] pushes
    "/" and returns.  Whatever happens afterwards, the component keeps its
    initial state and stays on "Loading...": no query is ever sent, no
    channel is subscribed, no timer is set, and the store is not touched. *)
Theorem no_session_no_dashboard (st : Store) (es : list Event) (w : World) :
  run (GetSession None :: es) (boot st) = Some w →
  (∀ d, checkAuth None d = (d, [RouterPush "/"])) ∧
  ui w = initial ∧ render (ui w) = LoadingScreen ∧ channel w = None ∧
  requests w = [] ∧ responses w = [] ∧ timers w = [] ∧ feed w = [] ∧
  store w = st.
Proof.
  intros Hrun. split; [done|]. simpl in Hrun.
  set (P := λ w : World,
         ui w = initial ∧ auth_pending w = false ∧ channel w = None ∧
         requests w = [] ∧ responses w = [] ∧ timers w = [] ∧ feed w = [] ∧
         store w = st).
  assert (P w) as (Hui & _ & ? & ? & ? & ? & ? & ?).
  { apply (run_invariant P) with es
      (dispatch (checkAuth None) (resolved (boot st))); [|by repeat split|done].
    clear. intros w e w' (Hui & Hauth & Hch & Hrq & Hrs & Hts & Hfd & Hst) Hstep.
    apply step_inv in Hstep.
    destruct e as [session|v|v| |id| |i o|i|i|i|i| ].
    - destruct Hstep as [? _]. congruence.
    - destruct Hstep as [[_ Hl] _]. by rewrite Hui in Hl.
    - destruct Hstep as [[_ Hl] _]. by rewrite Hui in Hl.
    - destruct Hstep as [[_ Hl] _]. by rewrite Hui in Hl.
    - destruct Hstep as [[[_ Hl] _] _]. by rewrite Hui in Hl.
    - destruct Hstep as [[_ Hl] _]. by rewrite Hui in Hl.
    - destruct Hstep as (q & _ & _ & _ & Hq & _). by rewrite Hrq in Hq.
    - destruct Hstep as (q & r & Hq & _). by rewrite Hrs in Hq.
    - destruct Hstep as (c & Hc & _). by rewrite Hfd in Hc.
    - destruct Hstep as (c & Hc & _). by rewrite Hfd in Hc.
    - destruct Hstep as (t & Ht & _). by rewrite Hts in Ht.
    - destruct Hstep as [_ ->]. by repeat split. }
  rewrite Hui. by repeat split.
Qed.

Lemma no_session_no_dashboard_witness :
  requests (unmounted (resolved (boot example_store))) = [].
Proof.
  refine (proj1 (proj2 (proj2 (proj2 (proj2
    (no_session_no_dashboard example_store (tail anonymous_trace)
       (unmounted (resolved (boot example_store))) eq_refl)))))).
Defined.

(** ** Whose rows are shown *)

Lemma all_owned_insert_updater owner new current :
  Bookmark.user_id new = owner → all_owned owner current →
  all_owned owner (insert_updater new current).
Proof.
  intros Hnew Hall. unfold insert_updater. destruct (some _ current); [done|].
  by apply Forall_cons.
Qed.

Lemma all_owned_delete_updater owner id current :
  all_owned owner current → all_owned owner (delete_updater id current).
Proof. apply Forall_filtered. Qed.

Lemma all_owned_fire owner t d :
  timer_owned owner t → all_owned owner (bookmarks d) →
  all_owned owner (bookmarks (fire t d).1).
Proof.
  destruct t as [[[|data0 rest]|]|id]; simpl; try done.
  - intros [Hown _]%Forall_cons Hall.
    fold (insert_fallback_updater (Some (data0 :: rest)) (bookmarks d)).
    rewrite insert_fallback_updater_head. by apply all_owned_insert_updater.
  - intros _ Hall. rewrite delete_fallback_updater_eq.
    by apply all_owned_delete_updater.
Qed.

Lemma all_owned_on_change u c d :
  all_owned (User.id u) (bookmarks d) →
  all_owned (User.id u) (bookmarks (on_change u c d).1).
Proof.
  intros Hall. destruct c as [new|old]; simpl.
  - unfold onInsert. case_bool_decide; [|done]. simpl.
    by apply all_owned_insert_updater.
  - by apply all_owned_delete_updater.
Qed.

Lemma serve_owned q o st st' r cs :
  serve q o st = Some (st', r, cs) →
  all_owned (owner_of q) (default [] (Postgrest.data r)).
Proof.
  unfold all_owned.
  destruct o as [message|uuid now]; simpl; [by intros [= <- <- <-]|].
  destruct q as [owner|owner title url|id owner]; simpl.
  - intros [= <- <- <-]. simpl. apply Forall_forall.
    by intros b [? _]%elem_of_select_rows.
  - intros Hs. simplify_option_eq. by apply Forall_singleton.
  - intros Hs. by simplify_option_eq.
Qed.

Lemma handleSubmit_awaited (d : Dashboard) q :
  q ∈ awaited (handleSubmit d).2 →
  ∃ u, user d = Some u ∧ q = Insert (User.id u) (title d) (url d).
Proof.
  unfold handleSubmit. destruct (user d) as [u|]; simpl.
  - destruct (negb (truthy (title d)) || negb (truthy (url d))); simpl.
    + by intros ?%elem_of_nil.
    + intros ?%list_elem_of_singleton. eauto.
  - by intros ?%elem_of_nil.
Qed.

(** What a handler must do for [owning] to carry over. *)
Lemma owning_dispatch (h : Handler) owner w :
  all_owned owner (bookmarks (ui w)) →
  all_owned owner (bookmarks (h (ui w)).1) →
  Forall (λ q, owner_of q = owner) (awaited (h (ui w)).2) →
  Forall (timer_owned owner) (scheduled (h (ui w)).2) →
  Forall (λ q, owner_of q = owner) (requests w) →
  Forall (reply_owned owner) (responses w) →
  Forall (timer_owned owner) (timers w) →
  owning owner (dispatch h w).
Proof.
  intros. split; autorewrite with dispatch; try done; try by apply Forall_app.
  rewrite ui_dispatch. by destruct (mounted w).
Qed.

Lemma step_own w e w' :
  steady w → own_only w → step w e = Some w' → own_only w'.
Proof.
  intros (_ & Hatt & Hch) Hw Hstep. unfold own_only in *.
  destruct (user (ui w)) as [u|] eqn:Hu.
  - (* someone is signed in, and stays *)
    unfold attended in Hatt. rewrite Hu in Hatt.
    destruct (step_user _ _ _ Hatt Hstep) as [Hu' _]. rewrite Hu', Hu.
    destruct Hw as [Hbm Hrq Hrs Hts]. apply step_inv in Hstep.
    destruct e as [session|v|v| |id| |i o|i|i|i|i| ].
    + destruct Hstep as [? _]. congruence.
    + destruct Hstep as [_ ->]. by apply owning_dispatch.
    + destruct Hstep as [_ ->]. by apply owning_dispatch.
    + destruct Hstep as [_ ->].
      destruct (handleSubmit_bookmarks (ui w)) as [Hb Hs].
      apply owning_dispatch; try done.
      * by rewrite Hb.
      * apply Forall_forall. intros q (u0 & ? & ->)%handleSubmit_awaited.
        simpl. congruence.
      * by rewrite Hs.
    + destruct Hstep as [_ ->].
      destruct (handleDelete_bookmarks id (ui w)) as [Hb Hs].
      apply owning_dispatch; try done.
      * by rewrite Hb.
      * apply Forall_forall. intros q (u0 & ? & ->)%handleDelete_awaited.
        simpl. congruence.
      * by rewrite Hs.
    + destruct Hstep as [_ ->]. by apply owning_dispatch.
    + (* Serve *)
      destruct Hstep as (q & st & r & cs & Hq & Hserve & ->).
      pose proof (Forall_lookup_1 _ _ _ _ Hrq Hq) as Hown. simpl in Hown.
      split; simpl; try done.
      * by apply Forall_delete.
      * apply Forall_app. split; [done|]. apply Forall_singleton.
        split; [done|]. simpl. rewrite <- Hown. by eapply serve_owned.
    + (* Reply *)
      destruct Hstep as (q & r & Hqr & ->).
      destruct (Forall_lookup_1 _ _ _ _ Hrs Hqr) as [Hown Hdata]. simpl in *.
      apply owning_dispatch; simpl; try done.
      * destruct q as [owner|owner title url|id owner]; simpl.
        -- unfold fetchBookmarks_resume. destruct (Postgrest.error r); [done|].
           by destruct (Postgrest.data r).
        -- unfold handleSubmit_resume. by destruct (Postgrest.error r).
        -- unfold handleDelete_resume. by destruct (Postgrest.error r).
      * by rewrite awaited_resume.
      * destruct q as [owner|owner title url|id owner]; simpl.
        -- unfold fetchBookmarks_resume. destruct (Postgrest.error r); [done|].
           by destruct (Postgrest.data r).
        -- unfold handleSubmit_resume. destruct (Postgrest.error r); [done|].
           by apply Forall_singleton.
        -- unfold handleDelete_resume. destruct (Postgrest.error r); [done|].
           by apply Forall_singleton.
      * by apply Forall_delete.
    + (* Notify: the callback closed over the signed-in user *)
      destruct Hstep as (c & _ & ->).
      destruct (channel w) as [u0|] eqn:Hc; [|by split].
      assert (u0 = u) as ->.
      { unfold channel_follows in Hch. rewrite Hc, Hu in Hch.
        destruct (mounted w); congruence. }
      apply owning_dispatch; simpl; try done.
      * by apply all_owned_on_change.
      * by rewrite awaited_on_change.
      * by rewrite scheduled_on_change.
    + destruct Hstep as (c & _ & ->). by split.
    + (* Tick *)
      destruct Hstep as (t & Ht & ->).
      pose proof (Forall_lookup_1 _ _ _ _ Hts Ht) as Hown.
      apply owning_dispatch; simpl; try done.
      * by apply all_owned_fire.
      * by rewrite awaited_fire.
      * by rewrite scheduled_fire.
      * by apply Forall_delete.
    + destruct Hstep as [_ ->]. by split.
  - (* nobody is signed in yet *)
    unfold attended in Hatt. rewrite Hu in Hatt.
    destruct (mounted w) eqn:Hm.
    2: { destruct (step_frozen _ _ _ Hm Hstep) as [-> _]. by rewrite Hu. }
    specialize (Hatt eq_refl).
    destruct (step_idle _ _ _ Hu Hatt Hstep) as [[-> ?]|(s & -> & ->)]; [done|].
    destruct Hatt as (_ & Hb & Hrq & Hrs & Hts & _).
    autorewrite with dispatch. rewrite user_checkAuth.
    destruct (quiet_checkAuth (Some s) (ui w)) as [Hbm Hsch].
    apply owning_dispatch; cbn [resolved ui requests responses timers];
      rewrite ?Hrq, ?Hrs, ?Hts; try done.
    + rewrite Hb. constructor.
    + rewrite Hbm, Hb. constructor.
    + unfold checkAuth, fetchBookmarks.
      destruct (truthy (User.id (Session.user s))); simpl; [|done].
      by apply Forall_singleton.
    + by rewrite Hsch.
Qed.

Lemma reachable_own w : reachable w → own_only w.
Proof.
  intros (st & es & Hwf & Hrun).
  apply (run_invariant (λ w, steady w ∧ own_only w)) with es (boot st);
    [|split; [by apply boot_steady|by repeat split]|done].
  intros w1 e w2 [Hs Hm] Hstep. split; [by eapply step_steady|by eapply step_own].
Qed.

(** X6.  In every state the event loop reaches with a user signed in,
    every row on the list, every query in flight and every row a pending
    reply or fallback timer carries belongs to that user: the select and
    the insert are built from [user.id], and the INSERT callback drops a
    payload of another owner.  The store is taken to apply the filter of
    the select. *)
Theorem only_own_rows_are_shown (w : World) (u : User.t) :
  reachable w → user (ui w) = Some u →
  (∀ b, b ∈ bookmarks (ui w) → Bookmark.user_id b = User.id u) ∧
  (∀ q, q ∈ in_flight w → owner_of q = User.id u) ∧
  (∀ data b, InsertFallback (Some data) ∈ timers w → b ∈ data →
             Bookmark.user_id b = User.id u).
Proof.
  intros Hw Hu. pose proof (reachable_own w Hw) as Hown.
  unfold own_only in Hown. rewrite Hu in Hown.
  destruct Hown as [Hbm Hrq Hrs Hts]. split_and!.
  - by apply Forall_forall.
  - intros q. unfold in_flight. rewrite elem_of_app, list_elem_of_fmap.
    intros [Hq|([q0 r] & -> & Hq)].
    + by apply (proj1 (Forall_forall _ _) Hrq).
    + by apply (proj1 (Forall_forall _ _) Hrs) in Hq as [? _].
  - intros data b Ht Hb.
    apply (proj1 (Forall_forall _ _) Hts) in Ht. simpl in Ht.
    by apply (proj1 (Forall_forall _ _) Ht).
Qed.

Lemma only_own_rows_are_shown_witness :
  Bookmark.user_id row_2 = User.id example_user.
Proof.
  apply (proj1 (only_own_rows_are_shown after_insert example_user
                  after_insert_reachable eq_refl) row_2).
  simpl. apply elem_of_cons. by left.
Defined.

(** ** One insert in flight, as long as the button is respected *)

Lemma respects_invariant (ok : World → Event → Prop) (P : World → Prop) :
  (∀ w e w', P w → ok w e → step w e = Some w' → P w') →
  ∀ es w w', P w → respects ok es w → run es w = Some w' → P w'.
Proof.
  intros Hstep es. induction es as [|e es IH]; intros w w' Hw Hok Hrun;
    simpl in *.
  - by simplify_eq.
  - destruct Hok as [Hok Hrest].
    destruct (step w e) as [w1|] eqn:E; [|done]. simpl in Hrun. eauto.
Qed.

Lemma submit_neutral_set (h : Handler) :
  (∀ d, submitting (h d).1 = submitting d ∧ awaited (h d).2 = []) →
  submit_neutral h.
Proof. intros H d. destruct (H d) as (-> & ->). done. Qed.

Lemma submit_neutral_checkAuth session : submit_neutral (checkAuth session).
Proof.
  intros d. destruct session as [s|]; [|done].
  unfold checkAuth, fetchBookmarks.
  by destruct (truthy (User.id (Session.user s))).
Qed.

Lemma submit_neutral_handleDelete id : submit_neutral (handleDelete id).
Proof.
  intros d. unfold handleDelete. destruct (user d) eqn:E; [|done].
  by destruct (truthy_opt (deleting d)).
Qed.

Lemma submit_neutral_on_change u c : submit_neutral (on_change u c).
Proof.
  apply submit_neutral_set. intros d. rewrite awaited_on_change.
  destruct c as [new|old]; simpl; [|done].
  unfold onInsert. by case_bool_decide.
Qed.

Lemma submit_neutral_fire t : submit_neutral (fire t).
Proof. apply submit_neutral_set. intros d. by destruct t. Qed.

Lemma submit_neutral_resume q r : ¬ is_insert q → submit_neutral (resume q r).
Proof.
  intros Hq. apply submit_neutral_set. intros d. rewrite awaited_resume.
  destruct q as [owner|owner title url|id owner]; simpl.
  - unfold fetchBookmarks_resume. destruct (Postgrest.error r); [done|].
    by destruct (Postgrest.data r).
  - by destruct Hq.
  - unfold handleDelete_resume. by destruct (Postgrest.error r).
Qed.

Lemma inserts_in_flight_dispatch (h : Handler) w :
  inserts_in_flight (dispatch h w) ≡ₚ
  inserts_in_flight w ++ filter is_insert (awaited (h (ui w)).2).
Proof.
  unfold inserts_in_flight. by rewrite in_flight_dispatch, filter_app.
Qed.

Lemma submit_tracks_neutral (h : Handler) w :
  submit_neutral h → submit_tracks w → mounted w = true →
  submit_tracks (dispatch h w).
Proof.
  intros Hn Hw Hm. destruct (Hn (ui w)) as (Hs & Hnone).
  pose proof (inserts_in_flight_dispatch h w) as Hperm.
  rewrite Hnone, app_nil_r in Hperm.
  unfold submit_tracks in *. autorewrite with dispatch. rewrite Hs.
  destruct (submitting (ui w)).
  - destruct Hw as (q & Hw). exists q. by rewrite Hperm.
  - rewrite Hw in Hperm. by apply Permutation_nil_r in Hperm.
Qed.

Lemma submit_tracks_relabel w w' :
  ui w' = ui w → in_flight w' ≡ₚ in_flight w →
  submit_tracks w → submit_tracks w'.
Proof.
  intros Hui Hperm. unfold submit_tracks, inserts_in_flight.
  rewrite Hui. destruct (submitting (ui w)).
  - intros (q & ?). exists q. by rewrite Hperm.
  - intros Hnone. apply Permutation_nil_r. by rewrite Hperm, Hnone.
Qed.

Lemma offered_submit w :
  offered w Submit → submitting (ui w) = false.
Proof.
  simpl. unfold render. destruct (loading (ui w)); [done|]. simpl. done.
Qed.

Lemma handleSubmit_submitting (d : Dashboard) :
  (submitting (handleSubmit d).1 = submitting d ∧ awaited (handleSubmit d).2 = []) ∨
  (submitting (handleSubmit d).1 = true ∧
   ∃ q, is_insert q ∧ awaited (handleSubmit d).2 = [q]).
Proof.
  unfold handleSubmit. destruct (user d) as [u|]; [|by left].
  destruct (negb (truthy (title d)) || negb (truthy (url d))); [by left|].
  right. split; [done|]. by exists (Insert (User.id u) (title d) (url d)).
Qed.

Lemma step_submit w e w' :
  mounted w = true → submit_tracks w → offered w e → step w e = Some w' →
  submit_tracks w'.
Proof.
  intros Hm Hw Hok Hstep. apply step_inv in Hstep.
  destruct e as [session|v|v| |id| |i o|i|i|i|i| ].
  - destruct Hstep as [_ ->].
    apply submit_tracks_neutral; [apply submit_neutral_checkAuth| |done].
    by eapply submit_tracks_relabel; [| |exact Hw].
  - destruct Hstep as [_ ->]. by apply submit_tracks_neutral; [apply submit_neutral_set|..].
  - destruct Hstep as [_ ->]. by apply submit_tracks_neutral; [apply submit_neutral_set|..].
  - (* Submit: the button was enabled, so nothing was in flight *)
    destruct Hstep as [_ ->]. apply offered_submit in Hok.
    pose proof (inserts_in_flight_dispatch handleSubmit w) as Hperm.
    unfold submit_tracks in *. rewrite Hok in Hw. rewrite Hw in Hperm.
    autorewrite with dispatch.
    destruct (handleSubmit_submitting (ui w)) as [[-> Hnone]|[-> (q & Hq & Hone)]].
    + rewrite Hok. rewrite Hnone in Hperm. by apply Permutation_nil_r.
    + exists q. rewrite Hone in Hperm. simpl in Hperm.
      by rewrite filter_cons_True in Hperm.
  - destruct Hstep as [_ ->].
    by apply submit_tracks_neutral; [apply submit_neutral_handleDelete|..].
  - destruct Hstep as [_ ->]. by apply submit_tracks_neutral; [apply submit_neutral_set|..].
  - (* Serve *)
    destruct Hstep as (q & st & r & cs & Hq & _ & ->).
    eapply submit_tracks_relabel; [| |exact Hw]; [done|].
    unfold in_flight. simpl. by apply in_flight_served.
  - (* Reply *)
    destruct Hstep as (q & r & Hqr & ->).
    set (w1 := taken_reply i w).
    assert (in_flight w ≡ₚ q :: in_flight w1) as Hin
      by (by eapply in_flight_replied).
    assert (inserts_in_flight w ≡ₚ filter is_insert (q :: in_flight w1)) as Hins
      by (unfold inserts_in_flight; by rewrite Hin).
    destruct (decide (is_insert q)) as [Hq|Hq].
    + destruct q as [|owner title url|]; try done.
      rewrite filter_cons_True in Hins by done.
      assert (inserts_in_flight w1 = []) as Hnone.
      { unfold submit_tracks in Hw.
        destruct (submitting (ui w)).
        - destruct Hw as (q0 & Hw). rewrite Hw in Hins.
          apply Permutation_singleton_l in Hins. by simplify_eq.
        - rewrite Hw in Hins. by apply Permutation_nil_cons in Hins. }
      pose proof (inserts_in_flight_dispatch (resume (Insert owner title url) r) w1)
        as Hperm.
      rewrite awaited_resume, Hnone in Hperm. simpl in Hperm.
      unfold submit_tracks. autorewrite with dispatch. simpl.
      assert (submitting (handleSubmit_resume r (ui w)).1 = false) as ->.
      { unfold handleSubmit_resume. by destruct (Postgrest.error r). }
      by apply Permutation_nil_r.
    + apply submit_tracks_neutral; [by apply submit_neutral_resume| |done].
      rewrite filter_cons_False in Hins by done.
      unfold submit_tracks in *. simpl.
      destruct (submitting (ui w)).
      * destruct Hw as (q0 & Hw). exists q0.
        fold (inserts_in_flight w1) in Hins. by rewrite <- Hins.
      * rewrite Hw in Hins. symmetry in Hins. by apply Permutation_nil_r in Hins.
  - (* Notify *)
    destruct Hstep as (c & _ & ->).
    destruct (channel w) as [u|].
    + apply submit_tracks_neutral; [apply submit_neutral_on_change| |done].
      by eapply submit_tracks_relabel; [| |exact Hw].
    + by eapply submit_tracks_relabel; [| |exact Hw].
  - destruct Hstep as (c & _ & ->).
    by eapply submit_tracks_relabel; [| |exact Hw].
  - destruct Hstep as (t & _ & ->).
    apply submit_tracks_neutral; [apply submit_neutral_fire| |done].
    by eapply submit_tracks_relabel; [| |exact Hw].
  - destruct Hstep as [_ ->].
    by eapply submit_tracks_relabel; [| |exact Hw].
Qed.

(** Unmounted, the calls in flight can only go away, but for the initial
    select. *)
Lemma step_unmounted_in_flight (P : Query → Prop) `{!∀ q, Decision (P q)} w e w' :
  (∀ owner, ¬ P (Select owner)) → mounted w = false → step w e = Some w' →
  (length (filter P (in_flight w')) ≤ length (filter P (in_flight w)))%nat.
Proof.
  intros HP Hm Hstep. apply step_inv in Hstep.
  destruct e as [session|v|v| |id| |i o|i|i|i|i| ].
  - destruct Hstep as [_ ->]. rewrite in_flight_dispatch, filter_app.
    change (in_flight (resolved w)) with (in_flight w).
    assert (filter P (awaited (checkAuth session (ui (resolved w))).2) = []) as ->;
      [|by rewrite app_nil_r].
    destruct session as [s|]; [|done]. unfold checkAuth, fetchBookmarks.
    destruct (truthy (User.id (Session.user s))); [|done]. simpl.
    by rewrite filter_cons_False by apply HP.
  - destruct Hstep as [[? _] _]. congruence.
  - destruct Hstep as [[? _] _]. congruence.
  - destruct Hstep as [[? _] _]. congruence.
  - destruct Hstep as [[[? _] _] _]. congruence.
  - destruct Hstep as [[? _] _]. congruence.
  - destruct Hstep as (q & st & r & cs & Hq & _ & ->).
    unfold in_flight. simpl. by rewrite in_flight_served.
  - destruct Hstep as (q & r & Hqr & ->).
    rewrite in_flight_dispatch, awaited_resume, app_nil_r.
    unfold in_flight at 2.
    rewrite (in_flight_replied (requests w) (responses w) i q r Hqr).
    change (requests w ++ (delete i (responses w)).*1)
      with (in_flight (taken_reply i w)).
    destruct (decide (P q)).
    + rewrite filter_cons_True by done. simpl. lia.
    + by rewrite filter_cons_False.
  - destruct Hstep as (c & _ & ->). destruct (channel w) as [u|]; [|done].
    by rewrite in_flight_dispatch, awaited_on_change, app_nil_r.
  - by destruct Hstep as (c & _ & ->).
  - destruct Hstep as (t & _ & ->).
    by rewrite in_flight_dispatch, awaited_fire, app_nil_r.
  - destruct Hstep as [? _]. congruence.
Qed.

(** X7.  [handleSubmit] does not look at [submitting]: with a user signed
    in and both fields filled it sends an insert whatever the flag is.
    What keeps a second insert from being sent is the submit button, which
    the page disables while [submitting] is set.  In every run in which
    the form is only submitted while the button is enabled, at most one
    insert is in flight, and for as long as the component is mounted
    [submitting] is set exactly while one is. *)
Theorem one_insert_in_flight_when_offered (st : Store) (es : list Event) (w : World) :
  respects offered es (boot st) → run es (boot st) = Some w →
  (length (inserts_in_flight w) ≤ 1)%nat ∧
  (mounted w = true →
   (submitting (ui w) = true ↔ inserts_in_flight w ≠ [])) ∧
  (∀ d u, user d = Some u → title d ≠ "" → url d ≠ "" →
          awaited (handleSubmit d).2 = [Insert (User.id u) (title d) (url d)]).
Proof.
  intros Hok Hrun.
  assert ((mounted w = true → submit_tracks w) ∧
          (length (inserts_in_flight w) ≤ 1)%nat) as [Hw Hone].
  { apply (respects_invariant offered
             (λ w, (mounted w = true → submit_tracks w) ∧
                   (length (inserts_in_flight w) ≤ 1)%nat)) with es (boot st);
      [|split; [by intros _|simpl; lia]|exact Hok|exact Hrun].
    clear. intros w e w' [Hw Hone] Hok Hstep.
    destruct (mounted w) eqn:Hm.
    - specialize (Hw eq_refl).
      destruct (step_keeps_mounted _ _ _ Hstep) as [Hm'| ->]; [|by split].
      rewrite Hm in Hm'.
      pose proof (step_submit _ _ _ Hm Hw Hok Hstep) as Hw'.
      split; [done|]. unfold submit_tracks in Hw'.
      destruct (submitting (ui w')).
      + destruct Hw' as [q ->]. done.
      + rewrite Hw'. simpl. lia.
    - destruct (step_frozen _ _ _ Hm Hstep) as [_ Hm']. split; [congruence|].
      pose proof (step_unmounted_in_flight is_insert w e w') as Hle.
      unfold inserts_in_flight. etrans; [apply Hle; by auto|done]. }
  split_and!; [done| |].
  - intros Hm. specialize (Hw Hm). unfold submit_tracks in Hw.
    destruct (submitting (ui w)).
    + destruct Hw as (q & Hw). split; [|done]. intros _ Hnil.
      rewrite Hnil in Hw. by apply Permutation_nil_cons in Hw.
    + split; [done|]. by intros [].
  - intros d u Hu Ht Hurl. unfold handleSubmit, truthy. rewrite Hu.
    by rewrite !bool_decide_eq_true_2.
Qed.

Lemma one_insert_in_flight_when_offered_witness :
  submitting (ui after_offered_trace) = true ↔
  inserts_in_flight after_offered_trace ≠ [].
Proof.
  refine (proj1 (proj2 (one_insert_in_flight_when_offered example_store
                          offered_trace after_offered_trace _ _)) eq_refl).
  - apply (bool_decide_unpack _). vm_compute. exact I.
  - vm_compute. reflexivity.
Defined.

(** ** The form after a reply *)

(** X8.  What the form holds once the reply of an insert has been handled.
    After a success both fields are empty, whatever was typed while the
    insert was in flight, so that submitting again sends nothing and
    changes nothing.  After an error both fields are kept as they are at
    the reply and the message is set, so that submitting again sends an
    insert of what the form holds then and clears the message; that is the
    insert sent before when nothing was typed in between.  Either way
    [submitting] is cleared. *)
Theorem form_after_reply (r : Postgrest.response) (d : Dashboard) (u : User.t) :
  user d = Some u →
  let d' := (handleSubmit_resume r d).1 in
  submitting d' = false ∧ user d' = Some u ∧
  match Postgrest.error r with
  | None =>
      title d' = "" ∧ url d' = "" ∧ error d' = error d ∧
      handleSubmit d' = (d', [])
  | Some e =>
      title d' = title d ∧ url d' = url d ∧ is_Some (error d') ∧
      (title d ≠ "" → url d ≠ "" →
       (handleSubmit d').2 = [Await (Insert (User.id u) (title d) (url d))] ∧
       error (handleSubmit d').1 = None) ∧
      (∀ d0, user d0 = Some u → title d0 = title d → url d0 = url d →
             (handleSubmit d').2 = (handleSubmit d0).2)
  end.
Proof.
  intros Hu. unfold handleSubmit_resume.
  destruct (Postgrest.error r) as [e|]; simpl.
  - split_and!; try done.
    + intros Ht Hurl. unfold handleSubmit, truthy. simpl. rewrite Hu.
      by rewrite !bool_decide_eq_true_2.
    + intros d0 Hu0 Ht0 Hurl0. unfold handleSubmit. simpl.
      rewrite Hu, Hu0, Ht0, Hurl0.
      by destruct (negb (truthy (title d)) || negb (truthy (url d))).
  - split_and!; try done. unfold handleSubmit. simpl. by rewrite Hu.
Qed.

Lemma form_after_reply_witness :
  (handleSubmit (handleSubmit_resume (failed "offline") (ui after_offered_trace)).1).2 =
  [Await (Insert "user-1" "C" "https://c.example")].
Proof.
  destruct (form_after_reply (failed "offline") (ui after_offered_trace)
              example_user eq_refl) as (_ & _ & _ & _ & _ & H & _).
  by apply H.
Defined.

(** ** What the updaters do to the list *)

Lemma filter_all {A} (P : A → Prop) `{!∀ x, Decision (P x)} (l : list A) :
  Forall P l → filter P l = l.
Proof.
  induction 1 as [|a l Ha _ IH]; [done|].
  by rewrite filter_cons_True, IH.
Qed.

(** X9.  On a list with distinct identifiers, as the list of every
    reachable state is, the DELETE callback and the delete fallback remove
    exactly the entry with the given identifier: the entries before and
    after it stay, in their order. *)
Theorem delete_removes_one_entry (b : Bookmark.t) (before after : list Bookmark.t) :
  NoDup (Bookmark.id <$> (before ++ b :: after)) →
  delete_updater (Bookmark.id b) (before ++ b :: after) = before ++ after ∧
  delete_fallback_updater (Bookmark.id b) (before ++ b :: after) = before ++ after.
Proof.
  intros Hnd. rewrite delete_fallback_updater_eq.
  assert (delete_updater (Bookmark.id b) (before ++ b :: after) = before ++ after);
    [|done].
  rewrite fmap_app, fmap_cons in Hnd.
  apply NoDup_app in Hnd as (_ & Hbefore & [Hafter _]%NoDup_cons).
  unfold delete_updater. rewrite filter_app, filter_cons_False by naive_solver.
  rewrite !filter_all; [done|..]; apply Forall_forall; intros a Ha Heq.
  - apply Hafter. rewrite <- Heq. by apply list_elem_of_fmap_2.
  - apply (Hbefore (Bookmark.id a)); [by apply list_elem_of_fmap_2|].
    rewrite Heq. apply elem_of_cons. by left.
Qed.

Lemma delete_removes_one_entry_witness :
  delete_updater "1" [row_2; row_1] = [row_2].
Proof.
  refine (proj1 (delete_removes_one_entry row_1 [row_2] [] _)).
  apply (bool_decide_unpack _). vm_compute. exact I.
Defined.

Lemma StronglySorted_filter {A} (R : relation A) (P : A → Prop)
    `{!∀ x, Decision (P x)} (l : list A) :
  StronglySorted R l → StronglySorted R (filter P l).
Proof.
  induction 1 as [|a l Hl IH Ha]; [constructor|].
  destruct (decide (P a)).
  - rewrite filter_cons_True by done. constructor; [done|].
    by apply Forall_filtered.
  - by rewrite filter_cons_False.
Qed.

(** X10.  The list is loaded newest first.  Both ways of removing an entry
    keep it so.  A new entry is always prepended, which keeps the order
    when the new record is at least as new as the first entry, as a record
    just created is. *)
Theorem order_is_kept (current : list Bookmark.t) :
  Sorted newest_first current →
  (∀ id, Sorted newest_first (delete_updater id current) ∧
         Sorted newest_first (delete_fallback_updater id current)) ∧
  (∀ new rest,
     HdRel newest_first new current →
     Sorted newest_first (insert_updater new current) ∧
     Sorted newest_first (insert_fallback_updater (Some (new :: rest)) current)).
Proof.
  intros Hs. split.
  - intros id. rewrite delete_fallback_updater_eq.
    assert (Sorted newest_first (delete_updater id current)); [|done].
    apply StronglySorted_Sorted, StronglySorted_filter.
    by apply Sorted_StronglySorted; [apply _|].
  - intros new rest Hhd. rewrite insert_fallback_updater_head.
    assert (Sorted newest_first (insert_updater new current)); [|done].
    unfold insert_updater. destruct (some _ current); [done|]. by constructor.
Qed.

Lemma order_is_kept_witness :
  Sorted newest_first (delete_updater "1" [row_2; row_1]).
Proof.
  refine (proj1 (proj1 (order_is_kept [row_2; row_1] _) "1")).
  repeat constructor. vm_compute. discriminate.
Defined.

(** ** The error banner *)

Lemma store_failure_truthy message : store_failure message → truthy message = true.
Proof.
  intros (prefix & detail & Hp & ->). apply prefixed_truthy.
  unfold failure_prefixes in Hp. rewrite !elem_of_cons in Hp.
  destruct Hp as [->|[->|[->|Hp]]]; try done. by apply elem_of_nil in Hp.
Qed.

Lemma error_shows_keep (h : Handler) d :
  error (h d).1 = error d ∨ error (h d).1 = None →
  error_shows d → error_shows (h d).1.
Proof. unfold error_shows. by intros [->| ->]. Qed.

Lemma error_handleSubmit d :
  is_Some (user d) →
  error (handleSubmit d).1 = error d ∨ error (handleSubmit d).1 = None.
Proof.
  intros [u Hu]. unfold handleSubmit. rewrite Hu.
  destruct (negb (truthy (title d)) || negb (truthy (url d))); [by left|by right].
Qed.

Lemma error_handleDelete id d :
  is_Some (user d) →
  error (handleDelete id d).1 = error d ∨ error (handleDelete id d).1 = None.
Proof.
  intros [u Hu]. unfold handleDelete. rewrite Hu.
  destruct (truthy_opt (deleting d)); [by left|by right].
Qed.

Lemma error_checkAuth session d :
  error (checkAuth session d).1 = error d ∨ error (checkAuth session d).1 = None.
Proof.
  destruct session as [s|]; [|by left]. unfold checkAuth, fetchBookmarks.
  destruct (truthy (User.id (Session.user s))); [by right|by left].
Qed.

Lemma error_on_change u c d : error (on_change u c d).1 = error d.
Proof.
  destruct c as [new|old]; simpl; [|done]. unfold onInsert. by case_bool_decide.
Qed.

Lemma error_fire t d : error (fire t d).1 = error d.
Proof. by destruct t. Qed.

Lemma store_failure_intro prefix detail :
  prefix ∈ failure_prefixes → store_failure (prefix +:+ detail).
Proof. intros Hp. by exists prefix, detail. Qed.

Lemma error_shows_resume q r d : error_shows d → error_shows (resume q r d).1.
Proof.
  intros Hd. unfold error_shows.
  destruct q as [owner|owner title url|id owner]; simpl.
  - unfold fetchBookmarks_resume. destruct (Postgrest.error r) as [e|]; simpl.
    + apply store_failure_intro. unfold failure_prefixes.
      rewrite !elem_of_cons. auto.
    + by destruct (Postgrest.data r).
  - unfold handleSubmit_resume. destruct (Postgrest.error r) as [e|]; simpl; [|done].
    apply store_failure_intro. unfold failure_prefixes.
    rewrite !elem_of_cons. auto.
  - unfold handleDelete_resume. destruct (Postgrest.error r) as [e|]; simpl; [|done].
    apply store_failure_intro. unfold failure_prefixes.
    rewrite !elem_of_cons. auto.
Qed.

Lemma step_error w e w' :
  attended w → mounted w = true → error_shows (ui w) → step w e = Some w' →
  error_shows (ui w').
Proof.
  intros Hatt Hm Hw Hstep. apply step_inv in Hstep.
  destruct e as [session|v|v| |id| |i o|i|i|i|i| ].
  - destruct Hstep as [_ ->]. autorewrite with dispatch.
    by apply error_shows_keep; [apply error_checkAuth|].
  - destruct Hstep as [_ ->]. by autorewrite with dispatch.
  - destruct Hstep as [_ ->]. by autorewrite with dispatch.
  - destruct Hstep as [Hi ->]. autorewrite with dispatch.
    apply error_shows_keep; [|done].
    by apply error_handleSubmit, interactive_signed_in.
  - destruct Hstep as [[Hi _] ->]. autorewrite with dispatch.
    apply error_shows_keep; [|done].
    by apply error_handleDelete, interactive_signed_in.
  - destruct Hstep as [_ ->]. by autorewrite with dispatch.
  - by destruct Hstep as (q & st & r & cs & _ & _ & ->).
  - destruct Hstep as (q & r & _ & ->). autorewrite with dispatch.
    by apply error_shows_resume.
  - destruct Hstep as (c & _ & ->). destruct (channel w) as [u|]; [|done].
    autorewrite with dispatch. unfold error_shows. by rewrite error_on_change.
  - by destruct Hstep as (c & _ & ->).
  - destruct Hstep as (t & _ & ->). autorewrite with dispatch.
    unfold error_shows. by rewrite error_fire.
  - by destruct Hstep as [_ ->].
Qed.

Lemma reachable_error w : reachable w → error_shows (ui w).
Proof.
  apply (frozen_invariant error_shows). clear w.
  apply (mounted_invariant (λ w, error_shows (ui w))); [|done].
  intros w1 e w2 (_ & Hatt & _) Hw Hm _ Hstep. by eapply step_error.
Qed.

(** X11.  In every state the event loop reaches, the banner shows exactly
    what [error] holds: the truthiness test [error &&] never hides a
    message.  What is shown is always the message of a failed load, create
    or delete; the two "You must be logged in" messages never appear,
    because the form and the list are on screen only for a signed-in
    user. *)
Theorem banner_shows_store_failures_only (w : World) (c : Content) :
  reachable w → render (ui w) = Page c →
  banner c = error (ui w) ∧
  (∀ message, banner c = Some message → store_failure message).
Proof.
  intros Hw Hc. pose proof (reachable_error w Hw) as He.
  unfold error_shows in He. unfold render in Hc.
  destruct (loading (ui w)); [done|]. injection Hc as <-. simpl.
  destruct (error (ui w)) as [message|]; [|done].
  rewrite (store_failure_truthy _ He). split; [done|]. by intros ? [= <-].
Qed.

Lemma after_polite_trace_reachable : reachable after_polite_trace.
Proof.
  exists example_store, polite_trace. split; [apply example_store_wf|].
  vm_compute. reflexivity.
Defined.

Lemma banner_shows_store_failures_only_witness :
  store_failure "Failed to delete bookmark: offline".
Proof.
  eapply (proj2 (banner_shows_store_failures_only after_polite_trace _
                   after_polite_trace_reachable eq_refl)).
  reflexivity.
Defined.

(** ** Nothing pending, nothing busy *)

Lemma submit_pending_dispatch (h : Handler) w :
  (submitting (h (ui w)).1 = true →
   submitting (ui w) = true ∨ ∃ q, is_insert q ∧ q ∈ awaited (h (ui w)).2) →
  submit_pending w → mounted w = true → submit_pending (dispatch h w).
Proof.
  unfold submit_pending. intros Hh Hw Hm. autorewrite with dispatch. intros Hs.
  setoid_rewrite in_flight_dispatch. setoid_rewrite elem_of_app.
  destruct (Hh Hs) as [Hs0|(q & ? & ?)]; [|by eauto].
  destruct (Hw Hs0) as (q & ? & ?). by eauto.
Qed.

Lemma submit_pending_neutral (h : Handler) w :
  submit_neutral h → submit_pending w → mounted w = true →
  submit_pending (dispatch h w).
Proof.
  intros Hn. apply submit_pending_dispatch. destruct (Hn (ui w)) as [-> _]. auto.
Qed.

Lemma submit_pending_relabel w w' :
  ui w' = ui w → in_flight w' ≡ₚ in_flight w →
  submit_pending w → submit_pending w'.
Proof.
  unfold submit_pending. intros -> Hperm Hw Hs. setoid_rewrite Hperm. auto.
Qed.

Lemma step_submit_pending w e w' :
  mounted w = true → submit_pending w → step w e = Some w' → submit_pending w'.
Proof.
  intros Hm Hw Hstep. apply step_inv in Hstep.
  destruct e as [session|v|v| |id| |i o|i|i|i|i| ].
  - destruct Hstep as [_ ->].
    apply submit_pending_neutral; [apply submit_neutral_checkAuth| |done].
    by eapply submit_pending_relabel; [| |exact Hw].
  - destruct Hstep as [_ ->]. by apply submit_pending_neutral; [apply submit_neutral_set|..].
  - destruct Hstep as [_ ->]. by apply submit_pending_neutral; [apply submit_neutral_set|..].
  - destruct Hstep as [_ ->]. apply submit_pending_dispatch; [|done..].
    destruct (handleSubmit_submitting (ui w)) as [[-> _]|[_ (q & Hq & ->)]]; [auto|].
    intros _. right. exists q. split; [done|]. apply elem_of_cons. by left.
  - destruct Hstep as [_ ->].
    by apply submit_pending_neutral; [apply submit_neutral_handleDelete|..].
  - destruct Hstep as [_ ->]. by apply submit_pending_neutral; [apply submit_neutral_set|..].
  - destruct Hstep as (q & st & r & cs & Hq & _ & ->).
    eapply submit_pending_relabel; [| |exact Hw]; [done|].
    unfold in_flight. simpl. by apply in_flight_served.
  - (* Reply *)
    destruct Hstep as (q & r & Hqr & ->).
    set (w1 := taken_reply i w).
    assert (in_flight w ≡ₚ q :: in_flight w1) as Hin
      by (by eapply in_flight_replied).
    destruct (decide (is_insert q)) as [Hq|Hq].
    + destruct q as [|owner title url|]; try done.
      unfold submit_pending. autorewrite with dispatch. simpl.
      assert (submitting (handleSubmit_resume r (ui w)).1 = false) as ->; [|done].
      unfold handleSubmit_resume. by destruct (Postgrest.error r).
    + apply submit_pending_neutral; [by apply submit_neutral_resume| |done].
      unfold submit_pending in *. simpl. intros Hs.
      destruct (Hw Hs) as (q0 & Hq0 & Hel). exists q0. split; [done|].
      rewrite Hin in Hel. apply elem_of_cons in Hel as [->|?]; done.
  - destruct Hstep as (c & _ & ->).
    destruct (channel w) as [u|].
    + apply submit_pending_neutral; [apply submit_neutral_on_change| |done].
      by eapply submit_pending_relabel; [| |exact Hw].
    + by eapply submit_pending_relabel; [| |exact Hw].
  - destruct Hstep as (c & _ & ->).
    by eapply submit_pending_relabel; [| |exact Hw].
  - destruct Hstep as (t & _ & ->).
    apply submit_pending_neutral; [apply submit_neutral_fire| |done].
    by eapply submit_pending_relabel; [| |exact Hw].
  - destruct Hstep as [_ ->].
    by eapply submit_pending_relabel; [| |exact Hw].
Qed.

Lemma loading_follows_neutral (h : Handler) w :
  fetch_neutral h → user (h (ui w)).1 = user (ui w) →
  loading_follows w → mounted w = true → loading_follows (dispatch h w).
Proof.
  unfold loading_follows. intros Hn Hu Hw Hm. autorewrite with dispatch.
  destruct (Hn (ui w)) as (-> & -> & _). by rewrite Hu.
Qed.

Lemma step_loading_follows w e w' :
  attended w → mounted w = true → fetch_tracks w → loading_follows w →
  step w e = Some w' → loading_follows w'.
Proof.
  intros Hatt Hm Hf Hw Hstep. apply step_inv in Hstep.
  destruct e as [session|v|v| |id| |i o|i|i|i|i| ].
  - (* GetSession: "Loading..." is on and nothing is being fetched *)
    destruct Hstep as [Hauth ->].
    assert (user (ui w) = None ∧ idle w) as (Hu & Hl & _ & Hrq & Hrs & _).
    { unfold attended in Hatt. destruct (user (ui w)); [congruence|auto]. }
    assert (fetchingBookmarks (ui w) = false) as Hfb.
    { unfold fetch_tracks, selects_in_flight, in_flight in Hf.
      rewrite Hrq, Hrs in Hf. destruct (fetchingBookmarks (ui w)); [|done].
      destruct Hf as (_ & owner & Hf). by apply Permutation_nil_cons in Hf. }
    unfold loading_follows. autorewrite with dispatch. simpl.
    destruct session as [s|]; simpl; [|rewrite Hu; by intros []].
    unfold checkAuth, fetchBookmarks.
    by destruct (truthy (User.id (Session.user s))).
  - destruct Hstep as [_ ->]. by apply loading_follows_neutral; [apply fetch_neutral_set|..].
  - destruct Hstep as [_ ->]. by apply loading_follows_neutral; [apply fetch_neutral_set|..].
  - destruct Hstep as [_ ->].
    apply loading_follows_neutral; [apply fetch_neutral_handleSubmit| |done..].
    by destruct (keeps_session_handleSubmit (ui w)).
  - destruct Hstep as [_ ->].
    apply loading_follows_neutral; [apply fetch_neutral_handleDelete| |done..].
    by destruct (keeps_session_handleDelete id (ui w)).
  - destruct Hstep as [_ ->]. by apply loading_follows_neutral; [apply fetch_neutral_set|..].
  - by destruct Hstep as (q & st & r & cs & _ & _ & ->).
  - (* Reply *)
    destruct Hstep as (q & r & _ & ->).
    destruct (decide (is_select q)) as [Hq|Hq].
    + destruct q as [owner| |]; try done.
      unfold loading_follows. autorewrite with dispatch. simpl. intros _.
      unfold fetchBookmarks_resume. destruct (Postgrest.error r); [done|].
      by destruct (Postgrest.data r).
    + apply loading_follows_neutral; [by apply fetch_neutral_resume| |done..].
      apply user_resume.
  - destruct Hstep as (c & _ & ->). destruct (channel w) as [u|]; [|done].
    apply loading_follows_neutral; [apply fetch_neutral_on_change| |done..].
    by destruct (keeps_session_on_change u c (ui (taken_change i w))).
  - by destruct Hstep as (c & _ & ->).
  - destruct Hstep as (t & _ & ->).
    apply loading_follows_neutral; [apply fetch_neutral_fire| |done..].
    by destruct (keeps_session_fire t (ui (taken_timer i w))).
  - by destruct Hstep as [_ ->].
Qed.

Lemma reachable_busy w :
  reachable w → mounted w = true → submit_pending w ∧ loading_follows w.
Proof.
  intros Hw Hm.
  assert (fetch_tracks w ∧ submit_pending w ∧ loading_follows w) as (_ & ? & ?);
    [|done].
  apply (mounted_invariant
           (λ w, fetch_tracks w ∧ submit_pending w ∧ loading_follows w));
    [| |done..].
  - intros w1 e w2 (_ & Hatt & _) (Hf & Hp & Hl) Hm1 _ Hstep. split_and!.
    + by eapply step_fetch.
    + by eapply step_submit_pending.
    + by eapply step_loading_follows.
  - intros st. split_and!; [done..|]. by intros [? ?].
Qed.

(** X12.  In every state the event loop reaches in which the component is
    mounted and no call is in flight, nothing is left busy: [submitting],
    [deleting] and [fetchingBookmarks] are cleared, a signed-in user is past
    "Loading...", the submit button is enabled and reads "Add Bookmark",
    and every Delete button is enabled and reads "Delete".  Every handler
    clears its flag on both branches of the reply. *)
Theorem nothing_pending_nothing_busy (w : World) :
  reachable w → mounted w = true → requests w = [] → responses w = [] →
  submitting (ui w) = false ∧ deleting (ui w) = None ∧
  fetchingBookmarks (ui w) = false ∧
  (is_Some (user (ui w)) → loading (ui w) = false) ∧
  (∀ c, render (ui w) = Page c →
        submit_disabled c = false ∧ submit_label c = "Add Bookmark" ∧
        ∀ es e, list_view c = Entries es → e ∈ es →
                delete_disabled e = false ∧ delete_label e = "Delete").
Proof.
  intros Hw Hmt Hrq Hrs.
  assert (in_flight w = []) as Hnone by (unfold in_flight; by rewrite Hrq, Hrs).
  destruct (reachable_busy w Hw Hmt) as [Hp Hl].
  pose proof (reachable_marker w Hw Hmt) as Hm.
  pose proof (reachable_fetch w Hw Hmt) as Hf.
  assert (submitting (ui w) = false) as Hs.
  { destruct (submitting (ui w)) eqn:E; [|done].
    destruct (Hp E) as (q & _ & Hq). rewrite Hnone in Hq.
    by apply elem_of_nil in Hq. }
  assert (deleting (ui w) = None) as Hd.
  { unfold marker_tracks, deletes_in_flight in Hm. rewrite Hnone in Hm.
    destruct (deleting (ui w)); [|done].
    destruct Hm as (_ & u & _ & Hm). by apply Permutation_nil_cons in Hm. }
  assert (fetchingBookmarks (ui w) = false) as Hfb.
  { unfold fetch_tracks, selects_in_flight in Hf. rewrite Hnone in Hf.
    destruct (fetchingBookmarks (ui w)); [|done].
    destruct Hf as (_ & owner & Hf). by apply Permutation_nil_cons in Hf. }
  split_and!; try done.
  - intros Hu. by rewrite (Hl Hu).
  - intros c Hc. pose proof Hc as Hc'. unfold render in Hc'.
    destruct (loading (ui w)); [done|]. injection Hc' as <-. simpl.
    rewrite Hs. split_and!; try done.
    intros es e Hes He. destruct (render_entries _ _ _ Hc Hes) as (_ & _ & ->).
    apply list_elem_of_fmap in He as (b & -> & _). simpl. by rewrite Hd.
Qed.

Lemma nothing_pending_nothing_busy_witness :
  submitting (ui after_insert) = false ∧ deleting (ui after_insert) = None.
Proof.
  destruct (nothing_pending_nothing_busy after_insert after_insert_reachable
              eq_refl eq_refl eq_refl) as (H1 & H2 & _).
  by split.
Defined.

(** ** Where the pages send the visitor *)

Lemma pushed_checkAuth session d :
  pushed (checkAuth session d).2 =
    match session with
    | Some _ => []
    | None => ["/"]
    end.
Proof.
  destruct session as [s|]; [|done]. unfold checkAuth, fetchBookmarks.
  by destruct (truthy (User.id (Session.user s))).
Qed.

(** X13.  The gate page and the dashboard never both redirect, and never
    both stay: whatever [getSession] resolves to, the gate pushes
    "/dashboard" exactly when there is a session and the dashboard pushes
    "/" exactly when there is none.  Their auth listeners do the same for
    every event that is not a SIGNED_OUT carrying a session.  The gate
    clears "Loading..." however [getSession] ends, through [finally]. *)
Theorem gate_and_dashboard_agree (event : string) (session : option Session.t)
    (s : HomeGate.State) (d : Dashboard) :
  (event = "SIGNED_OUT" → session = None) →
  let gate := (HomeGate.checkSession (Resolved session) s).2 in
  let board := pushed (checkAuth session d).2 in
  let gate_listener := HomeGate.onAuthStateChange event session in
  let board_listener := pushed (onAuthStateChange event session d).2 in
  match session with
  | Some _ => gate = ["/dashboard"] ∧ board = []
  | None => gate = [] ∧ board = ["/"]
  end ∧
  gate_listener = gate ∧ board_listener = board ∧
  (onAuthStateChange event session d).1 = d ∧
  (∀ r, HomeGate.loading (HomeGate.checkSession r s).1 = false).
Proof.
  intros Hev. simpl. rewrite pushed_checkAuth. unfold onAuthStateChange.
  destruct session as [x|]; simpl.
  - rewrite bool_decide_eq_false_2 by (intros ->; by specialize (Hev eq_refl)).
    split_and!; try done. by intros [[?|]|].
  - rewrite orb_true_r. split_and!; try done. by intros [[?|]|].
Qed.

Lemma gate_and_dashboard_agree_witness :
  pushed (onAuthStateChange "SIGNED_IN" (Some (Session.mk example_user)) initial).2 = [].
Proof.
  destruct (gate_and_dashboard_agree "SIGNED_IN" (Some (Session.mk example_user))
              HomeGate.initial initial) as ([_ H1] & _ & H2 & _); [done|].
  by rewrite H2, H1.
Defined.

(** ** The page that shows who is signed in *)

Lemma home_page_step stage s e stage' s' :
  HomePage.step (stage, s) e = Some (stage', s') →
  (HomePage.loading s = false ↔ stage = HomePage.Over) →
  (HomePage.loading s' = false ↔ stage' = HomePage.Over).
Proof.
  intros Hstep Hinv.
  destruct e as [[session|]|[u|]|event session], stage; simpl in Hstep;
    simplify_eq; simpl in *; try done;
    split; try done; intros Hl; by apply Hinv in Hl.
Qed.

Lemma home_page_run es st st' :
  HomePage.run es st = Some st' →
  (HomePage.loading st.2 = false ↔ st.1 = HomePage.Over) →
  (HomePage.loading st'.2 = false ↔ st'.1 = HomePage.Over).
Proof.
  revert st. induction es as [|e es IH]; intros st Hrun Hinv; simpl in Hrun.
  - by simplify_eq.
  - destruct (HomePage.step st e) as [st1|] eqn:E; [|done]. simpl in Hrun.
    apply (IH st1 Hrun). destruct st as [stage s], st1 as [stage1 s1].
    by eapply home_page_step.
Qed.

(** X14.  On the page that shows who is signed in, whatever the order in
    which [getSession], [getUser] and the auth events arrive, and whether or
    not the two calls are rejected: "Loading..." is shown exactly until
    [checkSession] is over, and an auth event that arrives afterwards
    decides alone which panel is shown. *)
Theorem home_page_loading (es : list HomePage.Event) (stage : HomePage.Stage)
    (s : HomePage.State) :
  HomePage.run es (HomePage.AwaitSession, HomePage.initial) = Some (stage, s) →
  (HomePage.render s = HomePage.Loading ↔ stage ≠ HomePage.Over) ∧
  (∀ event session,
     ∃ s', HomePage.step (stage, s) (HomePage.AuthStateChange event session) =
           Some (stage, s') ∧
           (stage = HomePage.Over →
            HomePage.render s' =
              match session with
              | Some x => HomePage.Authenticated (Session.user x)
              | None => HomePage.NotAuthenticated
              end)).
Proof.
  intros Hrun. apply home_page_run in Hrun; [|done]. simpl in Hrun. split.
  - unfold HomePage.render. destruct (HomePage.loading s).
    + split; [|done]. intros _ Hover. by apply Hrun in Hover.
    + split; [by destruct (HomePage.user s)|]. intros Hne.
      destruct Hne. by apply Hrun.
  - intros event session. eexists. split; [by destruct stage|].
    intros Hover. apply Hrun in Hover. unfold HomePage.render. simpl.
    rewrite Hover. by destruct session.
Qed.

Lemma home_page_loading_witness :
  HomePage.render (HomePage.mk None (Some (Session.mk example_user)) false) =
    HomePage.Loading ↔ HomePage.Over ≠ HomePage.Over.
Proof.
  refine (proj1 (home_page_loading
    [HomePage.AuthStateChange "INITIAL_SESSION" None;
     HomePage.GotSession (Resolved (Some (Session.mk example_user)));
     HomePage.GotUser Rejected] _ _ eq_refl)).
Defined.

(** ** After the unmount *)

Lemma length_taken {A} (l : list A) i a :
  l !! i = Some a → (length l = S (length (delete i l)))%nat.
Proof.
  intros Hi. pose proof (lookup_lt_Some _ _ _ Hi).
  rewrite length_delete by eauto. lia.
Qed.

Lemma length_scheduled_resume q r d : (length (scheduled (resume q r d).2) ≤ 1)%nat.
Proof.
  destruct q as [owner|owner title url|id owner]; simpl.
  - unfold fetchBookmarks_resume. destruct (Postgrest.error r); [simpl; lia|].
    destruct (Postgrest.data r); simpl; lia.
  - unfold handleSubmit_resume. destruct (Postgrest.error r); simpl; lia.
  - unfold handleDelete_resume. destruct (Postgrest.error r); simpl; lia.
Qed.

Lemma length_awaited_checkAuth session d :
  (length (awaited (checkAuth session d).2) ≤ 1)%nat.
Proof.
  destruct session as [s|]; simpl; [|lia]. unfold checkAuth, fetchBookmarks.
  destruct (truthy (User.id (Session.user s))); simpl; lia.
Qed.

Lemma step_winds_down w e w' :
  mounted w = false → channel w = None → step w e = Some w' →
  mounted w' = false ∧ channel w' = None ∧
  (pending_work w' ≤ pending_work w)%nat ∧
  (auth_pending w' = true → auth_pending w = true) ∧
  (∀ q, q ∈ requests w' →
        q ∈ requests w ∨ (auth_pending w = true ∧ is_select q)).
Proof.
  intros Hm Hch Hstep. apply step_inv in Hstep. unfold pending_work.
  destruct e as [session|v|v| |id| |i o|i|i|i|i| ].
  - destruct Hstep as [Hauth ->]. autorewrite with dispatch. simpl.
    rewrite Hm, Hauth, !length_app.
    destruct (quiet_checkAuth session (ui w)) as [_ ->].
    pose proof (length_awaited_checkAuth session (ui w)). simpl.
    split_and!; [done..|lia|done|].
    intros q [?|Hq]%elem_of_app; [by left|right]. split; [done|].
    destruct session as [s|]; [|by apply elem_of_nil in Hq].
    unfold checkAuth, fetchBookmarks in Hq.
    destruct (truthy (User.id (Session.user s))); simpl in Hq;
      [|by apply elem_of_nil in Hq].
    by apply list_elem_of_singleton in Hq as ->.
  - destruct Hstep as [[? _] _]. congruence.
  - destruct Hstep as [[? _] _]. congruence.
  - destruct Hstep as [[? _] _]. congruence.
  - destruct Hstep as [[[? _] _] _]. congruence.
  - destruct Hstep as [[? _] _]. congruence.
  - destruct Hstep as (q & st & r & cs & Hq & _ & ->). simpl.
    rewrite Hch. simpl. rewrite (length_taken _ _ _ Hq), !length_app. simpl.
    split_and!; [done..|lia|done|].
    intros q0 ?%list_elem_of_delete_inv. by left.
  - destruct Hstep as (q & r & Hqr & ->). autorewrite with dispatch. simpl.
    rewrite Hm, awaited_resume, (length_taken _ _ _ Hqr), !length_app.
    pose proof (length_scheduled_resume q r (ui w)). simpl.
    rewrite app_nil_r. split_and!; [done..|lia|done|by left].
  - destruct Hstep as (c & Hc & ->). rewrite Hch. simpl.
    rewrite (length_taken _ _ _ Hc). split_and!; [done..|lia|done|by left].
  - destruct Hstep as (c & Hc & ->). simpl.
    rewrite (length_taken _ _ _ Hc). split_and!; [done..|lia|done|by left].
  - destruct Hstep as (t & Ht & ->). autorewrite with dispatch. simpl.
    rewrite Hm, awaited_fire, scheduled_fire, (length_taken _ _ _ Ht), !length_app.
    simpl. rewrite app_nil_r. split_and!; [done..|lia|done|by left].
  - destruct Hstep as [? _]. congruence.
Qed.

(** X15.  Once the component is unmounted it stays unmounted and without
    a channel, and the work in front of it never grows.  No handler of the
    form or of the list runs any more; the handlers resumed by the pending
    replies send no call and set at most the one fallback timer; the timer
    callbacks start nothing.  So every request still sent was pending at
    the unmount, but for the initial select, which is sent when
    [getSession] resolves after the unmount. *)
Theorem after_unmount_winds_down (w w' : World) (es : list Event) :
  reachable w → mounted w = false → run es w = Some w' →
  mounted w' = false ∧ channel w' = None ∧
  (pending_work w' ≤ pending_work w)%nat ∧
  (∀ q, q ∈ requests w' →
        q ∈ requests w ∨ (auth_pending w = true ∧ is_select q)) ∧
  (∀ q r d, awaited (resume q r d).2 = [] ∧
            (length (scheduled (resume q r d).2) ≤ 1)%nat) ∧
  (∀ t d, (fire t d).2 = []).
Proof.
  intros Hw Hm Hrun. destruct (reachable_steady w Hw) as (_ & _ & Hch).
  unfold channel_follows in Hch. rewrite Hm in Hch.
  assert (mounted w' = false ∧ channel w' = None ∧
          (pending_work w' ≤ pending_work w)%nat ∧
          (auth_pending w' = true → auth_pending w = true) ∧
          (∀ q, q ∈ requests w' →
                q ∈ requests w ∨ (auth_pending w = true ∧ is_select q)))
    as (? & ? & ? & _ & ?).
  { apply (run_invariant
             (λ w1, mounted w1 = false ∧ channel w1 = None ∧
                    (pending_work w1 ≤ pending_work w)%nat ∧
                    (auth_pending w1 = true → auth_pending w = true) ∧
                    (∀ q, q ∈ requests w1 →
                          q ∈ requests w ∨ (auth_pending w = true ∧ is_select q))))
      with es w; [|split_and!; auto|done].
    intros w1 e w2 (Hm1 & Hch1 & Hle & Hauth & Hrq) Hstep.
    destruct (step_winds_down _ _ _ Hm1 Hch1 Hstep) as (? & ? & ? & Hauth2 & Hrq2).
    split_and!; [done..|lia|by auto|].
    intros q Hq. destruct (Hrq2 q Hq) as [?|[? ?]]; [by auto|right]. auto. }
  split_and!; try done.
  - intros q r d. split; [apply awaited_resume|apply length_scheduled_resume].
  - intros t d. by destruct t.
Qed.

Lemma after_unmount_winds_down_witness :
  (pending_work (dispatch (fire (InsertFallback (Some [row_2])))
                   (taken_timer 0 after_unmount)) ≤ pending_work after_unmount)%nat.
Proof.
  refine (proj1 (proj2 (proj2 (after_unmount_winds_down after_unmount _ [Tick 0]
                                 after_unmount_reachable eq_refl eq_refl)))).
Defined.

(** ** Notifications in another order *)

Lemma some_id_delete_updater (x id : string) (l : list Bookmark.t) :
  x ≠ id →
  some (λ b, Bookmark.id b = x) (delete_updater id l) =
  some (λ b, Bookmark.id b = x) l.
Proof.
  intros Hne. destruct (some _ l) eqn:E.
  - apply some_id_true. apply some_id_true in E.
    by apply elem_of_delete_updater.
  - apply some_id_false. apply some_id_false in E.
    rewrite elem_of_delete_updater. tauto.
Qed.

(** X16.  A record that is created and then deleted leaves the list as it
    was: removing the identifier of a record that the INSERT callback or
    the insert fallback has just prepended gives back the list, entry for
    entry, through the DELETE callback as through the delete fallback.
    The other way round the record does not return to its place: an
    insert that arrives after the delete puts the payload at the head. *)
Theorem create_then_delete_is_a_round_trip (new : Bookmark.t) (current : list Bookmark.t) :
  Bookmark.id new ∉ Bookmark.id <$> current →
  delete_updater (Bookmark.id new) (insert_updater new current) = current ∧
  delete_fallback_updater (Bookmark.id new)
    (insert_fallback_updater (Some [new]) current) = current ∧
  (∀ before after old,
     Bookmark.id old = Bookmark.id new →
     NoDup (Bookmark.id <$> (before ++ old :: after)) →
     insert_updater new (delete_updater (Bookmark.id new) (before ++ old :: after)) =
     new :: before ++ after).
Proof.
  intros Hnew.
  assert (delete_updater (Bookmark.id new) (insert_updater new current) = current)
    as Hround.
  { unfold insert_updater. rewrite (proj2 (some_id_false _ _) Hnew).
    unfold delete_updater. rewrite filter_cons_False by naive_solver.
    by apply delete_updater_absent. }
  split_and!; [done|by rewrite delete_fallback_updater_eq, insert_fallback_updater_head|].
  intros before after old Hid Hnd.
  rewrite fmap_app, fmap_cons, Hid in Hnd.
  apply NoDup_app in Hnd as (_ & Hbefore & [Hafter _]%NoDup_cons).
  assert (delete_updater (Bookmark.id new) (before ++ old :: after) = before ++ after)
    as ->.
  { unfold delete_updater.
    rewrite filter_app, filter_cons_False by naive_solver.
    rewrite !filter_all; [done|..]; apply Forall_forall; intros a Ha Heq.
    - apply Hafter. rewrite <- Heq. by apply list_elem_of_fmap_2.
    - apply (Hbefore (Bookmark.id a)); [by apply list_elem_of_fmap_2|].
      rewrite Heq. apply elem_of_cons. by left. }
  unfold insert_updater. rewrite (proj2 (some_id_false _ _)); [done|].
  rewrite fmap_app, not_elem_of_app. split; [|done].
  intros Hin. apply (Hbefore _ Hin). apply elem_of_cons. by left.
Qed.

Lemma create_then_delete_is_a_round_trip_witness :
  delete_updater "2" (insert_updater row_2 [row_1]) = [row_1].
Proof.
  refine (proj1 (create_then_delete_is_a_round_trip row_2 [row_1] _)).
  apply (bool_decide_unpack _). vm_compute. exact I.
Defined.

(** X17.  Notifications about different records can be handled in either
    order.  Two removals commute, and so do a removal and an insert of
    another record: the list is the same entry for entry.  Two inserts of
    different records give the same entries in another order, the later
    one first. *)
Theorem notifications_of_different_records_commute
    (a b : Bookmark.t) (i j : string) (current : list Bookmark.t) :
  Bookmark.id a ≠ i → Bookmark.id a ≠ Bookmark.id b →
  delete_updater i (delete_updater j current) =
    delete_updater j (delete_updater i current) ∧
  insert_updater a (delete_updater i current) =
    delete_updater i (insert_updater a current) ∧
  insert_updater a (insert_updater b current) ≡ₚ
    insert_updater b (insert_updater a current) ∧
  (Bookmark.id a ∉ Bookmark.id <$> current →
   Bookmark.id b ∉ Bookmark.id <$> current →
   insert_updater a (insert_updater b current) = a :: b :: current).
Proof.
  intros Hai Hab. split_and!.
  - unfold delete_updater. rewrite !list_filter_filter.
    apply list_filter_iff. tauto.
  - unfold insert_updater at 1 2. rewrite some_id_delete_updater by done.
    destruct (some _ current); [done|].
    unfold delete_updater. by rewrite filter_cons_True.
  - unfold insert_updater.
    destruct (some (λ x, Bookmark.id x = Bookmark.id a) current) eqn:Ea,
             (some (λ x, Bookmark.id x = Bookmark.id b) current) eqn:Eb;
      rewrite ?Ea, ?Eb; try done.
    + assert (some (λ x, Bookmark.id x = Bookmark.id a) (b :: current) = true) as ->;
        [|done].
      apply some_id_true. rewrite fmap_cons, elem_of_cons. right.
      by apply some_id_true.
    + assert (some (λ x, Bookmark.id x = Bookmark.id b) (a :: current) = true) as ->;
        [|done].
      apply some_id_true. rewrite fmap_cons, elem_of_cons. right.
      by apply some_id_true.
    + assert (some (λ x, Bookmark.id x = Bookmark.id a) (b :: current) = false) as ->.
      { apply some_id_false. rewrite fmap_cons, not_elem_of_cons.
        split; [done|]. by apply some_id_false. }
      assert (some (λ x, Bookmark.id x = Bookmark.id b) (a :: current) = false) as ->.
      { apply some_id_false. rewrite fmap_cons, not_elem_of_cons.
        split; [done|]. by apply some_id_false. }
      apply perm_swap.
  - intros Ha Hb. unfold insert_updater.
    rewrite (proj2 (some_id_false _ _) Hb).
    rewrite (proj2 (some_id_false _ _)); [done|].
    rewrite fmap_cons, not_elem_of_cons. done.
Qed.

Lemma notifications_of_different_records_commute_witness :
  insert_updater row_2 (delete_updater "1" [row_1]) =
  delete_updater "1" (insert_updater row_2 [row_1]).
Proof.
  refine (proj1 (proj2 (notifications_of_different_records_commute
                          row_2 row_1 "1" "1" [row_1] _ _))); done.
Defined.
